(** * Transaction summarizer: CSV validation, batch persistence, monthly aggregation

    A shallow embedding of [aws/lambda/summarizer/main.go]: the CSV validator
    ([processCSVFile]), the batch persister ([insertTransactions] and the
    transaction block of [handler]), the aggregator
    ([getTransactionSummaryByEmail], SQL text included), the orchestrator
    ([handler]) and the connection singleton ([getDBConnection]); then, each
    in a module of its own, the Lambda the summarizer invokes
    ([aws/lambda/emailer/main.go]) and the Lambda that puts the files in the
    bucket ([aws/lambda/uploader/main.go]).

    Conventions.
    - Go [int] values (row numbers, counts) are [Z]; none of them can reach
      the 64-bit bound on inputs that fit in memory.
    - Go [float64] is [spec_float] at precision 53 and exponent bound 1024,
      the executable IEEE 754 binary64 specification of the standard library.
    - PostgreSQL [NUMERIC] values are exact rationals [Q] together with a
      display scale, the number of decimals they are written with; [SUM] is
      the exact sum, [AVG] is [numeric_div] of the sum by the count, which
      rounds the quotient to the scale [select_div_scale] picks.
    - Amount texts are read as decimal literals. For every other text
      [numeric_in] is [None], which the query model takes for the error of
      the cast: that is what PostgreSQL does with a text that is no number,
      but not with the texts it reads as special values (NaN, and Infinity
      in recent versions) or as non-decimal integers. What is stated of a
      summary that is returned is stated of an account whose amount texts
      are decimal literals.
    - The collaborators the program only talks to (S3, the csv reader, the
      database driver, the Lambda client) are described by the results of the
      calls the program makes on them. *)

From stdpp Require Import base list strings gmap sets pretty.
From Stdlib Require Import ZArith QArith Qabs Qreduction Ascii String Sorting.Sorted Lia.
From Stdlib Require Import Floats.SpecFloat.

Open Scope string_scope.
Open Scope list_scope.
Open Scope Z_scope.

(** ** Characters and strings *)

Definition digit_of (c : ascii) : option Z :=
  let n := Z.of_N (N_of_ascii c) in
  if (48 <=? n) && (n <=? 57) then Some (n - 48) else None.

(** C [isspace] in the "C" locale: space, \t, \n, \v, \f, \r. *)
Definition is_space (c : ascii) : bool :=
  let n := Z.of_N (N_of_ascii c) in
  (n =? 32) || ((9 <=? n) && (n <=? 13)).

Definition is_blank (c : ascii) : bool := Ascii.eqb c " ".

Fixpoint skip_while (p : ascii -> bool) (s : string) : string :=
  match s with
  | String c s' => if p c then skip_while p s' else s
  | EmptyString => s
  end.

Fixpoint rev_string (s acc : string) : string :=
  match s with
  | String c s' => rev_string s' (String c acc)
  | EmptyString => acc
  end.

(** SQL [TRIM(s)]: removes the blanks (and only the blanks) at both ends. *)
Definition TRIM (s : string) : string :=
  rev_string (skip_while is_blank (rev_string (skip_while is_blank s) "")) "".

(** SQL [REPLACE(s, c, '')] for a one-character pattern: every occurrence
    of [c] is removed. *)
Fixpoint REPLACE (s : string) (c : ascii) : string :=
  match s with
  | String d s' => if Ascii.eqb d c then REPLACE s' c else String d (REPLACE s' c)
  | EmptyString => EmptyString
  end.

(** SQL [s LIKE 'c%'] for a one-character prefix [c]. *)
Definition LIKE_prefix (s : string) (c : ascii) : bool :=
  match s with
  | String d _ => Ascii.eqb d c
  | EmptyString => false
  end.

(** Reads the longest run of decimal digits at the head of [s]: the value
    accumulated on top of [acc], the number of digits read on top of [n], and
    what follows. *)
Fixpoint read_digits (s : string) (acc : Z) (n : nat) : Z * nat * string :=
  match s with
  | String c s' =>
      match digit_of c with
      | Some d => read_digits s' (acc * 10 + d) (S n)
      | None => (acc, n, s)
      end
  | EmptyString => (acc, n, s)
  end.

Definition read_sign (s : string) : bool * string :=
  match s with
  | String "-" s' => (true, s')
  | String "+" s' => (false, s')
  | _ => (false, s)
  end.

(** ** strconv.Atoi

    An optional sign followed by one or more decimal digits and nothing else,
    and a value that fits a 64-bit [int]; [None] stands for the
    [*strconv.NumError] of every other input. *)
Definition Atoi (s : string) : option Z :=
  let '(neg, body) := read_sign s in
  match read_digits body 0 0 with
  | (n, S _, EmptyString) =>
      let v := if neg then - n else n in
      if (- 2 ^ 63 <=? v) && (v <? 2 ^ 63) then Some v else None
  | _ => None
  end.

(** ** NUMERIC input

    [numeric_in] is the text-to-NUMERIC conversion behind
    [CAST(... AS NUMERIC)], for the decimal literals every PostgreSQL version
    reads the same way: optional white space, an optional sign, digits with
    at most one decimal point and at least one digit, an optional exponent
    ([e] or [E], optional sign, digits), optional white space. [Some q] is
    the value of such a literal. [None] covers every other text: the ones
    the cast refuses with "invalid input syntax", and also the ones outside
    this model, which the cast reads as a value: the special values (NaN in
    every version, Infinity in recent ones) and the non-decimal and
    underscore literals of recent versions. What is stated about the query
    is drawn from [Some]. *)
Definition pow10 (e : Z) : Q :=
  if 0 <=? e then inject_Z (10 ^ e) else 1 # Z.to_pos (10 ^ (- e)).

Definition decimal_value (neg : bool) (m : Z) (e : Z) : Q :=
  (inject_Z (if neg then - m else m) * pow10 e)%Q.

Definition read_exponent (s : string) : option (Z * string) :=
  match s with
  | String c s' =>
      if Ascii.eqb c "e" || Ascii.eqb c "E" then
        let '(neg, s1) := read_sign s' in
        match read_digits s1 0 0 with
        | (_, O, _) => None
        | (e, S _, rest) => Some (if neg then - e else e, rest)
        end
      else Some (0, s)
  | EmptyString => Some (0, s)
  end.

(** The digits, decimal point and exponent that follow the sign. *)
Definition read_unsigned (neg : bool) (s1 : string) : option Q :=
  let '(ip, ni, s2) := read_digits s1 0 0 in
  let '(m, nf, s3) :=
    match s2 with
    | String "." s' => read_digits s' ip 0
    | _ => (ip, O, s2)
    end in
  match (ni + nf)%nat with
  | O => None
  | S _ =>
      match read_exponent s3 with
      | None => None
      | Some (e, s4) =>
          match skip_while is_space s4 with
          | EmptyString => Some (decimal_value neg m (e - Z.of_nat nf))
          | _ => None
          end
      end
  end.

Definition numeric_in (s : string) : option Q :=
  let '(neg, s1) := read_sign (skip_while is_space s) in
  read_unsigned neg s1.

(** The display scale [numeric_in] gives the value of a literal: the number
    of digits after the point, less the exponent, and not below 0. *)
Definition unsigned_dscale (s1 : string) : Z :=
  let '(ip, ni, s2) := read_digits s1 0 0 in
  let '(m, nf, s3) :=
    match s2 with
    | String "." s' => read_digits s' ip 0
    | _ => (ip, O, s2)
    end in
  match read_exponent s3 with
  | Some (e, _) => Z.max 0 (Z.of_nat nf - e)
  | None => 0
  end.

Definition numeric_dscale (s : string) : Z :=
  let '(_, s1) := read_sign (skip_while is_space s) in
  unsigned_dscale s1.

(** ** float64 *)

Definition float64 := spec_float.

Definition prec64 : Z := 53.
Definition emax64 : Z := 1024.

Definition f64_zero : float64 := S754_zero false.
Definition f64_add : float64 -> float64 -> float64 := SFadd prec64 emax64.
Definition f64_neg : float64 -> float64 := SFopp.

(** The binary64 value nearest to the positive rational [n / d], ties to
    even: the quotient is computed to the bits the format keeps, and the
    remainder decides the rounding. *)
Definition round_ratio (sign : bool) (n d : positive) : float64 :=
  let '(m, e, l) := SFdiv_core_binary prec64 emax64 (Zpos n) 0 (Zpos d) 0 in
  binary_round_aux prec64 emax64 sign m e l.

Definition float64_of_Q (q : Q) : float64 :=
  let r := Qred q in
  match Qnum r with
  | Z0 => f64_zero
  | Zpos n => round_ratio false n (Qden r)
  | Zneg n => round_ratio true n (Qden r)
  end.

Definition is_finite (f : float64) : bool :=
  match f with
  | S754_zero _ | S754_finite _ _ _ => true
  | _ => false
  end.

(** [strconv.ParseFloat(s, 64)] on the decimal text of a NUMERIC value: the
    nearest binary64, or [ErrRange] ([None]) when that is an infinity. *)
Definition ParseFloat (q : Q) : option float64 :=
  let f := float64_of_Q q in
  if is_finite f then Some f else None.

(** ** The relational store

    Table [transacciones (external_id, date, transaction, email)]: the query
    applies [TO_CHAR(date, ...)] and [DATE_TRUNC('month', date)], so [date]
    is a calendar date; [transaction] keeps the signed amount as text. *)

Inductive CalendarMonth :=
  | January | February | March | April | May | June
  | July | August | September | October | November | December.

Definition month_number (m : CalendarMonth) : Z :=
  match m with
  | January => 1 | February => 2 | March => 3 | April => 4
  | May => 5 | June => 6 | July => 7 | August => 8
  | September => 9 | October => 10 | November => 11 | December => 12
  end.

Definition month_name (m : CalendarMonth) : string :=
  match m with
  | January => "January" | February => "February" | March => "March"
  | April => "April" | May => "May" | June => "June" | July => "July"
  | August => "August" | September => "September" | October => "October"
  | November => "November" | December => "December"
  end.

Record Date := { year : Z; month : CalendarMonth; day : Z }.

Record TxRow := {
  external_id : Z;
  date : Date;
  transaction : string;
  email : string
}.

Definition Table := list TxRow.

(** ** The summary query, clause by clause *)

(** [DATE_TRUNC('month', date)]: the first instant of the month, that is the
    year and the month. *)
Definition MonthKey := (Z * CalendarMonth)%type.

Definition DATE_TRUNC_month (d : Date) : MonthKey := (year d, month d).

(** [TO_CHAR(date, 'FMMonth')]: the English month name without padding. *)
Definition TO_CHAR_FMMonth (d : Date) : string := month_name (month d).

(** Chronological position of a month: the order of [DATE_TRUNC] values. *)
Definition key_ord (k : MonthKey) : Z := fst k * 12 + month_number (snd k).

Definition key_ltb (a b : MonthKey) : bool := key_ord a <? key_ord b.
Definition key_eqb (a b : MonthKey) : bool := key_ord a =? key_ord b.

(** [GROUP BY DATE_TRUNC('month', date), TO_CHAR(date, 'FMMonth')
     ORDER BY DATE_TRUNC('month', date)]: one group per distinct month of
    a year, in ascending order. The month name is a function of the truncated
    date, so the second grouping expression never splits a group. *)
Fixpoint insert_key (k : MonthKey) (ks : list MonthKey) : list MonthKey :=
  match ks with
  | [] => [k]
  | k' :: ks' =>
      if key_ltb k k' then k :: ks
      else if key_eqb k k' then ks
      else k' :: insert_key k ks'
  end.

Definition group_keys (rows : list TxRow) : list MonthKey :=
  foldr (fun r ks => insert_key (DATE_TRUNC_month (date r)) ks) [] rows.

Definition in_month (k : MonthKey) (r : TxRow) : Prop :=
  DATE_TRUNC_month (date r) = k.

#[global] Instance month_eq_dec : EqDecision CalendarMonth.
Proof. solve_decision. Defined.

#[global] Instance in_month_dec k r : Decision (in_month k r).
Proof. unfold in_month, MonthKey. apply _. Defined.

Definition month_groups (rows : list TxRow) : list (MonthKey * list TxRow) :=
  map (fun k => (k, filter (in_month k) rows)) (group_keys rows).

(** [WHERE email = $1]. *)
Definition account_rows (db : Table) (e : string) : list TxRow :=
  filter (fun r => email r = e) db.

(** [CASE WHEN TRIM(transaction) LIKE 's%'
          THEN CAST(REPLACE(TRIM(transaction), 's', '') AS NUMERIC)
          ELSE NULL END]
    for the sign character [s]. The outer [option] is the error of the cast,
    the inner one is SQL NULL. *)
Definition signed_case (s : ascii) (t : string) : option (option Q) :=
  if LIKE_prefix (TRIM t) s then
    match numeric_in (REPLACE (TRIM t) s) with
    | Some q => Some (Some q)
    | None => None
    end
  else Some None.

(** [CAST(TRIM(transaction) AS NUMERIC)]. *)
Definition signed_amount (t : string) : option Q := numeric_in (TRIM t).

Definition Qsum (l : list Q) : Q := foldr Qplus 0%Q l.

Fixpoint non_null {A} (l : list (option A)) : list A :=
  match l with
  | [] => []
  | Some a :: l' => a :: non_null l'
  | None :: l' => non_null l'
  end.

(** ** NUMERIC division, as [AVG] uses it

    [AVG] over NUMERIC is [numeric_div] of the exact sum by the count. The
    quotient is rounded, half away from zero, to the scale that
    [select_div_scale] picks: enough decimals for 16 significant digits, and
    no fewer than the display scale of the sum, which is the largest display
    scale among the inputs. *)

Definition NBASE : Z := 10000.
Definition DEC_DIGITS : Z := 4.
Definition NUMERIC_MIN_SIG_DIGITS : Z := 16.
Definition NUMERIC_MIN_DISPLAY_SCALE : Z := 0.
Definition NUMERIC_MAX_DISPLAY_SCALE : Z := 1000.

(** The weight of an integer [x >= 1] in base [NBASE]: one less than the
    number of its base-[NBASE] digits. *)
Fixpoint weight_up (fuel : nat) (x : Z) : Z :=
  match fuel with
  | O => 0
  | S fuel' => if x <? NBASE then 0 else weight_up fuel' (x / NBASE) + 1
  end.

(** For [0 < n < d], how many times [n] is to be multiplied by [NBASE] to
    reach [d]. *)
Fixpoint weight_down (fuel : nat) (n d : Z) : Z :=
  match fuel with
  | O => 0
  | S fuel' => if d <=? n then 0 else weight_down fuel' (n * NBASE) d + 1
  end.

(** The weight of the positive rational [n / d]: the power of [NBASE] of its
    first base-[NBASE] digit. *)
Definition nbase_weight (n d : Z) : Z :=
  if d <=? n then weight_up (Z.to_nat (Z.log2 (n / d))) (n / d)
  else - weight_down (S (Z.to_nat (Z.log2 d))) n d.

(** The first base-[NBASE] digit of [n / d], of weight [w]. *)
Definition first_digit (n d w : Z) : Z :=
  if 0 <=? w then n / (d * NBASE ^ w) else (n * NBASE ^ (- w)) / d.

(** Weight and first digit of a magnitude; both 0 for zero. *)
Definition weight_and_digit (n d : Z) : Z * Z :=
  if n =? 0 then (0, 0)
  else let w := nbase_weight n d in (w, first_digit n d w).

(** [select_div_scale(var1, var2)] for a dividend of display scale [dscale1]
    and an integer divisor, whose display scale is 0. *)
Definition select_div_scale (var1 : Q) (dscale1 : Z) (var2 : Z) : Z :=
  let r := Qred var1 in
  let '(weight1, firstdigit1) :=
    weight_and_digit (Z.abs (Qnum r)) (Zpos (Qden r)) in
  let '(weight2, firstdigit2) := weight_and_digit (Z.abs var2) 1 in
  let qweight := weight1 - weight2 in
  let qweight := if firstdigit1 <=? firstdigit2 then qweight - 1 else qweight in
  let rscale := NUMERIC_MIN_SIG_DIGITS - qweight * DEC_DIGITS in
  let rscale := Z.max rscale dscale1 in
  let rscale := Z.max rscale 0 in
  let rscale := Z.max rscale NUMERIC_MIN_DISPLAY_SCALE in
  Z.min rscale NUMERIC_MAX_DISPLAY_SCALE.

(** [round_var]: [q] with [rscale] decimals, half away from zero. *)
Definition round_var (q : Q) (rscale : Z) : Q :=
  let r := Qred q in
  let unit := 10 ^ rscale in
  let num := Z.abs (Qnum r) * unit in
  let den := Zpos (Qden r) in
  (Z.sgn (Qnum r) * ((2 * num + den) / (2 * den))) # Z.to_pos unit.

Definition numeric_div (var1 : Q) (dscale1 : Z) (var2 : Z) : Q :=
  round_var (var1 / inject_Z var2) (select_div_scale var1 dscale1 var2).

(** [AVG] and [SUM] skip NULL inputs and are NULL when nothing is left.
    [dscale] is the largest display scale among the inputs of [AVG]. *)
Definition SQL_AVG (dscale : Z) (l : list (option Q)) : option Q :=
  match non_null l with
  | [] => None
  | x :: xs =>
      Some (numeric_div (Qsum (x :: xs)) dscale
              (Z.of_nat (List.length (x :: xs))))
  end.

Definition SQL_SUM (l : list (option Q)) : option Q :=
  match non_null l with
  | [] => None
  | x :: xs => Some (Qsum (x :: xs))
  end.

(** The largest display scale among the values the [CASE] for the sign
    character [s] gives on the rows of a group; NULL has none. *)
Definition case_dscale (s : ascii) (g : list TxRow) : Z :=
  foldr Z.max 0
    (map (fun r => if LIKE_prefix (TRIM (transaction r)) s
                   then numeric_dscale (REPLACE (TRIM (transaction r)) s)
                   else 0) g).

Record QueryRow := {
  q_month : string;
  q_num_transactions : Z;
  q_avg_credit : option Q;
  q_avg_debit : option Q;
  q_balance : option Q
}.

(** The select list evaluated on one group; [None] when a cast fails, which
    aborts the whole statement. *)
Definition eval_group (g : MonthKey * list TxRow) : option QueryRow :=
  credits ← mapM (fun r => signed_case "+" (transaction r)) g.2;
  debits ← mapM (fun r => signed_case "-" (transaction r)) g.2;
  amounts ← mapM (fun r => signed_amount (transaction r)) g.2;
  Some {| q_month := month_name (snd g.1);
          q_num_transactions := Z.of_nat (List.length g.2);
          q_avg_credit := SQL_AVG (case_dscale "+" g.2) credits;
          q_avg_debit := SQL_AVG (case_dscale "-" g.2) debits;
          q_balance := SQL_SUM (Some <$> amounts) |}.

Definition summary_query (db : Table) (e : string) : option (list QueryRow) :=
  mapM eval_group (month_groups (account_rows db e)).

(** ** Errors and log lines

    One constructor per [fmt.Errorf] and per [log.Printf] of the program,
    carrying the arguments of the format string. *)

Inductive Error :=
  | ErrPrepare                            (* failed to prepare statement *)
  | ErrColumnCount (row expected got : Z) (* invalid column count in row %d: expected %d, got %d *)
  | ErrExternalID (row : Z)               (* invalid externalID in row %d *)
  | ErrInsert (row : Z)                   (* insert failed at row %d *)
  | ErrS3Object                           (* error getting S3 object *)
  | ErrHeaderRead                         (* error reading CSV header *)
  | ErrHeaderColumns (got : Z)            (* invalid CSV header column count: expected 4, got %d *)
  | ErrQuery                              (* query failed *)
  | ErrScan                               (* failed scanning row *)
  | ErrSerialize                          (* error serializing payload *)
  | ErrInvoke                             (* error invoking pongo_mail Lambda *)
  | ErrConnection                         (* sql.Open or db.Ping *)
  | ErrBegin                              (* db.Begin *)
  | ErrCommit.                            (* tx.Commit *)

(** The row number an error names, when it names one. *)
Definition error_row (e : Error) : option Z :=
  match e with
  | ErrColumnCount row _ _ | ErrExternalID row | ErrInsert row => Some row
  | _ => None
  end.

(** ** The aggregator: getTransactionSummaryByEmail *)

Record MonthlySummary := {
  Month : string;
  TransactionCount : Z;
  AverageCredit : float64;
  AverageDebit : float64
}.

Record AccountSummary := {
  Email : string;
  TotalBalance : float64;
  MonthlySummaries : list MonthlySummary
}.

Record NullFloat64 := { Float64 : float64; Valid : bool }.

(** [sql.NullFloat64.Scan]: NULL leaves the zero value with [Valid] false; a
    NUMERIC arrives as decimal text and goes through [ParseFloat]. *)
Definition scan_null_float (v : option Q) : option NullFloat64 :=
  match v with
  | None => Some {| Float64 := f64_zero; Valid := false |}
  | Some q =>
      match ParseFloat q with
      | Some f => Some {| Float64 := f; Valid := true |}
      | None => None
      end
  end.

(** One iteration of [for rows.Next()]: scan, fill [m], add to the running
    balance. *)
Definition scan_row (row : QueryRow) (totalBalance : float64)
  : Error + (MonthlySummary * float64) :=
  match scan_null_float (q_avg_credit row),
        scan_null_float (q_avg_debit row),
        scan_null_float (q_balance row) with
  | Some avgCredit, Some avgDebit, Some balance =>
      let m := {| Month := q_month row;
                  TransactionCount := q_num_transactions row;
                  AverageCredit :=
                    if Valid avgCredit then Float64 avgCredit else f64_zero;
                  AverageDebit :=
                    if Valid avgDebit then f64_neg (Float64 avgDebit) else f64_zero |} in
      inr (m, if Valid balance then f64_add totalBalance (Float64 balance)
              else totalBalance)
  | _, _, _ => inl ErrScan
  end.

Fixpoint scan_rows (rows : list QueryRow) (totalBalance : float64)
    (summaries : list MonthlySummary)
  : Error + (float64 * list MonthlySummary) :=
  match rows with
  | [] => inr (totalBalance, summaries)
  | row :: rest =>
      match scan_row row totalBalance with
      | inl err => inl err
      | inr (m, totalBalance') => scan_rows rest totalBalance' (summaries ++ [m])
      end
  end.

Definition getTransactionSummaryByEmail (db : Table) (e : string)
  : Error + AccountSummary :=
  match summary_query db e with
  | None => inl ErrQuery
  | Some rows =>
      match scan_rows rows f64_zero [] with
      | inl err => inl err
      | inr (totalBalance, summaries) =>
          inr {| Email := e; TotalBalance := totalBalance;
                 MonthlySummaries := summaries |}
      end
  end.

(** ** The world the handler runs in *)

(** Calls made on the database connection, in order. *)
Inductive DBOp :=
  | OpBegin
  | OpPrepare
  | OpExec (externalID : Z) (date transaction email : string)
  | OpCommit
  | OpRollback.

Inductive LogEntry :=
  | LogStarted                              (* Lambda started processing S3 event *)
  | LogConnectionError (err : Error)        (* Error getting DB connection *)
  | LogProcessingFile (bucket key : string) (* Starting to process file *)
  | LogReadWarning (line : Z)               (* Warning: error reading CSV line %d *)
  | LogColumnWarning (line got : Z)         (* Warning: invalid column count in line %d *)
  | LogProcessingComplete (valid : Z)       (* CSV file processing complete *)
  | LogCSVError (err : Error)               (* Error processing CSV file *)
  | LogBeginFailed (err : Error)            (* Failed to begin DB transaction *)
  | LogRollback (err : Error)               (* Transaction rollback due to error *)
  | LogCommitFailed (err : Error)           (* Failed to commit DB transaction *)
  | LogInserted (n : Z) (bucket key : string) (* Successfully inserted %d rows *)
  | LogSummaryError (email : string) (err : Error) (* Error generating summary for %s *)
  | LogInvoked                              (* Lambda pongo_mail invoked *)
  | LogInvokeError (err : Error)            (* Error invoking notification Lambda *)
  | LogFinished.                            (* Lambda finished processing S3 event successfully *)

(** [table] holds the committed rows, [pending] the rows inserted by the open
    transaction, [invoked] the payloads handed to the notification Lambda. *)
Record World := {
  table : Table;
  pending : list TxRow;
  trace : list DBOp;
  logs : list LogEntry;
  invoked : list (list AccountSummary)
}.

(** What one [reader.Read()] returns: the record and the error. A record
    whose field count differs from the header's comes with [ErrFieldCount],
    text that cannot be split into fields with a parse error. [io.EOF] is the
    end of the list: a [CSVStream] is the results of the successive calls up
    to it. The reader passes over empty lines and lets a quoted field run
    over several lines, so a result need not be one line of the file. *)
Inductive ReadError := ErrFieldCount | ErrParse.

Definition ReadResult := (list string * option ReadError)%type.
Definition CSVStream := list ReadResult.

Record S3Record := { Bucket : string; Key : string }.

(** The collaborators.
    - [GetObject]: the object behind a bucket and key, already run through
      the csv reader; [None] when the object cannot be fetched.
    - [date_in]: the text-to-DATE conversion of the [date] column.
    - [accepts]: the constraints the table puts on a new row, given the rows
      the transaction sees.
    - [connection_ok], [begin_ok], [prepare_ok], [commit_ok], [invoke_ok]:
      whether the call goes through.
    - [map_range]: the order in which [for email := range emailSet] visits
      the set. *)
Record Env := {
  GetObject : string -> string -> option CSVStream;
  date_in : string -> option Date;
  accepts : Table -> TxRow -> bool;
  connection_ok : bool;
  begin_ok : World -> bool;
  prepare_ok : World -> bool;
  commit_ok : World -> bool;
  invoke_ok : World -> bool;
  map_range : gset string -> list string
}.

(** ** State and error monad *)

Definition M (A : Type) : Type := World -> (Error + A) * World.

#[global] Instance M_ret : MRet M := fun A a w => (inr a, w).

#[global] Instance M_bind : MBind M := fun A B f m w =>
  match m w with
  | (inr a, w') => f a w'
  | (inl err, w') => (inl err, w')
  end.

Definition throw {A} (err : Error) : M A := fun w => (inl err, w).

(** Runs [m] and hands its outcome to the caller instead of propagating the
    error: [x, err := f(); if err != nil { ... }]. *)
Definition try {A} (m : M A) : M (Error + A) := fun w =>
  let '(r, w') := m w in (inr r, w').

Definition log (e : LogEntry) : M unit := fun w =>
  (inr tt, {| table := table w; pending := pending w; trace := trace w;
              logs := logs w ++ [e]; invoked := invoked w |}).

Definition record_op (op : DBOp) (w : World) : World :=
  {| table := table w; pending := pending w; trace := trace w ++ [op];
     logs := logs w; invoked := invoked w |}.

Definition set_pending (p : list TxRow) (w : World) : World :=
  {| table := table w; pending := p; trace := trace w;
     logs := logs w; invoked := invoked w |}.

Definition set_table (t : Table) (w : World) : World :=
  {| table := t; pending := pending w; trace := trace w;
     logs := logs w; invoked := invoked w |}.

(** ** Database driver *)

Definition db_Begin (env : Env) : M unit := fun w =>
  if begin_ok env w then (inr tt, set_pending [] (record_op OpBegin w))
  else (inl ErrBegin, w).

Definition tx_Prepare (env : Env) : M unit := fun w =>
  if prepare_ok env w then (inr tt, record_op OpPrepare w)
  else (inl ErrPrepare, record_op OpPrepare w).

(** [stmt.Exec(externalID, date, transaction, email)]: the row joins the
    transaction when the date text converts and the table accepts it. *)
Definition stmt_Exec (env : Env) (row : Z) (externalID : Z)
    (d t e : string) : M unit := fun w =>
  let w' := record_op (OpExec externalID d t e) w in
  match date_in env d with
  | Some d' =>
      let r := {| external_id := externalID; date := d';
                  transaction := t; email := e |} in
      if accepts env (table w ++ pending w) r
      then (inr tt, set_pending (pending w ++ [r]) w')
      else (inl (ErrInsert row), w')
  | None => (inl (ErrInsert row), w')
  end.

Definition tx_Rollback : M unit := fun w =>
  (inr tt, set_pending [] (record_op OpRollback w)).

Definition tx_Commit (env : Env) : M unit := fun w =>
  let w' := record_op OpCommit w in
  if commit_ok env w
  then (inr tt, set_pending [] (set_table (table w ++ pending w) w'))
  else (inl ErrCommit, set_pending [] w').

Definition len {A} (l : list A) : Z := Z.of_nat (List.length l).

(** ** The validator: processCSVFile *)

(** The [for] loop over the records after the header. [lineNum] is
    incremented before each read; the end of the stream is [io.EOF]. *)
Fixpoint read_rows (stream : CSVStream) (lineNum : Z) (rows : list (list string))
  : M (list (list string)) :=
  match stream with
  | [] => mret rows
  | (record, err) :: rest =>
      let lineNum := lineNum + 1 in
      match err with
      | Some _ => _ ← log (LogReadWarning lineNum); read_rows rest lineNum rows
      | None =>
          if len record =? 4
          then read_rows rest lineNum (rows ++ [record])
          else _ ← log (LogColumnWarning lineNum (len record));
               read_rows rest lineNum rows
      end
  end.

Definition processCSVFile (env : Env) (bucket key : string)
  : M (list (list string)) :=
  _ ← log (LogProcessingFile bucket key);
  match GetObject env bucket key with
  | None => throw ErrS3Object
  | Some [] => throw ErrHeaderRead
  | Some ((_, Some _) :: _) => throw ErrHeaderRead
  | Some ((header, None) :: rest) =>
      if len header =? 4 then
        rows ← read_rows rest 1 [];
        _ ← log (LogProcessingComplete (len rows));
        mret rows
      else throw (ErrHeaderColumns (len header))
  end.

(** ** The persister: insertTransactions *)

(** The [for i, row := range transactions] loop; [i] counts from 0. A row
    that is not four fields long is refused before its fields are read. *)
Fixpoint insert_rows (env : Env) (transactions : list (list string)) (i : Z)
    (emailSet : gset string) : M (gset string) :=
  match transactions with
  | [] => mret emailSet
  | row :: rest =>
      match row with
      | [id; d; t; e] =>
          match Atoi id with
          | None => throw (ErrExternalID (i + 1))
          | Some externalID =>
              _ ← stmt_Exec env (i + 1) externalID d t e;
              insert_rows env rest (i + 1) ({[ e ]} ∪ emailSet)
          end
      | _ => throw (ErrColumnCount (i + 1) 4 (len row))
      end
  end.

Definition insertTransactions (env : Env) (transactions : list (list string))
  : M (gset string) :=
  _ ← tx_Prepare env;
  insert_rows env transactions 0 ∅.

(** ** The orchestrator: handler *)

(** [json.Marshal] refuses infinities and NaN. *)
Definition marshals (s : AccountSummary) : bool :=
  is_finite (TotalBalance s)
  && forallb (fun m => is_finite (AverageCredit m) && is_finite (AverageDebit m))
       (MonthlySummaries s).

Definition invokeNotificationLambda (env : Env) (summaries : list AccountSummary)
  : M unit :=
  if forallb marshals summaries then
    fun w =>
      if invoke_ok env w
      then log LogInvoked
             {| table := table w; pending := pending w; trace := trace w;
                logs := logs w; invoked := invoked w ++ [summaries] |}
      else (inl ErrInvoke, w)
  else throw ErrSerialize.

(** [for email := range emailSet]: a failed summary is logged and skipped. *)
Fixpoint collect_summaries (emails : list string) (summaries : list AccountSummary)
  : M (list AccountSummary) :=
  match emails with
  | [] => mret summaries
  | e :: rest =>
      fun w =>
        match getTransactionSummaryByEmail (table w) e with
        | inl err =>
            (_ ← log (LogSummaryError e err); collect_summaries rest summaries) w
        | inr summary => collect_summaries rest (summaries ++ [summary]) w
        end
  end.

(** Lines 270 to 288 of [handler]: the transaction around
    [insertTransactions]. *)
Definition persist (env : Env) (rows : list (list string)) : M (gset string) :=
  r ← try (insertTransactions env rows);
  match r with
  | inl err =>
      _ ← tx_Rollback;
      _ ← log (LogRollback err);
      throw err
  | inr emailSet =>
      c ← try (tx_Commit env);
      match c with
      | inl err => _ ← log (LogCommitFailed err); throw err
      | inr _ => mret emailSet
      end
  end.

(** The body of [for _, record := range s3Event.Records]. *)
Definition process_record (env : Env) (record : S3Record)
    (summaries : list AccountSummary) : M (list AccountSummary) :=
  r ← try (processCSVFile env (Bucket record) (Key record));
  match r with
  | inl err => _ ← log (LogCSVError err); throw err
  | inr rows =>
      b ← try (db_Begin env);
      match b with
      | inl err => _ ← log (LogBeginFailed err); throw err
      | inr _ =>
          emailSet ← persist env rows;
          _ ← log (LogInserted (len rows) (Bucket record) (Key record));
          collect_summaries (map_range env emailSet) summaries
      end
  end.

Fixpoint process_records (env : Env) (records : list S3Record)
    (summaries : list AccountSummary) : M (list AccountSummary) :=
  match records with
  | [] => mret summaries
  | record :: rest =>
      summaries' ← process_record env record summaries;
      process_records env rest summaries'
  end.

Definition handler (env : Env) (s3Event : list S3Record) : M unit :=
  _ ← log LogStarted;
  if connection_ok env then
    summaries ← process_records env s3Event [];
    r ← try (invokeNotificationLambda env summaries);
    match r with
    | inl err => _ ← log (LogInvokeError err); throw err
    | inr _ => log LogFinished
    end
  else
    _ ← log (LogConnectionError ErrConnection);
    throw ErrConnection.

(** A world with an empty store, before anything has run. *)
Definition initial_world : World :=
  {| table := []; pending := []; trace := []; logs := []; invoked := [] |}.

(** ** Vocabulary of the statements *)

(** What the scan loop makes of one row of the result set. *)
Definition row_summary (row : QueryRow) : MonthlySummary :=
  {| Month := q_month row;
     TransactionCount := q_num_transactions row;
     AverageCredit :=
       match q_avg_credit row with Some q => float64_of_Q q | None => f64_zero end;
     AverageDebit :=
       match q_avg_debit row with
       | Some q => f64_neg (float64_of_Q q)
       | None => f64_zero
       end |}.

Definition add_balance (totalBalance : float64) (row : QueryRow) : float64 :=
  match q_balance row with
  | Some q => f64_add totalBalance (float64_of_Q q)
  | None => totalBalance
  end.

Definition tx (i : Z) (y : Z) (m : CalendarMonth) (d : Z) (t e : string) : TxRow :=
  {| external_id := i; date := {| year := y; month := m; day := d |};
     transaction := t; email := e |}.

(** Chronological order of months: by year, then by month of the year. *)
Definition month_before (a b : MonthKey) : Prop :=
  a.1 < b.1 \/ (a.1 = b.1 /\ month_number a.2 < month_number b.2).

(** Credits and debits as the query tells them apart: by the first character
    of the trimmed amount text. *)
Definition is_credit (r : TxRow) : bool := LIKE_prefix (TRIM (transaction r)) "+".
Definition is_debit (r : TxRow) : bool := LIKE_prefix (TRIM (transaction r)) "-".

(** The signed amount of a record, [CAST(TRIM(transaction) AS NUMERIC)]. *)
Definition amount (r : TxRow) : Q := default 0%Q (signed_amount (transaction r)).

Definition mean (l : list Q) : Q := (Qsum l / inject_Z (len l))%Q.

Fixpoint occurs (c : ascii) (s : string) : bool :=
  match s with
  | String d s' => Ascii.eqb d c || occurs c s'
  | EmptyString => false
  end.

(** The character that opens the trimmed amount text appears nowhere else in
    it: "+12.50" and "-1e+2" qualify, "-1e-2" does not. *)
Definition single_sign (r : TxRow) : bool :=
  match TRIM (transaction r) with
  | String c body => negb (occurs c body)
  | EmptyString => true
  end.

(** The rational a finite binary64 stands for. *)
Definition Q_of_float64 (f : float64) : Q :=
  match f with
  | S754_finite s m e =>
      (inject_Z (if s then Zneg m else Zpos m) *
       (if 0 <=? e then inject_Z (2 ^ e) else 1 # Z.to_pos (2 ^ (- e))))%Q
  | _ => 0%Q
  end.

(** The balance subtotal of a month: [SUM(CAST(TRIM(transaction) AS NUMERIC))]
    over the group. *)
Definition month_balance (g : MonthKey * list TxRow) : Q := Qsum (map amount g.2).

(** Three deposits of 0.10, 0.20 and 0.30 in three successive months. *)
Definition drift_db : Table :=
  [tx 1 2024 January 10 "+0.10" "ana@example.com";
   tx 2 2024 February 10 "+0.20" "ana@example.com";
   tx 3 2024 March 10 "+0.30" "ana@example.com"].

(** ** Vocabulary of the averages *)

(** The display scale of the amount of a record. *)
Definition amount_dscale (r : TxRow) : Z := numeric_dscale (TRIM (transaction r)).

(** The largest display scale among the amounts of some records. *)
Definition max_dscale (rs : list TxRow) : Z := foldr Z.max 0 (map amount_dscale rs).

(** What [AVG] makes of the values [l], of display scale at most [dscale]:
    their mean with [avg_scale] decimals. *)
Definition avg_scale (dscale : Z) (l : list Q) : Z :=
  select_div_scale (Qsum l) dscale (len l).

Definition numeric_avg (dscale : Z) (l : list Q) : Q :=
  numeric_div (Qsum l) dscale (len l).

(** The magnitude of the amount of a debit. *)
Definition magnitude (r : TxRow) : Q := (- amount r)%Q.

(** ** Vocabulary of the persister statements *)

(** What the loop of [insertTransactions] makes of the row numbered [k]
    when the transaction sees the rows [visible]: the record it inserts, or
    the error it returns. *)
Definition check_row (env : Env) (visible : Table) (k : Z) (row : list string)
  : Error + TxRow :=
  match row with
  | [id; d; t; e] =>
      match Atoi id with
      | None => inl (ErrExternalID k)
      | Some externalID =>
          match date_in env d with
          | Some d' =>
              let r := {| external_id := externalID; date := d';
                          transaction := t; email := e |} in
              if accepts env visible r then inr r else inl (ErrInsert k)
          | None => inl (ErrInsert k)
          end
      end
  | _ => inl (ErrColumnCount k 4 (len row))
  end.

(** The record a four-field row stands for: the id through [Atoi], the date
    through the database, the other two fields as they are. *)
Definition to_record (env : Env) (row : list string) : option TxRow :=
  match row with
  | [id; d; t; e] =>
      match Atoi id, date_in env d with
      | Some externalID, Some d' =>
          Some {| external_id := externalID; date := d';
                  transaction := t; email := e |}
      | _, _ => None
      end
  | _ => None
  end.

(** [rows] become the records [rs], each accepted by the table on top of the
    ones before it. *)
Fixpoint converts (env : Env) (visible : Table) (rows : list (list string))
    (rs : list TxRow) : Prop :=
  match rows, rs with
  | [], [] => True
  | row :: rows', r :: rs' =>
      to_record env row = Some r /\ accepts env visible r = true /\
      converts env (visible ++ [r]) rows' rs'
  | _, _ => False
  end.

(** The [stmt.Exec] call a row leads to, if it gets that far. *)
Definition exec_op (row : list string) : option DBOp :=
  match row with
  | [id; d; t; e] =>
      match Atoi id with
      | Some externalID => Some (OpExec externalID d t e)
      | None => None
      end
  | _ => None
  end.

Definition id_parses (row : list string) : bool :=
  match row with
  | id :: _ => bool_decide (is_Some (Atoi id))
  | [] => false
  end.

Definition four_fields (row : list string) : bool := len row =? 4.

(** ** Vocabulary of the validator statements *)

(** A read result the loop keeps: no error and four fields. *)
Definition valid_result (r : ReadResult) : bool :=
  match r.2 with
  | None => len r.1 =? 4
  | Some _ => false
  end.

(** The in-order subsequence of the four-field records of a stream. *)
Definition valid_rows (stream : CSVStream) : list (list string) :=
  r ← stream; if valid_result r then [r.1] else [].

(** The warning a dropped read result is logged with; [lineNum] is the value
    of the counter of the loop at that read. *)
Definition warning_of (lineNum : Z) (r : ReadResult) : option LogEntry :=
  match r.2 with
  | Some _ => Some (LogReadWarning lineNum)
  | None =>
      if len r.1 =? 4 then None else Some (LogColumnWarning lineNum (len r.1))
  end.

(** The warnings of the read results of a stream, the counter being [first]
    at the first of them. *)
Fixpoint warnings (first : Z) (stream : CSVStream) : list LogEntry :=
  match stream with
  | [] => []
  | r :: rest => option_list (warning_of first r) ++ warnings (first + 1) rest
  end.

(** The header of a stream cannot be used: the first read fails (an empty
    object gives [io.EOF]) or it has another number of columns than 4. *)
Definition bad_header (stream : CSVStream) : Prop :=
  match stream with
  | [] => True
  | (_, Some _) :: _ => True
  | (header, None) :: _ => len header <> 4
  end.

(** The two errors [processCSVFile] returns for the header. *)
Definition SchemaError (err : Error) : Prop :=
  err = ErrHeaderRead \/ exists got, got <> 4 /\ err = ErrHeaderColumns got.

(** The outcome of one account in the loop over the email set. *)
Definition summary_of (db : Table) (e : string) : option AccountSummary :=
  match getTransactionSummaryByEmail db e with
  | inr summary => Some summary
  | inl _ => None
  end.

(** ** An example deployment *)

Definition month_of_number (n : Z) : option CalendarMonth :=
  match n with
  | 1 => Some January | 2 => Some February | 3 => Some March
  | 4 => Some April | 5 => Some May | 6 => Some June
  | 7 => Some July | 8 => Some August | 9 => Some September
  | 10 => Some October | 11 => Some November | 12 => Some December
  | _ => None
  end.

Definition leap_year (y : Z) : bool :=
  (y mod 4 =? 0) && (negb (y mod 100 =? 0) || (y mod 400 =? 0)).

Definition days_in_month (y : Z) (m : CalendarMonth) : Z :=
  match m with
  | February => if leap_year y then 29 else 28
  | April | June | September | November => 30
  | _ => 31
  end.

Definition digits_value (cs : list ascii) : option Z :=
  foldl (fun acc c => a ← acc; d ← digit_of c; Some (10 * a + d)) (Some 0) cs.

(** A DATE column fed with ISO 8601 text, [YYYY-MM-DD]: the text converts
    when it names a day of the calendar. *)
Definition iso_date_in (s : string) : option Date :=
  match list_ascii_of_string s with
  | [y1; y2; y3; y4; "-"%char; m1; m2; "-"%char; d1; d2] =>
      y ← digits_value [y1; y2; y3; y4];
      mn ← digits_value [m1; m2];
      d ← digits_value [d1; d2];
      m ← month_of_number mn;
      if (1 <=? d) && (d <=? days_in_month y m)
      then Some {| year := y; month := m; day := d |}
      else None
  | _ => None
  end.

(** Every call goes through, the table has no constraint beside the column
    types, and the object store is [objects]. *)
Definition example_env (objects : string -> string -> option CSVStream) : Env :=
  {| GetObject := objects;
     date_in := iso_date_in;
     accepts := fun _ _ => true;
     connection_ok := true;
     begin_ok := fun _ => true;
     prepare_ok := fun _ => true;
     commit_ok := fun _ => true;
     invoke_ok := fun _ => true;
     map_range := elements |}.

Definition no_objects : string -> string -> option CSVStream := fun _ _ => None.

(** A bucket that holds one object. *)
Definition one_object (bucket key : string) (stream : CSVStream)
  : string -> string -> option CSVStream :=
  fun b k => if String.eqb b bucket && String.eqb k key then Some stream else None.

Definition example_record : S3Record :=
  {| Bucket := "uploads"; Key := "txns.csv" |}.

Definition csv_header : ReadResult := (["id"; "date"; "transaction"; "email"], None).

(** A file with two good lines, a short line and a line the reader could not
    split. *)
Definition example_csv : CSVStream :=
  [csv_header;
   (["1"; "2024-01-15"; "+30.00"; "ana@example.com"], None);
   (["2"; "2024-01-20"], Some ErrFieldCount);
   ([], Some ErrParse);
   (["3"; "2024-02-03"; "-15.00"; "luis@example.com"], None)].

(** A header of three columns. *)
Definition short_header_csv : CSVStream :=
  [(["id"; "date"; "transaction"], None);
   (["1"; "2024-01-15"; "+30.00"], None)].

(** Every id is an integer, the date of the second row is not a date. *)
Definition bad_date_batch : list (list string) :=
  [["1"; "2024-01-15"; "+30.00"; "ana@example.com"];
   ["2"; "not-a-date"; "-15.00"; "ana@example.com"]].

Definition bad_id_batch : list (list string) :=
  [["1"; "2024-01-15"; "+30.00"; "ana@example.com"];
   ["x2"; "2024-01-20"; "-15.00"; "ana@example.com"];
   ["3"; "2024-02-03"; "+20.00"; "luis@example.com"]].

Definition good_batch : list (list string) :=
  [["1"; "2024-01-15"; "+30.00"; "ana@example.com"];
   ["2"; "2024-01-20"; "-15.00"; "ana@example.com"];
   ["3"; "2024-02-03"; "+20.00"; "luis@example.com"]].

Definition short_row_batch : list (list string) :=
  [["1"; "2024-01-15"; "+30.00"; "ana@example.com"];
   ["2"; "2024-01-20"; "-15.00"];
   ["3"; "2024-02-03"; "+20.00"; "luis@example.com"]].

(** A row with an id that is no integer, then a row of three fields. *)
Definition late_short_row_batch : list (list string) :=
  [["x1"; "2024-01-15"; "+30.00"; "ana@example.com"];
   ["2"; "2024-01-20"; "-15.00"]].

(** The example deployment with a database that refuses to prepare the
    statement. *)
Definition unprepared_env : Env :=
  {| GetObject := no_objects;
     date_in := iso_date_in;
     accepts := fun _ _ => true;
     connection_ok := true;
     begin_ok := fun _ => true;
     prepare_ok := fun _ => false;
     commit_ok := fun _ => true;
     invoke_ok := fun _ => true;
     map_range := elements |}.

(** The log line of an account whose summary fails. *)
Definition summary_failure (db : Table) (e : string) : option LogEntry :=
  match getTransactionSummaryByEmail db e with
  | inr _ => None
  | inl err => Some (LogSummaryError e err)
  end.

(** [w] with the lines [l] added to its log. *)
Definition logged (l : list LogEntry) (w : World) : World :=
  {| table := table w; pending := pending w; trace := trace w;
     logs := logs w ++ l; invoked := invoked w |}.

(** Ana has a good row, Luis a row whose amount is no number. *)
Definition mixed_db : Table :=
  [tx 1 2024 January 15 "+30.00" "ana@example.com";
   tx 2 2024 January 20 "abc" "luis@example.com"].

(** ** Vocabulary of the orchestrator statements *)

(** Where the connection stands between two calls: no transaction, a
    transaction just begun, a transaction with its statement prepared. *)
Inductive TxState := Idle | Begun | Prepared.

Definition tx_step (s : TxState) (op : DBOp) : option TxState :=
  match s, op with
  | Idle, OpBegin => Some Begun
  | Begun, OpPrepare => Some Prepared
  | Prepared, OpExec _ _ _ _ => Some Prepared
  | Prepared, OpCommit | Prepared, OpRollback => Some Idle
  | _, _ => None
  end.

(** The state a sequence of calls leads to; [None] when a call comes out of
    turn. *)
Fixpoint tx_run (s : TxState) (ops : list DBOp) : option TxState :=
  match ops with
  | [] => Some s
  | op :: rest =>
      match tx_step s op with
      | Some s' => tx_run s' rest
      | None => None
      end
  end.

Definition missing_record : S3Record :=
  {| Bucket := "uploads"; Key := "missing.csv" |}.

(** A file that holds a header and nothing else. *)
Definition header_only_csv : CSVStream := [csv_header].

(** ** Vocabulary of the aggregator statements *)

(** Every amount text of [rows] is a decimal literal, with the value
    [numeric_in] gives it. *)
Definition decimal_amounts (rows : list TxRow) : Prop :=
  Forall (fun r => is_Some (signed_amount (transaction r))) rows.

Definition Zsum (l : list Z) : Z := foldr Z.add 0 l.

(** A binary64 above zero. *)
Definition is_positive (f : float64) : bool :=
  match f with
  | S754_finite false _ _ | S754_infinity false => true
  | _ => false
  end.

(** A binary64 below zero. *)
Definition is_negative (f : float64) : bool :=
  match f with
  | S754_finite true _ _ | S754_infinity true => true
  | _ => false
  end.

(** ** The connection singleton: getDBConnection

    [db] and [dbOnce] are the two package variables; the pool is known by
    its connection string. [sql_Open] and [db_Ping] tell whether the call
    goes through. *)

Record Globals := { db : option string; dbOnce : bool }.

Record Driver := {
  Getenv : string -> string;
  sql_Open : string -> bool;
  db_Ping : string -> bool
}.

Definition connStr (d : Driver) : string :=
  "host=" +:+ Getenv d "DB_HOST" +:+ " port=" +:+ Getenv d "DB_PORT"
  +:+ " user=" +:+ Getenv d "DB_USER" +:+ " password=" +:+ Getenv d "DB_PASSWORD"
  +:+ " dbname=" +:+ Getenv d "DB_NAME" +:+ " sslmode=require".

(** [err] is a variable of the call: it is set by the function given to
    [dbOnce.Do], which runs on the first call only. *)
Definition getDBConnection (d : Driver) (g : Globals)
  : (option string * option Error) * Globals :=
  if dbOnce g then ((db g, None), g)
  else if sql_Open d (connStr d) then
    ((Some (connStr d), if db_Ping d (connStr d) then None else Some ErrConnection),
     {| db := Some (connStr d); dbOnce := true |})
  else ((None, Some ErrConnection), {| db := None; dbOnce := true |}).

Definition cold_start : Globals := {| db := None; dbOnce := false |}.

(** * The notification Lambda (emailer)

    Its [MonthlySummary] and [AccountSummary] are the structs of the
    summarizer, field for field and tag for tag. *)

Module Emailer.

Definition round_half_even (num den : Z) : Z :=
  let q := num / den in
  let r := num mod den in
  if 2 * r <? den then q
  else if den <? 2 * r then q + 1
  else if Z.even q then q else q + 1.

(** The magnitude [m * 2 ^ e] in hundredths, rounded to the nearest integer,
    ties to even. *)
Definition hundredths (m : positive) (e : Z) : Z :=
  if 0 <=? e then Zpos m * 2 ^ e * 100
  else round_half_even (Zpos m * 100) (2 ^ (- e)).

Definition two_digits (n : Z) : string :=
  if n <? 10 then "0" +:+ pretty n else pretty n.

(** [fmt.Sprintf("%.2f", f)]. *)
Definition formatFloat (f : float64) : string :=
  match f with
  | S754_nan => "NaN"
  | S754_infinity false => "+Inf"
  | S754_infinity true => "-Inf"
  | S754_zero s => (if s then "-" else "") +:+ "0.00"
  | S754_finite s m e =>
      let n := hundredths m e in
      (if s then "-" else "") +:+ pretty (n / 100) +:+ "." +:+ two_digits (n mod 100)
  end.

(** [strconv.Itoa]. *)
Definition itoa (i : Z) : string := pretty i.

(** The double quote character. *)
Definition dq : string := String (ascii_of_nat 34) EmptyString.

Definition monthly_item (m : MonthlySummary) : string :=
  "<li><strong>" +:+ Month m +:+ "</strong>: "
  +:+ itoa (TransactionCount m) +:+ " transactions, "
  +:+ "Average credit amount: " +:+ formatFloat (AverageCredit m) +:+ ", "
  +:+ "Average debit amount: " +:+ formatFloat (AverageDebit m) +:+ "</li>".

Definition buildHTMLBody (summary : AccountSummary) : string :=
  let body := "<html><body>" in
  let body := body +:+ "<img src=" +:+ dq
    +:+ "https://www.storicard.com/_next/static/media/storis_savvi_color.7e286ddd.svg"
    +:+ dq +:+ " alt=" +:+ dq +:+ "Stori Logo" +:+ dq +:+ " style=" +:+ dq
    +:+ "width:150px;margin-bottom:20px;" +:+ dq +:+ " />" in
  let body := body +:+ "<h1>Transaction Summary</h1>" in
  let body := body +:+ "<p><strong>Total Balance:</strong> "
    +:+ formatFloat (TotalBalance summary) +:+ "</p>" in
  let body := body +:+ "<h2>Monthly Breakdown:</h2><ul>" in
  let body := foldl (fun body m => body +:+ monthly_item m) body
                (MonthlySummaries summary) in
  let body := body +:+ "</ul>" in
  body +:+ "</body></html>".

Record SendEmailInput := {
  Source : string;
  ToAddresses : list string;
  Subject : string;
  Html : string
}.

Inductive LogLine :=
  | LogNoSummaries                 (* No summaries received to send. *)
  | LogSendFailed (to : string)    (* Failed to send email to %s *)
  | LogSent (to : string).         (* Email successfully sent to %s *)

(** [calls] are the [SendEmail] requests made, [delivered] those SES took. *)
Record Mailer := {
  calls : list SendEmailInput;
  delivered : list SendEmailInput;
  log : list LogLine
}.

(** Whether SES takes a request, given the requests made before. *)
Definition SES := list SendEmailInput -> SendEmailInput -> bool.

Definition from : string := "devsysluis@gmail.com".
Definition subject : string := "Your Monthly Transaction Summary".

Definition input_of (summary : AccountSummary) : SendEmailInput :=
  {| Source := from; ToAddresses := [Email summary]; Subject := subject;
     Html := buildHTMLBody summary |}.

(** The [for _, summary := range event.Summaries] loop. *)
Fixpoint send_all (ses : SES) (summaries : list AccountSummary) (st : Mailer)
  : Mailer :=
  match summaries with
  | [] => st
  | summary :: rest =>
      let input := input_of summary in
      if ses (calls st) input
      then send_all ses rest
             {| calls := calls st ++ [input];
                delivered := delivered st ++ [input];
                log := log st ++ [LogSent (Email summary)] |}
      else send_all ses rest
             {| calls := calls st ++ [input];
                delivered := delivered st;
                log := log st ++ [LogSendFailed (Email summary)] |}
  end.

Definition handler (ses : SES) (event : list AccountSummary) (st : Mailer)
  : (string * option Error) * Mailer :=
  if len event =? 0 then
    (("No summaries to send", None),
     {| calls := calls st; delivered := delivered st;
        log := log st ++ [LogNoSummaries] |})
  else (("Emails sent", None), send_all ses event st).

Definition idle : Mailer := {| calls := []; delivered := []; log := [] |}.

End Emailer.

(** * The upload Lambda (uploader) *)

Module Uploader.

Record Request := {
  Method : string;
  IsBase64Encoded : bool;
  Body : string
}.

Record Response := { StatusCode : Z; ResponseBody : string }.

(** [bucket] is the package variable; [DecodeString] is
    [base64.StdEncoding.DecodeString]; [PutObject] gives the error of the
    call, if any, given the objects the bucket holds. *)
Record Env := {
  bucket : string;
  DecodeString : string -> option string;
  PutObject : gmap string string -> string -> string -> option string
}.

Inductive LogLine := LogUploaded (filename bucket : string).

(** The objects of the bucket, by key. *)
Record Store := { objects : gmap string string; log : list LogLine }.

Definition decodeRequestBody (env : Env) (req : Request) : option string :=
  if IsBase64Encoded req then DecodeString env (Body req) else Some (Body req).

(** [now] is [time.Now().Unix()]. *)
Definition generateFilename (now : Z) : string :=
  "upload-" +:+ pretty now +:+ ".csv".

(** [PutObject] on a key the bucket already holds replaces the object. *)
Definition uploadToS3 (env : Env) (key body : string) (st : Store)
  : option string * Store :=
  match PutObject env (objects st) key body with
  | Some err => (Some err, st)
  | None => (None, {| objects := <[key := body]> (objects st); log := log st |})
  end.

Definition methodNotAllowedResponse : Response :=
  {| StatusCode := 405; ResponseBody := "Only POST method is allowed" |}.

Definition badRequestResponse (msg : string) : Response :=
  {| StatusCode := 400; ResponseBody := msg |}.

Definition internalServerErrorResponse (msg : string) : Response :=
  {| StatusCode := 500; ResponseBody := msg |}.

Definition successResponse (msg : string) : Response :=
  {| StatusCode := 200; ResponseBody := msg |}.

Definition handler (env : Env) (now : Z) (req : Request) (st : Store)
  : (Response * option Error) * Store :=
  if negb (String.eqb (Method req) "POST") then
    ((methodNotAllowedResponse, None), st)
  else
    match decodeRequestBody env req with
    | None => ((badRequestResponse "Failed to decode request body", None), st)
    | Some body =>
        let filename := generateFilename now in
        match uploadToS3 env filename body st with
        | (Some err, st') =>
            ((internalServerErrorResponse ("Failed to upload to S3: " +:+ err), None),
             st')
        | (None, st') =>
            ((successResponse ("File successfully uploaded as " +:+ filename), None),
             {| objects := objects st';
                log := log st' ++ [LogUploaded filename (bucket env)] |})
        end
    end.

(** A request with a plain body. *)
Definition post (body : string) : Request :=
  {| Method := "POST"; IsBase64Encoded := false; Body := body |}.

(** A bucket that takes every object. *)
Definition open_bucket : Env :=
  {| bucket := "uploads"; DecodeString := fun _ => None;
     PutObject := fun _ _ _ => None |}.

Definition empty_store : Store := {| objects := ∅; log := [] |}.

End Uploader.

(** The sign bit of a binary64; a NaN prints without sign. *)
Definition sign_bit (f : float64) : bool :=
  match f with
  | S754_zero s | S754_infinity s | S754_finite s _ _ => s
  | S754_nan => false
  end.

(** A second file, with one more row of Ana. *)
Definition second_csv : CSVStream :=
  [csv_header;
   (["4"; "2024-02-10"; "+12.50"; "ana@example.com"], None)].

Definition second_record : S3Record :=
  {| Bucket := "uploads"; Key := "more.csv" |}.

Definition two_objects : string -> string -> option CSVStream :=
  fun b k =>
    if String.eqb b "uploads" && String.eqb k "txns.csv" then Some example_csv
    else if String.eqb b "uploads" && String.eqb k "more.csv" then Some second_csv
    else None.

(** * Properties *)

(** ** The scan loop *)

Lemma scan_null_float_Some v n :
  scan_null_float v = Some n ->
  (if Valid n then Some (Float64 n) else None) = float64_of_Q <$> v.
Proof.
  destruct v as [q|]; simpl.
  - unfold ParseFloat. destruct (is_finite (float64_of_Q q)); [|discriminate].
    intros [= <-]. reflexivity.
  - intros [= <-]. reflexivity.
Qed.

Lemma scan_row_inr row tb m tb' :
  scan_row row tb = inr (m, tb') ->
  m = row_summary row /\ tb' = add_balance tb row.
Proof.
  unfold scan_row, row_summary, add_balance.
  destruct (scan_null_float (q_avg_credit row)) as [c|] eqn:Hc; [|discriminate].
  destruct (scan_null_float (q_avg_debit row)) as [d|] eqn:Hd; [|discriminate].
  destruct (scan_null_float (q_balance row)) as [b|] eqn:Hb; [|discriminate].
  apply scan_null_float_Some in Hc, Hd, Hb.
  intros [= <- <-].
  destruct (q_avg_credit row), (q_avg_debit row), (q_balance row);
    destruct (Valid c), (Valid d), (Valid b); simpl in *;
    try discriminate; repeat match goal with H : Some _ = Some _ |- _ =>
      injection H as -> end; split; reflexivity.
Qed.

Lemma scan_rows_inr rows : forall tb acc tb' out,
  scan_rows rows tb acc = inr (tb', out) ->
  out = acc ++ map row_summary rows /\ tb' = foldl add_balance tb rows.
Proof.
  induction rows as [|row rows IH]; simpl; intros tb acc tb' out H.
  - injection H as <- <-. rewrite app_nil_r. auto.
  - destruct (scan_row row tb) as [err|[m tb1]] eqn:Hrow; [discriminate|].
    apply scan_row_inr in Hrow as [-> ->].
    apply IH in H as [-> ->]. rewrite <- app_assoc. auto.
Qed.

Lemma getTransactionSummaryByEmail_inr db e s :
  getTransactionSummaryByEmail db e = inr s ->
  exists rows,
    summary_query db e = Some rows /\
    s = {| Email := e;
           TotalBalance := foldl add_balance f64_zero rows;
           MonthlySummaries := map row_summary rows |}.
Proof.
  unfold getTransactionSummaryByEmail.
  destruct (summary_query db e) as [rows|]; [|discriminate].
  destruct (scan_rows rows f64_zero []) as [err|[tb out]] eqn:Hscan; [discriminate|].
  apply scan_rows_inr in Hscan as [-> ->].
  intros [= <-]. eauto.
Qed.

(** C8. An account with no persisted record gets a summary, not an error:
    the total balance is 0 and there is no monthly summary. *)
Theorem summarize_no_records db e :
  account_rows db e = [] ->
  getTransactionSummaryByEmail db e =
    inr {| Email := e; TotalBalance := f64_zero; MonthlySummaries := [] |}.
Proof.
  intros H. unfold getTransactionSummaryByEmail, summary_query.
  rewrite H. reflexivity.
Qed.

Lemma summarize_no_records_witness :
  getTransactionSummaryByEmail
    [tx 1 2024 January 5 "+30.00" "ana@example.com"] "luis@example.com" =
  inr {| Email := "luis@example.com"; TotalBalance := f64_zero;
         MonthlySummaries := [] |}.
Proof. apply (summarize_no_records _ "luis@example.com"). reflexivity. Defined.

(** ** Months of the store, in order *)

Lemma month_number_range m : 1 <= month_number m <= 12.
Proof. destruct m; simpl; lia. Qed.

Lemma month_number_inj m1 m2 : month_number m1 = month_number m2 -> m1 = m2.
Proof. destruct m1, m2; simpl; intros H; first [reflexivity | lia]. Qed.

Lemma key_ord_inj a b : key_ord a = key_ord b -> a = b.
Proof.
  destruct a as [y1 m1], b as [y2 m2]. unfold key_ord. simpl. intros H.
  pose proof (month_number_range m1). pose proof (month_number_range m2).
  assert (y1 = y2) by lia. subst.
  f_equal. apply month_number_inj. lia.
Qed.

Lemma key_ord_lt a b : key_ord a < key_ord b <-> month_before a b.
Proof.
  destruct a as [y1 m1], b as [y2 m2]. unfold key_ord, month_before. simpl.
  pose proof (month_number_range m1). pose proof (month_number_range m2). lia.
Qed.

Lemma elem_of_insert_key k ks x :
  x ∈ insert_key k ks <-> x = k \/ x ∈ ks.
Proof.
  induction ks as [|k' ks IH]; simpl.
  - rewrite list_elem_of_singleton, elem_of_nil. tauto.
  - unfold key_ltb, key_eqb.
    destruct (Z.ltb_spec (key_ord k) (key_ord k')); [apply elem_of_cons|].
    destruct (Z.eqb_spec (key_ord k) (key_ord k')) as [Heq|].
    + apply key_ord_inj in Heq. subst k'. rewrite elem_of_cons. tauto.
    + rewrite !elem_of_cons, IH. tauto.
Qed.

Lemma insert_key_sorted k ks :
  StronglySorted month_before ks -> StronglySorted month_before (insert_key k ks).
Proof.
  induction 1 as [|k' ks Hs IH Hall]; simpl.
  - repeat constructor.
  - unfold key_ltb, key_eqb.
    destruct (Z.ltb_spec (key_ord k) (key_ord k')) as [Hlt|Hge].
    + constructor; [constructor; assumption|].
      constructor; [apply key_ord_lt; assumption|].
      eapply Forall_impl; [exact Hall|]. simpl. intros x Hx.
      apply key_ord_lt. apply key_ord_lt in Hx. lia.
    + destruct (Z.eqb_spec (key_ord k) (key_ord k')) as [Heq|Hne].
      * constructor; assumption.
      * constructor; [assumption|].
        apply Forall_forall. intros x Hx.
        apply elem_of_insert_key in Hx as [->|Hx].
        -- apply key_ord_lt. lia.
        -- rewrite Forall_forall in Hall. apply Hall, Hx.
Qed.

Lemma group_keys_sorted rows : StronglySorted month_before (group_keys rows).
Proof.
  induction rows as [|r rows IH]; simpl; [constructor|].
  apply insert_key_sorted, IH.
Qed.

Lemma elem_of_group_keys rows k :
  k ∈ group_keys rows <-> exists r, r ∈ rows /\ DATE_TRUNC_month (date r) = k.
Proof.
  induction rows as [|r rows IH]; simpl.
  - split; [intros H; inversion H | intros (r & H & _); inversion H].
  - rewrite elem_of_insert_key, IH. split.
    + intros [->|(r' & Hr' & Hk)]; [exists r | exists r'];
        rewrite elem_of_cons; auto.
    + intros (r' & Hr' & Hk). apply elem_of_cons in Hr' as [->|Hr']; eauto.
Qed.

Lemma month_before_irrefl k : ~ month_before k k.
Proof. unfold month_before. lia. Qed.

Lemma group_keys_NoDup rows : NoDup (group_keys rows).
Proof.
  pose proof (group_keys_sorted rows) as Hs.
  induction Hs as [|k ks Hs IH Hall]; constructor; [|assumption].
  intros Hin. rewrite Forall_forall in Hall.
  apply Hall in Hin. exact (month_before_irrefl _ Hin).
Qed.

(** ** What a successful query returned *)

Lemma eval_group_Some g row :
  eval_group g = Some row ->
  exists credits debits amounts,
    Forall2 (fun r v => signed_case "+" (transaction r) = Some v) g.2 credits /\
    Forall2 (fun r v => signed_case "-" (transaction r) = Some v) g.2 debits /\
    Forall2 (fun r v => signed_amount (transaction r) = Some v) g.2 amounts /\
    row = {| q_month := month_name g.1.2;
             q_num_transactions := len g.2;
             q_avg_credit := SQL_AVG (case_dscale "+" g.2) credits;
             q_avg_debit := SQL_AVG (case_dscale "-" g.2) debits;
             q_balance := SQL_SUM (Some <$> amounts) |}.
Proof.
  unfold eval_group.
  destruct (mapM (fun r => signed_case "+" _) g.2) as [credits|] eqn:Hc;
    simpl; [|discriminate].
  destruct (mapM (fun r => signed_case "-" _) g.2) as [debits|] eqn:Hd;
    simpl; [|discriminate].
  destruct (mapM (fun r => signed_amount _) g.2) as [amounts|] eqn:Ha;
    simpl; [|discriminate].
  intros [= <-]. exists credits, debits, amounts.
  apply mapM_Some_1 in Hc, Hd, Ha. auto.
Qed.

Lemma summarize_inr db e s :
  getTransactionSummaryByEmail db e = inr s ->
  exists rows,
    Forall2 (fun g row => eval_group g = Some row)
      (month_groups (account_rows db e)) rows /\
    Email s = e /\
    TotalBalance s = foldl add_balance f64_zero rows /\
    MonthlySummaries s = map row_summary rows.
Proof.
  intros H. apply getTransactionSummaryByEmail_inr in H as (rows & Hq & ->).
  exists rows. split; [|auto]. apply mapM_Some_1, Hq.
Qed.

Lemma month_groups_keys rows : map fst (month_groups rows) = group_keys rows.
Proof.
  unfold month_groups. rewrite map_map. simpl. apply map_id.
Qed.

Lemma month_groups_Forall rows :
  Forall (fun g => g.2 = filter (in_month g.1) rows /\ g.1 ∈ group_keys rows)
    (month_groups rows).
Proof.
  unfold month_groups. apply Forall_forall. intros g Hg.
  apply list_elem_of_fmap in Hg as (k & -> & Hk). auto.
Qed.

(** C4. Monthly summaries follow the (year, month) pairs that hold a record
    of the account: one entry per pair, in chronological order, labelled
    with the month name alone, counting the records of that month of that
    year only. *)
Theorem summaries_grouped_by_year_and_month db e s :
  getTransactionSummaryByEmail db e = inr s ->
  exists keys : list MonthKey,
    StronglySorted month_before keys /\
    (forall k, k ∈ keys <->
       exists r, r ∈ account_rows db e /\ DATE_TRUNC_month (date r) = k) /\
    Forall2 (fun k m =>
               Month m = month_name k.2 /\
               TransactionCount m = len (filter (in_month k) (account_rows db e)))
      keys (MonthlySummaries s).
Proof.
  intros H. apply summarize_inr in H as (rows & Hrows & _ & _ & ->).
  exists (group_keys (account_rows db e)).
  split; [apply group_keys_sorted|].
  split; [apply elem_of_group_keys|].
  rewrite <- month_groups_keys.
  apply Forall2_fmap. revert Hrows.
  generalize (month_groups_Forall (account_rows db e)).
  generalize (month_groups (account_rows db e)) as groups.
  intros groups Hall Hrows. induction Hrows as [|g row gs rs Hg _ IH].
  - constructor.
  - apply Forall_cons in Hall as [[Hg2 _] Hall].
    constructor; [|apply IH, Hall].
    apply eval_group_Some in Hg as (c & d & a & _ & _ & _ & ->).
    simpl. rewrite Hg2. auto.
Qed.

Lemma summaries_grouped_by_year_and_month_witness :
  exists keys : list MonthKey,
    StronglySorted month_before keys /\
    (forall k, k ∈ keys <->
       exists r,
         r ∈ account_rows
               [tx 1 2024 January 5 "+30.00" "ana@example.com";
                tx 2 2023 March 9 "-15.00" "ana@example.com";
                tx 3 2023 January 1 "+20.00" "ana@example.com"]
               "ana@example.com" /\
         DATE_TRUNC_month (date r) = k) /\
    Forall2 (fun k m =>
               Month m = month_name k.2 /\
               TransactionCount m =
                 len (filter (in_month k)
                        (account_rows
                           [tx 1 2024 January 5 "+30.00" "ana@example.com";
                            tx 2 2023 March 9 "-15.00" "ana@example.com";
                            tx 3 2023 January 1 "+20.00" "ana@example.com"]
                           "ana@example.com")))
      keys
      [ {| Month := "January"; TransactionCount := 1;
           AverageCredit := float64_of_Q 20; AverageDebit := f64_zero |};
        {| Month := "March"; TransactionCount := 1;
           AverageCredit := f64_zero; AverageDebit := float64_of_Q (-15) |};
        {| Month := "January"; TransactionCount := 1;
           AverageCredit := float64_of_Q 30; AverageDebit := f64_zero |} ].
Proof.
  apply (summaries_grouped_by_year_and_month _ _
           {| Email := "ana@example.com"; TotalBalance := float64_of_Q 35;
              MonthlySummaries := _ |}).
  vm_compute. reflexivity.
Defined.

(** ** The worked example *)

Lemma month_groups_jan_jan_feb y r1 r2 r3 :
  DATE_TRUNC_month (date r1) = (y, January) ->
  DATE_TRUNC_month (date r2) = (y, January) ->
  DATE_TRUNC_month (date r3) = (y, February) ->
  month_groups [r1; r2; r3] = [((y, January), [r1; r2]); ((y, February), [r3])].
Proof.
  intros H1 H2 H3. unfold month_groups, group_keys. simpl.
  rewrite H1, H2, H3. simpl.
  assert (Hlt : key_ltb (y, January) (y, February) = true).
  { apply Z.ltb_lt. unfold key_ord. simpl. lia. }
  assert (Hnlt : key_ltb (y, January) (y, January) = false) by apply Z.ltb_irrefl.
  assert (Heq : key_eqb (y, January) (y, January) = true) by apply Z.eqb_refl.
  rewrite Hlt. simpl. rewrite Hnlt, Heq. simpl.
  rewrite !filter_cons, !filter_nil.
  repeat case_decide; unfold in_month in *; first [reflexivity | congruence].
Qed.

(** C5. Records +30.00 and -15.00 in January and +20.00 in February of the
    same year: January has 2 transactions, average credit 30.00 and average
    debit -15.00; the total balance is 35.00. *)
Theorem summarize_example db e y i1 i2 i3 d1 d2 d3 :
  account_rows db e =
    [tx i1 y January d1 "+30.00" e; tx i2 y January d2 "-15.00" e;
     tx i3 y February d3 "+20.00" e] ->
  getTransactionSummaryByEmail db e =
    inr {| Email := e;
           TotalBalance := float64_of_Q 35;
           MonthlySummaries :=
             [ {| Month := "January"; TransactionCount := 2;
                  AverageCredit := float64_of_Q 30;
                  AverageDebit := float64_of_Q (-15) |};
               {| Month := "February"; TransactionCount := 1;
                  AverageCredit := float64_of_Q 20;
                  AverageDebit := f64_zero |} ] |}.
Proof.
  intros H. unfold getTransactionSummaryByEmail, summary_query. rewrite H.
  rewrite (month_groups_jan_jan_feb y) by reflexivity.
  vm_compute. reflexivity.
Qed.

Lemma summarize_example_witness :
  getTransactionSummaryByEmail
    [tx 1 2024 January 5 "+30.00" "ana@example.com";
     tx 7 2024 March 2 "+1.00" "luis@example.com";
     tx 2 2024 January 9 "-15.00" "ana@example.com";
     tx 3 2024 February 1 "+20.00" "ana@example.com"]
    "ana@example.com" =
  inr {| Email := "ana@example.com";
         TotalBalance := float64_of_Q 35;
         MonthlySummaries :=
           [ {| Month := "January"; TransactionCount := 2;
                AverageCredit := float64_of_Q 30;
                AverageDebit := float64_of_Q (-15) |};
             {| Month := "February"; TransactionCount := 1;
                AverageCredit := float64_of_Q 20;
                AverageDebit := f64_zero |} ] |}.
Proof. apply (summarize_example _ _ 2024 1 2 3 5 9 1). reflexivity. Defined.

(** ** Sums over the months add up to the sum over the account *)

Lemma Qsum_app l1 l2 : (Qsum (l1 ++ l2) == Qsum l1 + Qsum l2)%Q.
Proof.
  induction l1 as [|x l1 IH]; simpl.
  - ring.
  - rewrite IH. ring.
Qed.

Lemma Qsum_map_plus {A} (f g : A -> Q) l :
  (Qsum (map (fun x => f x + g x) l) == Qsum (map f l) + Qsum (map g l))%Q.
Proof.
  induction l as [|x l IH]; simpl.
  - ring.
  - rewrite IH. ring.
Qed.

Lemma Qsum_map_ext {A} (f g : A -> Q) l :
  (forall x, x ∈ l -> (f x == g x)%Q) ->
  (Qsum (map f l) == Qsum (map g l))%Q.
Proof.
  induction l as [|x l IH]; simpl; intros H.
  - reflexivity.
  - rewrite (H x), IH.
    + reflexivity.
    + intros y Hy. apply H. apply elem_of_cons. auto.
    + apply elem_of_cons. auto.
Qed.

Lemma Qsum_map_zero {A} (l : list A) : (Qsum (map (fun _ => 0) l) == 0)%Q.
Proof.
  induction l as [|x l IH]; simpl.
  - reflexivity.
  - rewrite IH. ring.
Qed.

(** Summing [a] at the one position of [ks] that equals [k0]. *)
Lemma Qsum_indicator (k0 : MonthKey) (a : Q) ks :
  NoDup ks ->
  (Qsum (map (fun k => if decide (k0 = k) then a else 0) ks)
   == if decide (k0 ∈ ks) then a else 0)%Q.
Proof.
  induction 1 as [|k ks Hk Hnd IH].
  - destruct (decide (k0 ∈ [])) as [Hin|_]; [inversion Hin | reflexivity].
  - cbn [map Qsum foldr]. rewrite IH.
    destruct (decide (k0 ∈ ks)) as [Hin|Hnin];
      destruct (decide (k0 ∈ k :: ks)) as [Hin'|Hnin'];
      destruct (decide (k0 = k)) as [Heq|Hne];
      try ring; exfalso.
    + subst. contradiction.
    + apply Hnin', list_elem_of_further, Hin.
    + apply Hnin', list_elem_of_further, Hin.
    + apply elem_of_cons in Hin' as [?|?]; contradiction.
    + subst. apply Hnin', list_elem_of_here.
Qed.

Lemma Qsum_by_month (f : TxRow -> Q) ks rows :
  NoDup ks ->
  (forall r, r ∈ rows -> DATE_TRUNC_month (date r) ∈ ks) ->
  (Qsum (map (fun k => Qsum (map f (filter (in_month k) rows))) ks)
   == Qsum (map f rows))%Q.
Proof.
  intros Hnd. induction rows as [|r rows IH]; intros Hks.
  - simpl. apply Qsum_map_zero.
  - rewrite (Qsum_map_ext _
      (fun k => (if decide (DATE_TRUNC_month (date r) = k) then f r else 0)
                + Qsum (map f (filter (in_month k) rows)))%Q).
    + rewrite Qsum_map_plus, Qsum_indicator by assumption.
      rewrite decide_True by (apply Hks, list_elem_of_here).
      rewrite IH; [reflexivity|].
      intros r' Hr'. apply Hks, list_elem_of_further, Hr'.
    + intros k _. rewrite filter_cons. unfold in_month at 1.
      case_decide; simpl; ring.
Qed.

Lemma amounts_of_group (g : list TxRow) amounts :
  Forall2 (fun r v => signed_amount (transaction r) = Some v) g amounts ->
  amounts = map amount g.
Proof.
  induction 1 as [|r v g vs Hr _ IH]; simpl; [reflexivity|].
  unfold amount at 1. rewrite Hr. simpl. congruence.
Qed.

Lemma non_null_Some {A} (l : list A) : non_null (Some <$> l) = l.
Proof.
  induction l as [|x l IH]; [reflexivity|].
  rewrite fmap_cons. simpl. rewrite IH. reflexivity.
Qed.

Lemma month_group_nonempty rows g :
  g ∈ month_groups rows -> g.2 <> [].
Proof.
  intros Hg. pose proof (month_groups_Forall rows) as Hall.
  rewrite Forall_forall in Hall. apply Hall in Hg as [-> Hk].
  apply elem_of_group_keys in Hk as (r & Hr & Hk).
  intros Hnil. assert (r ∈ filter (in_month g.1) rows) as Hin.
  { apply list_elem_of_filter. auto. }
  rewrite Hnil in Hin. inversion Hin.
Qed.

Lemma eval_group_balance g row :
  g.2 <> [] ->
  eval_group g = Some row ->
  q_balance row = Some (month_balance g) /\
  forall r, r ∈ g.2 -> signed_amount (transaction r) = Some (amount r).
Proof.
  intros Hne H. apply eval_group_Some in H as (c & d & a & _ & _ & Ha & ->).
  simpl. split.
  - apply amounts_of_group in Ha as ->. unfold SQL_SUM, month_balance.
    rewrite non_null_Some. destruct g.2 as [|r rs]; [congruence|].
    reflexivity.
  - clear Hne. induction Ha as [|r' v g' vs Hr' _ IH]; intros r Hr.
    + inversion Hr.
    + apply elem_of_cons in Hr as [->|Hr]; [|auto].
      unfold amount. rewrite Hr'. reflexivity.
Qed.

Lemma foldl_add_balance groups rows : forall tb,
  Forall (fun g => g.2 <> []) groups ->
  Forall2 (fun g row => eval_group g = Some row) groups rows ->
  foldl add_balance tb rows =
  foldl f64_add tb (map float64_of_Q (map month_balance groups)).
Proof.
  intros tb Hne H. revert tb. induction H as [|g row gs rs Hg _ IH]; intros tb.
  - reflexivity.
  - apply Forall_cons in Hne as [Hg0 Hne]. simpl.
    rewrite IH by assumption. f_equal.
    unfold add_balance. destruct (eval_group_balance g row Hg0 Hg) as [-> _].
    reflexivity.
Qed.

Lemma Forall2_elem_of_l {A B} (P : A -> B -> Prop) l k x :
  Forall2 P l k -> x ∈ l -> exists y, y ∈ k /\ P x y.
Proof.
  induction 1 as [|a b l k Hab _ IH]; intros Hx; [inversion Hx|].
  apply elem_of_cons in Hx as [->|Hx].
  - exists b. split; [apply list_elem_of_here | assumption].
  - destruct (IH Hx) as (y & Hy & HP). exists y.
    split; [apply list_elem_of_further, Hy | assumption].
Qed.

(** C3, as the code has it. The total balance is the binary64 sum, month
    after month in chronological order, of the monthly balance subtotals,
    each rounded to binary64 on its way out of the database; as exact
    numbers the monthly subtotals add up to the sum of every signed amount of
    the account. *)
Theorem total_balance_sums_monthly_balances db e s :
  getTransactionSummaryByEmail db e = inr s ->
  (forall r, r ∈ account_rows db e ->
     signed_amount (transaction r) = Some (amount r)) /\
  TotalBalance s =
    foldl f64_add f64_zero
      (map float64_of_Q (map month_balance (month_groups (account_rows db e)))) /\
  (Qsum (map month_balance (month_groups (account_rows db e)))
   == Qsum (map amount (account_rows db e)))%Q.
Proof.
  intros H. apply summarize_inr in H as (rows & Hrows & _ & -> & _).
  set (trs := account_rows db e) in *.
  assert (Hne : Forall (fun g => g.2 <> []) (month_groups trs)).
  { apply Forall_forall. intros g. apply month_group_nonempty. }
  split; [|split].
  - intros r Hr.
    assert (Hg : (DATE_TRUNC_month (date r),
                  filter (in_month (DATE_TRUNC_month (date r))) trs)
                 ∈ month_groups trs).
    { unfold month_groups. apply list_elem_of_fmap.
      exists (DATE_TRUNC_month (date r)). split; [reflexivity|].
      apply elem_of_group_keys. eauto. }
    destruct (Forall2_elem_of_l _ _ _ _ Hrows Hg) as (row & _ & Hrow).
    rewrite Forall_forall in Hne.
    apply (eval_group_balance _ _ (Hne _ Hg) Hrow).
    simpl. apply list_elem_of_filter. split; [reflexivity | assumption].
  - apply foldl_add_balance; assumption.
  - unfold month_groups. rewrite map_map. unfold month_balance. simpl.
    apply Qsum_by_month; [apply group_keys_NoDup|].
    intros r Hr. apply elem_of_group_keys. eauto.
Qed.

Lemma total_balance_sums_monthly_balances_witness :
  (forall r, r ∈ account_rows drift_db "ana@example.com" ->
     signed_amount (transaction r) = Some (amount r)) /\
  S754_finite false 5404319552844596 (-53) =
    foldl f64_add f64_zero
      (map float64_of_Q
         (map month_balance
            (month_groups (account_rows drift_db "ana@example.com")))) /\
  (Qsum (map month_balance
           (month_groups (account_rows drift_db "ana@example.com")))
   == Qsum (map amount (account_rows drift_db "ana@example.com")))%Q.
Proof.
  apply (total_balance_sums_monthly_balances drift_db "ana@example.com"
           {| Email := "ana@example.com";
              TotalBalance := S754_finite false 5404319552844596 (-53);
              MonthlySummaries :=
                [ {| Month := "January"; TransactionCount := 1;
                     AverageCredit := float64_of_Q (1 # 10);
                     AverageDebit := f64_zero |};
                  {| Month := "February"; TransactionCount := 1;
                     AverageCredit := float64_of_Q (2 # 10);
                     AverageDebit := f64_zero |};
                  {| Month := "March"; TransactionCount := 1;
                     AverageCredit := float64_of_Q (3 # 10);
                     AverageDebit := f64_zero |} ] |}).
  vm_compute. reflexivity.
Defined.

(** C3 as stated fails: with 0.10, 0.20 and 0.30 in three months the signed
    amounts add up to 0.60, and the total balance returned is neither 0.60
    nor the binary64 nearest to it, but the next one up. *)
Lemma total_balance_drifts :
  exists s,
    getTransactionSummaryByEmail drift_db "ana@example.com" = inr s /\
    (Qsum (map amount (account_rows drift_db "ana@example.com")) == 6 # 10)%Q /\
    TotalBalance s <> float64_of_Q (6 # 10) /\
    ~ (Q_of_float64 (TotalBalance s) == 6 # 10)%Q.
Proof.
  eexists. split; [vm_compute; reflexivity|].
  split; [vm_compute; reflexivity|].
  split; [vm_compute; discriminate|].
  vm_compute. discriminate.
Qed.

(** ** Amount texts and their sign *)

Lemma REPLACE_absent s c : occurs c s = false -> REPLACE s c = s.
Proof.
  induction s as [|d s IH]; simpl; [reflexivity|].
  destruct (Ascii.eqb d c); simpl; [discriminate|].
  intros H. rewrite IH by assumption. reflexivity.
Qed.

Lemma digit_head c d s :
  digit_of c = Some d ->
  skip_while is_space (String c s) = String c s /\
  read_sign (String c s) = (false, String c s).
Proof.
  destruct c as [[] [] [] [] [] [] [] []]; vm_compute; intros H;
    first [discriminate H | split; reflexivity].
Qed.

Lemma point_head s :
  skip_while is_space (String "." s) = String "." s /\
  read_sign (String "." s) = (false, String "." s).
Proof. split; reflexivity. Qed.

Lemma read_unsigned_head neg s q :
  read_unsigned neg s = Some q ->
  skip_while is_space s = s /\ read_sign s = (false, s).
Proof.
  destruct s as [|c s]; [discriminate|].
  unfold read_unsigned. cbn [read_digits].
  destruct (digit_of c) as [d|] eqn:Hd.
  - intros _. apply (digit_head c d s Hd).
  - destruct c as [[] [] [] [] [] [] [] []]; try discriminate.
    intros _. apply point_head.
Qed.

Lemma numeric_in_unsigned s q :
  read_unsigned false s = Some q -> numeric_in s = Some q.
Proof.
  intros H. unfold numeric_in.
  destruct (read_unsigned_head _ _ _ H) as [-> ->]. exact H.
Qed.

Lemma decimal_value_neg m e :
  (decimal_value false m e == - decimal_value true m e)%Q.
Proof.
  unfold decimal_value. rewrite inject_Z_opp. ring.
Qed.

Lemma read_unsigned_neg s q :
  read_unsigned true s = Some q ->
  exists q', read_unsigned false s = Some q' /\ (q' == - q)%Q.
Proof.
  unfold read_unsigned.
  destruct (read_digits s 0 0) as [[ip ni] s2].
  destruct (match s2 with String "." s' => read_digits s' ip 0 | _ => (ip, O, s2) end)
    as [[m nf] s3].
  destruct (ni + nf)%nat; [discriminate|].
  destruct (read_exponent s3) as [[e s4]|]; [|discriminate].
  destruct (skip_while is_space s4); [|discriminate].
  intros [= <-]. eexists. split; [reflexivity|]. apply decimal_value_neg.
Qed.

Lemma LIKE_prefix_true s c :
  LIKE_prefix s c = true -> exists body, s = String c body.
Proof.
  destruct s as [|d body]; simpl; [discriminate|].
  intros H. apply Ascii.eqb_eq in H as ->. eauto.
Qed.

(** A credit whose text holds a single [+]: the query averages its amount. *)
Lemma signed_case_credit r a :
  is_credit r = true -> single_sign r = true ->
  signed_amount (transaction r) = Some a ->
  signed_case "+" (transaction r) = Some (Some a).
Proof.
  unfold is_credit, single_sign, signed_amount, signed_case.
  intros Hc Hs Ha. rewrite Hc.
  apply LIKE_prefix_true in Hc as [body Hb]. rewrite Hb in *.
  apply negb_true_iff in Hs.
  cbn [REPLACE]. rewrite Ascii.eqb_refl, (REPLACE_absent _ _ Hs).
  change (numeric_in (String "+" body)) with (read_unsigned false body) in Ha.
  rewrite (numeric_in_unsigned _ _ Ha). reflexivity.
Qed.

(** A debit whose text holds a single [-]: the query averages its
    magnitude. *)
Lemma signed_case_debit r a :
  is_debit r = true -> single_sign r = true ->
  signed_amount (transaction r) = Some a ->
  exists a', signed_case "-" (transaction r) = Some (Some a') /\ (a' == - a)%Q.
Proof.
  unfold is_debit, single_sign, signed_amount, signed_case.
  intros Hc Hs Ha. rewrite Hc.
  apply LIKE_prefix_true in Hc as [body Hb]. rewrite Hb in *.
  apply negb_true_iff in Hs.
  cbn [REPLACE]. rewrite Ascii.eqb_refl, (REPLACE_absent _ _ Hs).
  change (numeric_in (String "-" body)) with (read_unsigned true body) in Ha.
  apply read_unsigned_neg in Ha as (a' & Ha' & Heq).
  rewrite (numeric_in_unsigned _ _ Ha'). eauto.
Qed.

Lemma signed_case_other c t :
  LIKE_prefix (TRIM t) c = false -> signed_case c t = Some None.
Proof. unfold signed_case. intros ->. reflexivity. Qed.

(** ** Averages of a month *)

Lemma float64_of_Q_proper q1 q2 : (q1 == q2)%Q -> float64_of_Q q1 = float64_of_Q q2.
Proof. intros H. unfold float64_of_Q. rewrite (Qred_complete _ _ H). reflexivity. Qed.

Lemma SQL_AVG_avg dscale l :
  non_null l <> [] -> SQL_AVG dscale l = Some (numeric_avg dscale (non_null l)).
Proof.
  unfold SQL_AVG, numeric_avg, len. destruct (non_null l); [congruence | reflexivity].
Qed.

Lemma SQL_AVG_null dscale l : non_null l = [] -> SQL_AVG dscale l = None.
Proof. unfold SQL_AVG. intros ->. reflexivity. Qed.

Lemma select_div_scale_proper q1 q2 dscale n :
  (q1 == q2)%Q -> select_div_scale q1 dscale n = select_div_scale q2 dscale n.
Proof. intros H. unfold select_div_scale. rewrite (Qred_complete _ _ H). reflexivity. Qed.

Lemma round_var_proper q1 q2 rscale :
  (q1 == q2)%Q -> round_var q1 rscale = round_var q2 rscale.
Proof. intros H. unfold round_var. rewrite (Qred_complete _ _ H). reflexivity. Qed.

Lemma numeric_div_proper q1 q2 dscale n :
  (q1 == q2)%Q -> numeric_div q1 dscale n = numeric_div q2 dscale n.
Proof.
  intros H. unfold numeric_div.
  rewrite (select_div_scale_proper _ _ _ _ H).
  apply round_var_proper. rewrite H. reflexivity.
Qed.

Lemma weight_up_spec fuel : forall x,
  1 <= x -> x < NBASE * 2 ^ Z.of_nat fuel ->
  0 <= weight_up fuel x /\
  NBASE ^ weight_up fuel x <= x < NBASE ^ (weight_up fuel x + 1).
Proof.
  unfold NBASE. induction fuel as [|fuel IH]; intros x H1 Hx.
  - simpl in *. lia.
  - cbn [weight_up]. unfold NBASE. destruct (x <? 10000) eqn:Hlt.
    + apply Z.ltb_lt in Hlt. simpl. lia.
    + apply Z.ltb_ge in Hlt.
      rewrite Nat2Z.inj_succ, Z.pow_succ_r in Hx by lia.
      assert (1 <= x / 10000) as H1' by (apply Z.div_le_lower_bound; lia).
      assert (x / 10000 < 10000 * 2 ^ Z.of_nat fuel) as Hx'.
      { apply Z.div_lt_upper_bound; [lia|].
        assert (0 < 2 ^ Z.of_nat fuel) by (apply Z.pow_pos_nonneg; lia). nia. }
      destruct (IH _ H1' Hx') as (Hw & Hlo & Hhi).
      set (w := weight_up fuel (x / 10000)) in *.
      split; [lia|].
      rewrite !Z.pow_add_r, !Z.pow_1_r in * by lia.
      pose proof (Z.div_mod x 10000 ltac:(lia)) as Hdm.
      pose proof (Z.mod_pos_bound x 10000 ltac:(lia)) as Hmb.
      split; nia.
Qed.

Lemma weight_down_spec fuel : forall n d,
  0 < n -> d <= n * NBASE ^ Z.of_nat fuel ->
  0 <= weight_down fuel n d /\
  d <= n * NBASE ^ weight_down fuel n d /\
  (0 < weight_down fuel n d -> n * NBASE ^ (weight_down fuel n d - 1) < d).
Proof.
  unfold NBASE. induction fuel as [|fuel IH]; intros n d Hn Hd.
  - simpl in *. lia.
  - cbn [weight_down]. destruct (d <=? n) eqn:Hle.
    + apply Z.leb_le in Hle. simpl. lia.
    + apply Z.leb_gt in Hle.
      rewrite Nat2Z.inj_succ, Z.pow_succ_r in Hd by lia.
      destruct (IH (n * NBASE) d) as (Hw & Hlo & Hhi); [unfold NBASE; lia | unfold NBASE; lia |].
      unfold NBASE in *.
      set (w := weight_down fuel (n * 10000) d) in *.
      split; [lia|]. split.
      * rewrite Z.pow_add_r, Z.pow_1_r by lia. lia.
      * intros _. replace (w + 1 - 1) with w by lia.
        destruct (Z.eq_dec w 0) as [->|Hne]; [simpl; lia|].
        specialize (Hhi ltac:(lia)).
        replace w with ((w - 1) + 1) at 1 by lia.
        rewrite Z.pow_add_r, Z.pow_1_r by lia. lia.
Qed.

(** The weight [nbase_weight] finds for the positive rational [n / d] is the
    power of [NBASE] of its first digit: [NBASE ^ w <= n / d < NBASE ^ (w + 1)],
    and [first_digit] is that digit, between 1 and [NBASE - 1]. *)
Lemma nbase_weight_spec n d :
  0 < n -> 0 < d ->
  let w := nbase_weight n d in
  (0 <= w -> d * NBASE ^ w <= n < d * NBASE ^ (w + 1)) /\
  (w < 0 -> n * NBASE ^ (- w - 1) < d <= n * NBASE ^ (- w)) /\
  1 <= first_digit n d w < NBASE.
Proof.
  intros Hn Hd. unfold nbase_weight, first_digit.
  destruct (d <=? n) eqn:Hle.
  - apply Z.leb_le in Hle.
    assert (1 <= n / d) as H1 by (apply Z.div_le_lower_bound; lia).
    assert (n / d < NBASE * 2 ^ Z.of_nat (Z.to_nat (Z.log2 (n / d)))) as Hx.
    { rewrite Z2Nat.id by apply Z.log2_nonneg.
      pose proof (Z.log2_spec (n / d) ltac:(lia)) as [_ Hs].
      rewrite Z.pow_succ_r in Hs by apply Z.log2_nonneg.
      assert (0 < 2 ^ Z.log2 (n / d)) by (apply Z.pow_pos_nonneg; [lia|apply Z.log2_nonneg]).
      unfold NBASE. lia. }
    destruct (weight_up_spec _ _ H1 Hx) as (Hw & Hlo & Hhi).
    set (w := weight_up _ _) in *. cbn zeta.
    assert (0 < NBASE ^ w) as Hpw by (apply Z.pow_pos_nonneg; [unfold NBASE; lia | lia]).
    pose proof (Z.div_mod n d ltac:(lia)) as Hdm.
    pose proof (Z.mod_pos_bound n d ltac:(lia)) as Hmb.
    assert (d * NBASE ^ w <= n < d * NBASE ^ (w + 1)) as Hb by (split; nia).
    split; [auto|]. split; [lia|].
    destruct (0 <=? w) eqn:Hz; [|apply Z.leb_gt in Hz; lia].
    rewrite Z.pow_add_r, Z.pow_1_r in Hb by lia.
    split.
    + apply Z.div_le_lower_bound; nia.
    + apply Z.div_lt_upper_bound; nia.
  - apply Z.leb_gt in Hle.
    assert (d <= n * NBASE ^ Z.of_nat (S (Z.to_nat (Z.log2 d)))) as Hf.
    { rewrite Nat2Z.inj_succ, Z2Nat.id by apply Z.log2_nonneg.
      pose proof (Z.log2_spec d ltac:(lia)) as [_ Hs].
      assert (2 ^ Z.succ (Z.log2 d) <= NBASE ^ Z.succ (Z.log2 d)) as Hpow.
      { apply Z.pow_le_mono_l. unfold NBASE. lia. }
      nia. }
    destruct (weight_down_spec _ _ _ Hn Hf) as (Hw & Hlo & Hhi).
    set (k := weight_down _ _ _) in *. cbn zeta.
    assert (0 < k) as Hk.
    { destruct (Z.eq_dec k 0) as [Hk0|]; [|lia]. rewrite Hk0 in Hlo. simpl in Hlo. lia. }
    specialize (Hhi Hk).
    split; [lia|]. split.
    { intros _. replace (- - k - 1) with (k - 1) by lia.
      replace (- - k) with k by lia. lia. }
    destruct (0 <=? - k) eqn:Hz; [apply Z.leb_le in Hz; lia|].
    replace (- - k) with k by lia.
    replace k with ((k - 1) + 1) in * by lia.
    rewrite Z.pow_add_r, Z.pow_1_r in * by lia.
    replace (k - 1 + 1 - 1) with (k - 1) in Hhi by lia.
    assert (0 < NBASE ^ (k - 1)) as Hpw by (apply Z.pow_pos_nonneg; [unfold NBASE; lia | lia]).
    unfold NBASE in *.
    split.
    + apply Z.div_le_lower_bound; nia.
    + apply Z.div_lt_upper_bound; nia.
Qed.

Lemma numeric_avg_mean dscale l :
  numeric_avg dscale l = round_var (mean l) (avg_scale dscale l).
Proof. reflexivity. Qed.

Lemma select_div_scale_range q dscale n :
  0 <= select_div_scale q dscale n <= NUMERIC_MAX_DISPLAY_SCALE.
Proof.
  unfold select_div_scale.
  destruct (weight_and_digit _ _) as [w1 f1], (weight_and_digit _ _) as [w2 f2].
  unfold NUMERIC_MAX_DISPLAY_SCALE, NUMERIC_MIN_DISPLAY_SCALE. lia.
Qed.

Lemma select_div_scale_dscale q dscale n :
  Z.min dscale NUMERIC_MAX_DISPLAY_SCALE <= select_div_scale q dscale n.
Proof.
  unfold select_div_scale.
  destruct (weight_and_digit _ _) as [w1 f1], (weight_and_digit _ _) as [w2 f2].
  unfold NUMERIC_MAX_DISPLAY_SCALE, NUMERIC_MIN_DISPLAY_SCALE. lia.
Qed.

(** Rounding to [rscale] decimals moves a value by half a unit of the last
    decimal at most. *)
Lemma round_var_error q rscale :
  0 <= rscale ->
  (Qabs (round_var q rscale - q) <= 1 # Z.to_pos (2 * 10 ^ rscale))%Q.
Proof.
  intros Hr. rewrite <- (Qred_correct q) at 2.
  unfold round_var. destruct (Qred q) as [n d]. cbn [Qnum Qden].
  assert (0 < 10 ^ rscale) as Hu by (apply Z.pow_pos_nonneg; lia).
  set (u := 10 ^ rscale) in *.
  set (D := (2 * (Z.abs n * u) + Z.pos d) / (2 * Z.pos d)).
  assert (2 * Z.pos d * D <= 2 * (Z.abs n * u) + Z.pos d < 2 * Z.pos d * D + 2 * Z.pos d)
    as HD.
  { pose proof (Z.div_mod (2 * (Z.abs n * u) + Z.pos d) (2 * Z.pos d)) as Hdm.
    pose proof (Z.mod_pos_bound (2 * (Z.abs n * u) + Z.pos d) (2 * Z.pos d)) as Hmb.
    fold D in Hdm. lia. }
  apply Qabs_Qle_condition. unfold Qle, Qminus, Qplus, Qopp. cbn [Qnum Qden].
  rewrite !Pos2Z.inj_mul, !Z2Pos.id by lia.
  destruct n as [|p|p]; cbn [Z.sgn Z.abs] in *; split; nia.
Qed.

Lemma non_null_credits g vs :
  Forall2 (fun r v => signed_case "+" (transaction r) = Some v) g vs ->
  (forall r, r ∈ g -> signed_amount (transaction r) = Some (amount r)) ->
  (List.filter is_credit g = [] -> non_null vs = []) /\
  (forallb single_sign (List.filter is_credit g) = true ->
   non_null vs = map amount (List.filter is_credit g)).
Proof.
  induction 1 as [|r v g vs Hr _ IH]; intros Ha; [split; reflexivity|].
  destruct IH as [IH0 IH1].
  { intros r' Hr'. apply Ha, list_elem_of_further, Hr'. }
  simpl. destruct (is_credit r) eqn:Hc.
  - split; [discriminate|]. simpl. intros Hs.
    apply andb_true_iff in Hs as [Hs Hall].
    rewrite (signed_case_credit r (amount r) Hc Hs) in Hr
      by apply Ha, list_elem_of_here.
    injection Hr as <-. simpl. rewrite IH1 by assumption. reflexivity.
  - rewrite signed_case_other in Hr by exact Hc. injection Hr as <-.
    simpl. auto.
Qed.

Lemma non_null_debits g vs :
  Forall2 (fun r v => signed_case "-" (transaction r) = Some v) g vs ->
  (forall r, r ∈ g -> signed_amount (transaction r) = Some (amount r)) ->
  (List.filter is_debit g = [] -> non_null vs = []) /\
  (forallb single_sign (List.filter is_debit g) = true ->
   Forall2 (fun x r => (x == - amount r)%Q) (non_null vs) (List.filter is_debit g)).
Proof.
  induction 1 as [|r v g vs Hr _ IH]; intros Ha; [split; [reflexivity|constructor]|].
  destruct IH as [IH0 IH1].
  { intros r' Hr'. apply Ha, list_elem_of_further, Hr'. }
  simpl. destruct (is_debit r) eqn:Hc.
  - split; [discriminate|]. simpl. intros Hs.
    apply andb_true_iff in Hs as [Hs Hall].
    destruct (signed_case_debit r (amount r) Hc Hs) as (a' & Ha' & Heq);
      [apply Ha, list_elem_of_here|].
    rewrite Ha' in Hr. injection Hr as <-. simpl. constructor; auto.
  - rewrite signed_case_other in Hr by exact Hc. injection Hr as <-.
    simpl. auto.
Qed.

Lemma mean_opp xs (rs : list TxRow) :
  Forall2 (fun x r => (x == - amount r)%Q) xs rs ->
  (mean xs == - mean (map amount rs))%Q.
Proof.
  intros H. unfold mean, len.
  assert (Hlen : List.length xs = List.length (map amount rs)).
  { rewrite length_map. eapply Forall2_length, H. }
  assert (Hsum : (Qsum xs == - Qsum (map amount rs))%Q).
  { induction H as [|x r xs rs Hx _ IH]; simpl; [ring|].
    rewrite Hx, IH; [ring|]. simpl in Hlen. congruence. }
  rewrite Hlen, Hsum. unfold Qdiv. ring.
Qed.

Lemma group_amounts (g : list TxRow) amounts :
  Forall2 (fun r v => signed_amount (transaction r) = Some v) g amounts ->
  forall r, r ∈ g -> signed_amount (transaction r) = Some (amount r).
Proof.
  induction 1 as [|r' v g' vs Hr' _ IH]; intros r Hr; [inversion Hr|].
  apply elem_of_cons in Hr as [->|Hr]; [|auto].
  unfold amount. rewrite Hr'. reflexivity.
Qed.

Lemma max_dscale_nonneg rs : 0 <= max_dscale rs.
Proof. unfold max_dscale. induction rs as [|r rs IH]; simpl; lia. Qed.

Lemma case_dscale_nonneg c g : 0 <= case_dscale c g.
Proof. unfold case_dscale. induction g as [|r g IH]; simpl; lia. Qed.

(** Without its only sign character, a text that casts keeps its display
    scale. *)
Lemma single_sign_dscale c r a :
  c = "+"%char \/ c = "-"%char ->
  LIKE_prefix (TRIM (transaction r)) c = true ->
  single_sign r = true ->
  signed_amount (transaction r) = Some a ->
  numeric_dscale (REPLACE (TRIM (transaction r)) c) = amount_dscale r.
Proof.
  unfold single_sign, signed_amount, amount_dscale.
  intros Hsign Hc Hs Ha.
  apply LIKE_prefix_true in Hc as [body Hb]. rewrite Hb in *.
  apply negb_true_iff in Hs.
  cbn [REPLACE]. rewrite Ascii.eqb_refl, (REPLACE_absent _ _ Hs).
  assert (exists neg, read_unsigned neg body = Some a) as [neg Hbody].
  { destruct Hsign as [->| ->]; [exists false | exists true]; exact Ha. }
  destruct (read_unsigned_head _ _ _ Hbody) as [Hskip Hread].
  unfold numeric_dscale at 1. rewrite Hskip, Hread.
  destruct Hsign as [->| ->]; reflexivity.
Qed.

Lemma case_dscale_credits g :
  (forall r, r ∈ g -> signed_amount (transaction r) = Some (amount r)) ->
  forallb single_sign (List.filter is_credit g) = true ->
  case_dscale "+" g = max_dscale (List.filter is_credit g).
Proof.
  unfold case_dscale, max_dscale.
  induction g as [|r g IH]; intros Ha Hs; [reflexivity|].
  simpl in *. unfold is_credit at 1 in Hs. unfold is_credit at 1.
  destruct (LIKE_prefix (TRIM (transaction r)) "+") eqn:Hc.
  - simpl in Hs. apply andb_true_iff in Hs as [Hr Hs]. simpl.
    rewrite (single_sign_dscale "+" r (amount r)); auto.
    + rewrite IH; auto. intros r' Hr'. apply Ha, list_elem_of_further, Hr'.
    + apply Ha, list_elem_of_here.
  - rewrite IH; auto.
    + pose proof (max_dscale_nonneg (List.filter is_credit g)) as Hn.
      unfold max_dscale in Hn. lia.
    + intros r' Hr'. apply Ha, list_elem_of_further, Hr'.
Qed.

Lemma case_dscale_debits g :
  (forall r, r ∈ g -> signed_amount (transaction r) = Some (amount r)) ->
  forallb single_sign (List.filter is_debit g) = true ->
  case_dscale "-" g = max_dscale (List.filter is_debit g).
Proof.
  unfold case_dscale, max_dscale.
  induction g as [|r g IH]; intros Ha Hs; [reflexivity|].
  simpl in *. unfold is_debit at 1 in Hs. unfold is_debit at 1.
  destruct (LIKE_prefix (TRIM (transaction r)) "-") eqn:Hc.
  - simpl in Hs. apply andb_true_iff in Hs as [Hr Hs]. simpl.
    rewrite (single_sign_dscale "-" r (amount r)); auto.
    + rewrite IH; auto. intros r' Hr'. apply Ha, list_elem_of_further, Hr'.
    + apply Ha, list_elem_of_here.
  - rewrite IH; auto.
    + pose proof (max_dscale_nonneg (List.filter is_debit g)) as Hn.
      unfold max_dscale in Hn. lia.
    + intros r' Hr'. apply Ha, list_elem_of_further, Hr'.
Qed.

Lemma Qsum_magnitudes xs (rs : list TxRow) :
  Forall2 (fun x r => (x == - amount r)%Q) xs rs ->
  (Qsum xs == Qsum (map magnitude rs))%Q /\ List.length xs = List.length rs.
Proof.
  induction 1 as [|x r xs rs Hx _ [IH Hlen]]; simpl; [split; reflexivity|].
  split; [|congruence]. unfold magnitude at 1. rewrite Hx, IH. reflexivity.
Qed.

Lemma numeric_avg_error dscale l :
  (Qabs (numeric_avg dscale l - mean l)
   <= 1 # Z.to_pos (2 * 10 ^ avg_scale dscale l))%Q.
Proof.
  rewrite numeric_avg_mean. apply round_var_error.
  apply select_div_scale_range.
Qed.

(** C1, as the code has it. For every month of an account: with no credit
    row the average credit is 0, with no debit row the average debit is 0
    (the fields are plain numbers, never null). When the sign that opens
    each credit occurs once in its text, the average credit is the binary64
    nearest to what [AVG] returns for the credit amounts: their mean rounded,
    half away from zero, to the scale of the division, which is at least the
    largest number of decimals among the credits (up to 1000), so that it is
    off the mean by half a unit of that decimal at most. Likewise the
    average debit is minus the binary64 nearest to what [AVG] returns for the
    magnitudes of the debits. *)
Theorem monthly_averages db e s :
  getTransactionSummaryByEmail db e = inr s ->
  Forall2 (fun g m =>
             let credits := List.filter is_credit g.2 in
             let debits := List.filter is_debit g.2 in
             (credits = [] -> AverageCredit m = f64_zero) /\
             (debits = [] -> AverageDebit m = f64_zero) /\
             (credits <> [] -> forallb single_sign credits = true ->
              AverageCredit m
              = float64_of_Q (numeric_avg (max_dscale credits) (map amount credits)) /\
              (Qabs (numeric_avg (max_dscale credits) (map amount credits)
                     - mean (map amount credits))
               <= 1 # Z.to_pos (2 * 10 ^ avg_scale (max_dscale credits)
                                              (map amount credits)))%Q /\
              Z.min (max_dscale credits) 1000
              <= avg_scale (max_dscale credits) (map amount credits)) /\
             (debits <> [] -> forallb single_sign debits = true ->
              AverageDebit m
              = f64_neg (float64_of_Q
                           (numeric_avg (max_dscale debits) (map magnitude debits))) /\
              (Qabs (numeric_avg (max_dscale debits) (map magnitude debits)
                     - mean (map magnitude debits))
               <= 1 # Z.to_pos (2 * 10 ^ avg_scale (max_dscale debits)
                                              (map magnitude debits)))%Q /\
              Z.min (max_dscale debits) 1000
              <= avg_scale (max_dscale debits) (map magnitude debits)))
    (month_groups (account_rows db e)) (MonthlySummaries s).
Proof.
  intros H. apply summarize_inr in H as (rows & Hrows & _ & _ & ->).
  apply Forall2_fmap_r. eapply Forall2_impl; [exact Hrows|].
  intros g row Hg. simpl.
  apply eval_group_Some in Hg as (c & d & a & Hc & Hd & Ha & ->). simpl.
  pose proof (group_amounts _ _ Ha) as Hamt.
  destruct (non_null_credits _ _ Hc Hamt) as [Hc0 Hc1].
  destruct (non_null_debits _ _ Hd Hamt) as [Hd0 Hd1].
  split; [|split; [|split]].
  - intros Hnil. rewrite (SQL_AVG_null _ _ (Hc0 Hnil)). reflexivity.
  - intros Hnil. rewrite (SQL_AVG_null _ _ (Hd0 Hnil)). reflexivity.
  - intros Hne Hs. split; [|split].
    + rewrite SQL_AVG_avg; rewrite (Hc1 Hs).
      * rewrite (case_dscale_credits _ Hamt Hs). reflexivity.
      * destruct (List.filter is_credit g.2); [congruence | discriminate].
    + apply numeric_avg_error.
    + apply select_div_scale_dscale.
  - intros Hne Hs. specialize (Hd1 Hs). split; [|split].
    + destruct (Qsum_magnitudes _ _ Hd1) as [Hsum Hlen].
      rewrite SQL_AVG_avg.
      * rewrite (case_dscale_debits _ Hamt Hs). do 2 f_equal.
        unfold numeric_avg, len. rewrite length_map, <- Hlen.
        apply numeric_div_proper, Hsum.
      * intros Hnil. rewrite Hnil in Hd1. inversion Hd1 as [Hnil'|].
        congruence.
    + apply numeric_avg_error.
    + apply select_div_scale_dscale.
Qed.

Lemma monthly_averages_witness :
  Forall2 (fun g m =>
             let credits := List.filter is_credit g.2 in
             let debits := List.filter is_debit g.2 in
             (credits = [] -> AverageCredit m = f64_zero) /\
             (debits = [] -> AverageDebit m = f64_zero) /\
             (credits <> [] -> forallb single_sign credits = true ->
              AverageCredit m
              = float64_of_Q (numeric_avg (max_dscale credits) (map amount credits)) /\
              (Qabs (numeric_avg (max_dscale credits) (map amount credits)
                     - mean (map amount credits))
               <= 1 # Z.to_pos (2 * 10 ^ avg_scale (max_dscale credits)
                                              (map amount credits)))%Q /\
              Z.min (max_dscale credits) 1000
              <= avg_scale (max_dscale credits) (map amount credits)) /\
             (debits <> [] -> forallb single_sign debits = true ->
              AverageDebit m
              = f64_neg (float64_of_Q
                           (numeric_avg (max_dscale debits) (map magnitude debits))) /\
              (Qabs (numeric_avg (max_dscale debits) (map magnitude debits)
                     - mean (map magnitude debits))
               <= 1 # Z.to_pos (2 * 10 ^ avg_scale (max_dscale debits)
                                              (map magnitude debits)))%Q /\
              Z.min (max_dscale debits) 1000
              <= avg_scale (max_dscale debits) (map magnitude debits)))
    (month_groups
       (account_rows
          [tx 1 2024 January 5 "+1.00" "ana@example.com";
           tx 2 2024 January 9 "+1.40" "ana@example.com";
           tx 3 2024 January 9 "+2.00" "ana@example.com";
           tx 4 2024 January 12 "-15.00" "ana@example.com";
           tx 5 2024 January 20 "-5.00" "ana@example.com";
           tx 6 2024 February 1 "+20.00" "ana@example.com"]
          "ana@example.com"))
    [ {| Month := "January"; TransactionCount := 5;
         AverageCredit := float64_of_Q (14666666666666667 # 10000000000000000);
         AverageDebit := float64_of_Q (-10) |};
      {| Month := "February"; TransactionCount := 1;
         AverageCredit := float64_of_Q 20;
         AverageDebit := f64_zero |} ].
Proof.
  apply (monthly_averages _ _
           {| Email := "ana@example.com"; TotalBalance := float64_of_Q (44 # 10);
              MonthlySummaries := _ |}).
  vm_compute. reflexivity.
Defined.

(** The average of +1.00, +1.40 and +2.00 is the binary64 nearest to
    1.4666666666666667, which is not the one nearest to their mean 22/15. *)
Example average_is_rounded_before_it_is_read :
  numeric_avg 2 [1; 14 # 10; 2]%Q = (14666666666666667 # 10000000000000000)%Q /\
  float64_of_Q (numeric_avg 2 [1; 14 # 10; 2]%Q)
  = S754_finite false 6605279453476728 (-52) /\
  float64_of_Q (mean [1; 14 # 10; 2]%Q) = S754_finite false 6605279453476727 (-52).
Proof. vm_compute. auto. Qed.

(** C1 as stated fails: a month with one credit and no debit reports the
    number 0 as its average debit, where the claim wants null and not 0. *)
Lemma average_debit_is_zero_without_debits :
  exists s m,
    getTransactionSummaryByEmail
      [tx 1 2024 January 5 "+30.00" "ana@example.com"] "ana@example.com" = inr s /\
    MonthlySummaries s = [m] /\
    List.filter is_debit
      (account_rows [tx 1 2024 January 5 "+30.00" "ana@example.com"]
         "ana@example.com") = [] /\
    AverageDebit m = f64_zero /\
    Q_of_float64 (AverageDebit m) = 0%Q.
Proof.
  do 2 eexists. split; [vm_compute; reflexivity|].
  split; [reflexivity|]. split; [reflexivity|]. split; reflexivity.
Qed.

(** Why the sign must occur once: [REPLACE] drops every [-], the one of the
    exponent too, so a debit of 0.01 written -1e-2 is averaged as 100. *)
Example debit_with_negative_exponent :
  signed_amount "-1e-2" = Some (- (1 # 100))%Q /\
  signed_case "-" "-1e-2" = Some (Some 100%Q).
Proof. split; reflexivity. Qed.


(** ** Effects of the persister *)

Ltac run :=
  unfold mbind, M_bind, mret, M_ret, throw, try, log, tx_Prepare, tx_Rollback,
    tx_Commit, db_Begin, stmt_Exec, record_op, set_pending, set_table in *;
  simpl in *.

Lemma check_row_inr env visible k row r :
  check_row env visible k row = inr r <->
  to_record env row = Some r /\ accepts env visible r = true.
Proof.
  unfold check_row, to_record.
  destruct row as [|id [|d [|t [|e [|x row]]]]]; try (split; [discriminate | intros [? _]; discriminate]).
  destruct (Atoi id) as [externalID|]; [|split; [discriminate | intros [? _]; discriminate]].
  destruct (date_in env d) as [d'|]; [|split; [discriminate | intros [? _]; discriminate]].
  destruct (accepts env visible _) eqn:Ha.
  - split; [intros [= <-]; auto | intros [[= <-] _]; reflexivity].
  - split; [discriminate | intros [[= <-] Hb]; congruence].
Qed.

Lemma check_row_exec env visible k row r :
  check_row env visible k row = inr r ->
  exists op, exec_op row = Some op.
Proof.
  unfold check_row, exec_op.
  destruct row as [|id [|d [|t [|e [|x row]]]]]; try discriminate.
  destruct (Atoi id); [eauto | discriminate].
Qed.

Lemma insert_rows_step env row rest i s w :
  insert_rows env (row :: rest) i s w =
  match check_row env (table w ++ pending w) (i + 1) row with
  | inr r =>
      insert_rows env rest (i + 1) ({[ email r ]} ∪ s)
        {| table := table w; pending := pending w ++ [r];
           trace := trace w ++ option_list (exec_op row);
           logs := logs w; invoked := invoked w |}
  | inl err =>
      (inl err,
       {| table := table w; pending := pending w;
          trace := trace w ++ option_list (exec_op row);
          logs := logs w; invoked := invoked w |})
  end.
Proof.
  unfold check_row, exec_op.
  destruct row as [|id [|d [|t [|e [|x row]]]]]; simpl;
    try (unfold throw; destruct w; simpl; rewrite app_nil_r; reflexivity).
  destruct (Atoi id) as [externalID|];
    [|unfold throw; destruct w; simpl; rewrite app_nil_r; reflexivity].
  run. destruct (date_in env d) as [d'|]; [|reflexivity].
  destruct (accepts env _ _); reflexivity.
Qed.

Lemma insert_rows_inv env rows : forall i s w r w',
  insert_rows env rows i s w = (r, w') ->
  table w' = table w /\ logs w' = logs w /\ invoked w' = invoked w /\
  exists n rs,
    (n <= List.length rows)%nat /\
    converts env (table w ++ pending w) (take n rows) rs /\
    pending w' = pending w ++ rs /\
    trace w' = trace w ++ omap exec_op (take (S n) rows) /\
    match r with
    | inr s' => n = List.length rows /\ s' = list_to_set (email <$> rs) ∪ s
    | inl err =>
        exists row, rows !! n = Some row /\
          check_row env (table w ++ pending w ++ rs) (i + Z.of_nat n + 1) row
            = inl err
    end.
Proof.
  induction rows as [|row rest IH]; intros i s w r w' Hrun.
  - injection Hrun as <- <-. repeat split; try reflexivity.
    exists 0%nat, []. simpl. rewrite !app_nil_r.
    repeat split; try reflexivity.
    rewrite (left_id_L ∅ (∪)). reflexivity.
  - rewrite insert_rows_step in Hrun.
    destruct (check_row env (table w ++ pending w) (i + 1) row) as [err|r0] eqn:Hrow.
    + injection Hrun as <- <-. simpl. repeat split; try reflexivity.
      exists 0%nat, []. simpl. rewrite !app_nil_r.
      repeat split; try reflexivity; [lia|].
      exists row. split; [reflexivity|].
      replace (i + Z.of_nat 0 + 1) with (i + 1) by lia. exact Hrow.
    + apply IH in Hrun. simpl in Hrun.
      destruct Hrun as (Ht & Hl & Hi & n & rs & Hn & Hconv & Hp & Htr & Hr).
      repeat split; try assumption.
      exists (S n), (r0 :: rs).
      apply check_row_inr in Hrow as Hrec. destruct Hrec as [Hrec Hacc].
      destruct (check_row_exec _ _ _ _ _ Hrow) as [op Hop].
      split; [simpl; lia|].
      split; [simpl; rewrite <- app_assoc; auto|].
      split; [rewrite Hp, <- app_assoc; reflexivity|].
      split.
      { rewrite Htr. change (take (S (S n)) (row :: rest)) with (row :: take (S n) rest).
        simpl omap at 2. rewrite Hop. simpl. rewrite <- app_assoc. reflexivity. }
      destruct r as [err|s'].
      * destruct Hr as (row' & Hlk & Hchk). exists row'. split; [exact Hlk|].
        rewrite <- Hchk. f_equal; [|lia].
        rewrite <- !app_assoc. reflexivity.
      * destruct Hr as [-> ->]. split; [reflexivity|].
        rewrite fmap_cons. simpl.
        rewrite (assoc_L (∪)), (comm_L (∪) (list_to_set _) {[ email r0 ]}).
        reflexivity.
Qed.

Lemma check_row_error env visible k row err :
  check_row env visible k row = inl err -> error_row err = Some k.
Proof.
  unfold check_row.
  destruct row as [|id [|d [|t [|e [|x row]]]]]; try (intros [= <-]; reflexivity).
  destruct (Atoi id); [|intros [= <-]; reflexivity].
  destruct (date_in env d); [|intros [= <-]; reflexivity].
  destruct (accepts env visible _); [discriminate | intros [= <-]; reflexivity].
Qed.

Lemma check_row_short env visible k row :
  len row <> 4 -> check_row env visible k row = inl (ErrColumnCount k 4 (len row)).
Proof.
  unfold check_row, len.
  destruct row as [|id [|d [|t [|e [|x row]]]]]; simpl; try reflexivity.
  intros H. exfalso. apply H. reflexivity.
Qed.

Lemma to_record_four env row r : to_record env row = Some r -> len row = 4.
Proof.
  unfold to_record.
  destruct row as [|id [|d [|t [|e [|x row]]]]]; try discriminate. reflexivity.
Qed.

Lemma to_record_id env row r : to_record env row = Some r -> id_parses row = true.
Proof.
  unfold to_record, id_parses.
  destruct row as [|id [|d [|t [|e [|x row]]]]]; try discriminate.
  destruct (Atoi id); [|discriminate]. intros _. apply bool_decide_eq_true. eauto.
Qed.

Lemma exec_op_short row : len row <> 4 -> exec_op row = None.
Proof.
  unfold exec_op, len.
  destruct row as [|id [|d [|t [|e [|x row]]]]]; simpl; try reflexivity.
  intros H. exfalso. apply H. reflexivity.
Qed.

(** Every row of a converted batch stands for the record at its place. *)
Lemma converts_lookup env rows : forall visible rs n row,
  converts env visible rows rs -> rows !! n = Some row ->
  exists r, rs !! n = Some r /\ to_record env row = Some r.
Proof.
  induction rows as [|row0 rows IH]; intros visible rs n row Hc Hl; [discriminate|].
  destruct rs as [|r0 rs]; [contradiction|].
  destruct Hc as (Hr & _ & Hc).
  destruct n as [|n]; simpl in Hl.
  - injection Hl as <-. exists r0. auto.
  - apply (IH _ _ _ _ Hc Hl).
Qed.

Lemma converts_Forall2 env rows : forall visible rs,
  converts env visible rows rs ->
  Forall2 (fun row r => to_record env row = Some r) rows rs.
Proof.
  induction rows as [|row rows IH]; intros visible [|r rs] Hc; try contradiction.
  - constructor.
  - destruct Hc as (Hr & _ & Hc). constructor; eauto.
Qed.

Lemma converts_length env rows : forall visible rs,
  converts env visible rows rs -> List.length rs = List.length rows.
Proof.
  intros visible rs Hc. symmetry. eapply Forall2_length, converts_Forall2, Hc.
Qed.

(** [insertTransactions] once the statement is prepared. *)
Lemma insertTransactions_prepared env rows w :
  prepare_ok env w = true ->
  insertTransactions env rows w = insert_rows env rows 0 ∅ (record_op OpPrepare w).
Proof. intros Hp. unfold insertTransactions. run. rewrite Hp. reflexivity. Qed.

Lemma insertTransactions_unprepared env rows w :
  prepare_ok env w = false ->
  insertTransactions env rows w = (inl ErrPrepare, record_op OpPrepare w).
Proof. intros Hp. unfold insertTransactions. run. rewrite Hp. reflexivity. Qed.

(** The transaction around [insertTransactions], outcome by outcome. *)
Lemma persist_run env rows w :
  persist env rows w =
  match insertTransactions env rows w with
  | (inl err, w1) =>
      (inl err,
       {| table := table w1; pending := []; trace := trace w1 ++ [OpRollback];
          logs := logs w1 ++ [LogRollback err]; invoked := invoked w1 |})
  | (inr emailSet, w1) =>
      if commit_ok env w1
      then (inr emailSet,
            {| table := table w1 ++ pending w1; pending := [];
               trace := trace w1 ++ [OpCommit];
               logs := logs w1; invoked := invoked w1 |})
      else (inl ErrCommit,
            {| table := table w1; pending := []; trace := trace w1 ++ [OpCommit];
               logs := logs w1 ++ [LogCommitFailed ErrCommit];
               invoked := invoked w1 |})
  end.
Proof.
  unfold persist. run.
  destruct (insertTransactions env rows w) as [[err|emailSet] w1]; simpl;
    [reflexivity|].
  destruct (commit_ok env w1); reflexivity.
Qed.

(** What [insertTransactions] leaves behind, whether or not the statement
    could be prepared. *)
Lemma insertTransactions_inv env rows w r w1 :
  insertTransactions env rows w = (r, w1) ->
  table w1 = table w /\ logs w1 = logs w /\ invoked w1 = invoked w /\
  (prepare_ok env w = false /\ r = inl ErrPrepare /\ pending w1 = pending w /\
   trace w1 = trace w ++ [OpPrepare]
   \/
   prepare_ok env w = true /\
   exists n rs,
     (n <= List.length rows)%nat /\
     converts env (table w ++ pending w) (take n rows) rs /\
     pending w1 = pending w ++ rs /\
     trace w1 = trace w ++ OpPrepare :: omap exec_op (take (S n) rows) /\
     match r with
     | inr s' => n = List.length rows /\ s' = list_to_set (email <$> rs)
     | inl err =>
         exists row, rows !! n = Some row /\
           check_row env (table w ++ pending w ++ rs) (Z.of_nat n + 1) row
             = inl err
     end).
Proof.
  intros Hrun. destruct (prepare_ok env w) eqn:Hp.
  - rewrite insertTransactions_prepared in Hrun by exact Hp.
    apply insert_rows_inv in Hrun. simpl in Hrun.
    destruct Hrun as (Ht & Hl & Hi & n & rs & Hn & Hc & Hpe & Htr & Hr).
    repeat split; try assumption. right. split; [reflexivity|].
    exists n, rs. repeat split; try assumption.
    + rewrite Htr, <- app_assoc. reflexivity.
    + destruct r as [err|s']; [exact Hr|].
      destruct Hr as [-> ->]. split; [reflexivity|].
      apply (right_id_L ∅ (∪)).
  - rewrite insertTransactions_unprepared in Hrun by exact Hp.
    injection Hrun as <- <-. simpl. repeat split; try reflexivity.
    left. auto.
Qed.

Lemma converts_check env rows : forall visible rs n row k,
  converts env visible rows rs -> rows !! n = Some row ->
  exists r, rs !! n = Some r /\
    check_row env (visible ++ take n rs) k row = inr r.
Proof.
  induction rows as [|row0 rows IH]; intros visible rs n row k Hc Hl; [discriminate|].
  destruct rs as [|r0 rs]; [contradiction|].
  destruct Hc as (Hr & Ha & Hc).
  destruct n as [|n]; simpl in Hl.
  - injection Hl as <-. exists r0. split; [reflexivity|].
    simpl. rewrite app_nil_r. apply check_row_inr. auto.
  - destruct (IH _ _ _ _ k Hc Hl) as (r & Hlk & Hchk).
    exists r. split; [exact Hlk|].
    simpl. rewrite <- Hchk. f_equal. rewrite <- app_assoc. reflexivity.
Qed.

Lemma converts_take env rows : forall visible rs n,
  converts env visible rows rs -> converts env visible (take n rows) (take n rs).
Proof.
  induction rows as [|row rows IH]; intros visible [|r rs] n Hc; try contradiction.
  - destruct n; exact I.
  - destruct n as [|n]; [exact I|].
    destruct Hc as (Hr & Ha & Hc). simpl. auto.
Qed.

Lemma converts_inj env rows : forall visible rs rs',
  converts env visible rows rs -> converts env visible rows rs' -> rs = rs'.
Proof.
  induction rows as [|row rows IH]; intros visible [|r rs] [|r' rs'] Hc Hc';
    try contradiction; [reflexivity|].
  destruct Hc as (Hr & _ & Hc), Hc' as (Hr' & _ & Hc').
  assert (r' = r) as -> by congruence.
  f_equal. eapply IH; eassumption.
Qed.

Lemma converts_ids env rows : forall visible rs,
  converts env visible rows rs -> forallb id_parses rows = true.
Proof.
  induction rows as [|row rows IH]; intros visible [|r rs] Hc; try contradiction;
    [reflexivity|].
  destruct Hc as (Hr & _ & Hc). simpl.
  rewrite (to_record_id _ _ _ Hr). simpl. eapply IH, Hc.
Qed.

(** A batch that converts as a whole is inserted as a whole. *)
Lemma insertTransactions_converts env rows rs w r w1 :
  converts env (table w ++ pending w) rows rs ->
  prepare_ok env w = true ->
  insertTransactions env rows w = (r, w1) ->
  r = inr (list_to_set (email <$> rs)) /\ table w1 = table w /\
  pending w1 = pending w ++ rs /\
  trace w1 = trace w ++ OpPrepare :: omap exec_op rows.
Proof.
  intros Hc Hp Hrun.
  destruct (insertTransactions_inv _ _ _ _ _ Hrun)
    as (Ht & _ & _ & [(Hp' & _)|(_ & n & rs' & Hn & Hc' & Hpe & Htr & Hr)]);
    [congruence|].
  assert (rs' = take n rs) as ->
    by (eapply converts_inj; [exact Hc'|apply converts_take, Hc]).
  destruct r as [err|s'].
  - destruct Hr as (row & Hl & Hchk).
    destruct (converts_check _ _ _ _ _ _ (Z.of_nat n + 1) Hc Hl) as (r & _ & Hok).
    rewrite <- app_assoc in Hok. congruence.
  - destruct Hr as [-> ->].
    rewrite take_ge in Hpe by (rewrite (converts_length _ _ _ _ Hc); lia).
    rewrite take_ge by (rewrite (converts_length _ _ _ _ Hc); lia).
    rewrite take_ge in Htr by lia. auto.
Qed.

(** The row an error of the loop names is the first one the loop refuses. *)
Lemma insertTransactions_error env rows w err w1 :
  prepare_ok env w = true ->
  insertTransactions env rows w = (inl err, w1) ->
  exists n row rs,
    rows !! n = Some row /\
    error_row err = Some (Z.of_nat n + 1) /\
    converts env (table w ++ pending w) (take n rows) rs /\
    check_row env (table w ++ pending w ++ rs) (Z.of_nat n + 1) row = inl err /\
    table w1 = table w /\ pending w1 = pending w ++ rs /\
    trace w1 = trace w ++ OpPrepare :: omap exec_op (take (S n) rows).
Proof.
  intros Hp Hrun.
  destruct (insertTransactions_inv _ _ _ _ _ Hrun)
    as (Ht & _ & _ & [(Hp' & _)|(_ & n & rs & Hn & Hc & Hpe & Htr & row & Hl & Hchk)]);
    [congruence|].
  exists n, row, rs. repeat split; try assumption.
  eapply check_row_error, Hchk.
Qed.

Lemma check_row_bad_id env visible k row :
  id_parses row = false -> four_fields row = true ->
  check_row env visible k row = inl (ErrExternalID k).
Proof.
  unfold id_parses, four_fields, check_row, len.
  destruct row as [|id [|d [|t [|e [|x row]]]]]; cbn [List.length]; intros Hid H4;
    try (apply Z.eqb_eq in H4; lia).
  destruct (Atoi id); [|reflexivity].
  apply bool_decide_eq_false in Hid. exfalso. apply Hid. eauto.
Qed.

(** ** C2: the transaction commits the whole batch or nothing *)

(** C2 (as amended). [persist] is atomic: afterwards the table is either the
    one before, or the one before followed by one record for every row of the
    batch, in order, and no insert is left pending. If the id of some row is
    no integer, an error is returned, the transaction is rolled back and the
    table is the one before. That error is the prepare error when the
    statement could not be prepared; when it could, it is the error of the
    first row the loop refuses and it names the 1-based number of that row:
    every row before that one was accepted, that row is at or before every
    row with such an id, and when it has four fields and such an id itself the
    error is the id error. If every row of the batch converts and is accepted
    by the table, then, when the statement could be prepared, either all rows
    are committed and the set of their emails is returned, or the commit
    itself fails and the table is the one before; when the statement could
    not be prepared, the prepare error is returned and the table is the one
    before. *)
Theorem persist_atomic env rows w r w' :
  persist env rows w = (r, w') ->
  pending w' = [] /\
  (table w' = table w \/
   exists rs, converts env (table w ++ pending w) rows rs /\
     r = inr (list_to_set (email <$> rs)) /\
     table w' = table w ++ pending w ++ rs) /\
  (forallb id_parses rows = false ->
   exists err, r = inl err /\ table w' = table w /\
     last (trace w') = Some OpRollback /\
     (prepare_ok env w = false -> err = ErrPrepare) /\
     (prepare_ok env w = true ->
      exists n row rs,
        rows !! n = Some row /\
        converts env (table w ++ pending w) (take n rows) rs /\
        check_row env (table w ++ pending w ++ rs) (Z.of_nat n + 1) row = inl err /\
        error_row err = Some (Z.of_nat n + 1) /\
        (forall m row', rows !! m = Some row' -> id_parses row' = false ->
           (n <= m)%nat) /\
        (id_parses row = false -> four_fields row = true ->
         err = ErrExternalID (Z.of_nat n + 1)))) /\
  (forall rs, converts env (table w ++ pending w) rows rs ->
   (prepare_ok env w = true ->
    (r = inr (list_to_set (email <$> rs)) /\
     table w' = table w ++ pending w ++ rs /\
     last (trace w') = Some OpCommit) \/
    (r = inl ErrCommit /\ table w' = table w)) /\
   (prepare_ok env w = false -> r = inl ErrPrepare /\ table w' = table w)).
Proof.
  intros Hrun. rewrite persist_run in Hrun.
  destruct (insertTransactions env rows w) as [[err|emailSet] w1] eqn:Hins.
  - injection Hrun as <- <-. simpl.
    destruct (insertTransactions_inv _ _ _ _ _ Hins) as (Ht & _).
    split; [reflexivity|]. split; [left; exact Ht|]. split.
    + intros _. exists err. split; [reflexivity|]. split; [exact Ht|].
      split; [apply last_snoc|]. split.
      { intros Hp. rewrite insertTransactions_unprepared in Hins by exact Hp.
        congruence. }
      intros Hp.
      destruct (insertTransactions_error _ _ _ _ _ Hp Hins)
        as (n & row & rs & Hl & Herr & Hc & Hchk & _).
      exists n, row, rs.
      split; [exact Hl|]. split; [exact Hc|]. split; [exact Hchk|].
      split; [exact Herr|]. split.
      * intros m row' Hl' Hbad.
        destruct (decide (m < n)%nat) as [Hmn|Hmn]; [|lia].
        exfalso.
        assert (take n rows !! m = Some row') as Hl''
          by (rewrite lookup_take_lt by exact Hmn; exact Hl').
        destruct (converts_lookup _ _ _ _ _ _ Hc Hl'') as (r0 & _ & Hr0).
        apply to_record_id in Hr0. congruence.
      * intros Hid H4.
        rewrite (check_row_bad_id _ _ _ _ Hid H4) in Hchk. congruence.
    + intros rs Hc. split.
      * intros Hp.
        destruct (insertTransactions_converts _ _ _ _ _ _ Hc Hp Hins) as [? _].
        discriminate.
      * intros Hp. rewrite insertTransactions_unprepared in Hins by exact Hp.
        split; [congruence | exact Ht].
  - destruct (insertTransactions_inv _ _ _ _ _ Hins)
      as (Ht & _ & _ & [(_ & ? & _)|(Hp & n & rs & Hn & Hc & Hpe & Htr & -> & ->)]);
      [discriminate|].
    rewrite take_ge in Hc by lia.
    pose proof (converts_ids _ _ _ _ Hc) as Hids.
    destruct (commit_ok env w1); injection Hrun as <- <-; simpl.
    + split; [reflexivity|]. split.
      { right. exists rs. rewrite Ht, Hpe, app_assoc. auto. }
      split; [congruence|].
      intros rs' Hc'. split; [|congruence]. intros _. left.
      rewrite (converts_inj _ _ _ _ _ Hc' Hc).
      rewrite Ht, Hpe, app_assoc, last_snoc. auto.
    + split; [reflexivity|]. split; [left; exact Ht|].
      split; [congruence|].
      intros rs' _. split; [|congruence]. intros _. right. auto.
Qed.

Lemma persist_atomic_witness :
  (persist (example_env no_objects) bad_id_batch initial_world).1
    = inl (ErrExternalID 2) /\
  table (persist (example_env no_objects) bad_id_batch initial_world).2 = [] /\
  (exists rs,
     (persist (example_env no_objects) good_batch initial_world).1
       = inr (list_to_set (email <$> rs)) /\
     table (persist (example_env no_objects) good_batch initial_world).2 = rs /\
     List.length rs = 3%nat).
Proof.
  split; [|split].
  - destruct (persist_atomic (example_env no_objects) bad_id_batch initial_world
                (persist (example_env no_objects) bad_id_batch initial_world).1
                (persist (example_env no_objects) bad_id_batch initial_world).2)
      as (_ & _ & Hbad & _); [vm_compute; reflexivity|].
    destruct (Hbad eq_refl) as (err & Herr & _ & _ & _ & Hrow).
    destruct (Hrow eq_refl) as (n & row & rs & Hl & Hc & Hchk & _ & Hfirst & Hid).
    assert (n <= 1)%nat as Hn by (apply (Hfirst 1%nat _ eq_refl); reflexivity).
    rewrite Herr. f_equal.
    destruct n as [|[|n]]; [| |lia].
    + exfalso. injection Hl as <-. destruct rs; [|contradiction].
      vm_compute in Hchk. discriminate.
    + injection Hl as <-. apply Hid; reflexivity.
  - destruct (persist_atomic (example_env no_objects) bad_id_batch initial_world
                (persist (example_env no_objects) bad_id_batch initial_world).1
                (persist (example_env no_objects) bad_id_batch initial_world).2)
      as (_ & _ & Hbad & _); [vm_compute; reflexivity|].
    destruct (Hbad eq_refl) as (err & _ & Ht & _). exact Ht.
  - set (rs := [tx 1 2024 January 15 "+30.00" "ana@example.com";
                tx 2 2024 January 20 "-15.00" "ana@example.com";
                tx 3 2024 February 3 "+20.00" "luis@example.com"]).
    destruct (persist_atomic (example_env no_objects) good_batch initial_world
                (persist (example_env no_objects) good_batch initial_world).1
                (persist (example_env no_objects) good_batch initial_world).2)
      as (_ & _ & _ & Hgood); [vm_compute; reflexivity|].
    destruct (Hgood rs) as [Hprep _]; [vm_compute; tauto|].
    destruct (Hprep eq_refl) as [(Hr & Ht & _)|(Hr & _)].
    + exists rs. auto.
    + vm_compute in Hr. discriminate.
Defined.

(** C2, counterexample to the claim as worded: every id of the batch is an
    integer, but the date of the second row is not a date; the insert of that
    row fails, the transaction is rolled back and no row is committed. *)
Theorem every_id_parses_yet_nothing_committed :
  forallb four_fields bad_date_batch = true /\
  forallb id_parses bad_date_batch = true /\
  (persist (example_env no_objects) bad_date_batch initial_world).1
    = inl (ErrInsert 2) /\
  table (persist (example_env no_objects) bad_date_batch initial_world).2 = [].
Proof. vm_compute. auto. Qed.

(** ** C10: the field count is checked again, row by row *)

(** C10 (as amended). A batch with a row of another length than 4, at index
    [n]: [insertTransactions] returns an error, and the [stmt.Exec] calls it
    has made are those of rows before index [n]: none for the short row, none
    for a later one. [persist] then returns the same error, rolls the
    transaction back and leaves the table as it was. Which error: the prepare
    error, which names no row, when the statement could not be prepared;
    otherwise the error of the first row the loop refuses, with the 1-based
    number of that row, which is at most [n + 1]. When every row before the
    short one is accepted, that error is the column count error of row
    [n + 1], with the length of the short row. *)
Theorem field_count_rechecked env rows n row w r w1 r' w' :
  rows !! n = Some row -> len row <> 4 ->
  insertTransactions env rows w = (r, w1) ->
  persist env rows w = (r', w') ->
  exists err,
    r = inl err /\
    (exists m, (m <= n)%nat /\
       trace w1 = trace w ++ OpPrepare :: omap exec_op (take m rows)) /\
    r' = inl err /\ table w' = table w /\ pending w' = [] /\
    trace w' = trace w1 ++ [OpRollback] /\
    (prepare_ok env w = false -> err = ErrPrepare /\ error_row err = None) /\
    (prepare_ok env w = true ->
     (exists k row0 rs,
        (k <= n)%nat /\ rows !! k = Some row0 /\
        converts env (table w ++ pending w) (take k rows) rs /\
        check_row env (table w ++ pending w ++ rs) (Z.of_nat k + 1) row0 = inl err /\
        error_row err = Some (Z.of_nat k + 1)) /\
     (forall rs, converts env (table w ++ pending w) (take n rows) rs ->
        err = ErrColumnCount (Z.of_nat n + 1) 4 (len row))).
Proof.
  intros Hl Hshort Hins Hrun.
  rewrite persist_run, Hins in Hrun.
  destruct (prepare_ok env w) eqn:Hp.
  - destruct r as [err|s'].
    + injection Hrun as <- <-. simpl.
      destruct (insertTransactions_error _ _ _ _ _ Hp Hins)
        as (n0 & row0 & rs & Hl0 & Herr & Hc & Hchk & Ht & _ & Htr).
      assert (n0 <= n)%nat as Hle.
      { destruct (decide (n < n0)%nat) as [Hlt|]; [|lia]. exfalso.
        assert (take n0 rows !! n = Some row) as Hl'
          by (rewrite lookup_take_lt by exact Hlt; exact Hl).
        destruct (converts_lookup _ _ _ _ _ _ Hc Hl') as (r0 & _ & Hr0).
        apply to_record_four in Hr0. contradiction. }
      exists err. split; [reflexivity|]. split.
      { destruct (decide (n0 = n)) as [->|Hne].
        - exists n. split; [lia|]. rewrite Htr. do 2 f_equal.
          rewrite (take_S_r _ _ _ Hl), omap_app. simpl.
          rewrite exec_op_short by exact Hshort. apply app_nil_r.
        - exists (S n0). split; [lia | exact Htr]. }
      split; [reflexivity|]. split; [exact Ht|].
      split; [reflexivity|]. split; [reflexivity|].
      split; [discriminate|]. intros _. split.
      * exists n0, row0, rs. auto.
      * intros rs' Hc'.
        destruct (decide (n0 = n)) as [->|Hne].
        -- assert (row0 = row) as -> by congruence.
           rewrite check_row_short in Hchk by exact Hshort. congruence.
        -- exfalso.
           assert (take n rows !! n0 = Some row0) as Hl'
             by (rewrite lookup_take_lt by lia; exact Hl0).
           destruct (converts_check _ _ _ _ _ _ (Z.of_nat n0 + 1) Hc' Hl')
             as (r0 & _ & Hok).
           assert (take n0 rs' = rs) as Hrs.
           { eapply converts_inj; [|exact Hc].
             pose proof (converts_take _ _ _ _ n0 Hc') as Hc''.
             rewrite take_take, Nat.min_l in Hc'' by lia. exact Hc''. }
           rewrite Hrs, <- app_assoc in Hok. congruence.
    + exfalso.
      destruct (insertTransactions_inv _ _ _ _ _ Hins)
        as (_ & _ & _ & [(_ & ? & _)|(_ & n0 & rs & _ & Hc & _ & _ & -> & _)]);
        [discriminate|].
      rewrite take_ge in Hc by lia.
      destruct (converts_lookup _ _ _ _ _ _ Hc Hl) as (r0 & _ & Hr0).
      apply to_record_four in Hr0. contradiction.
  - rewrite insertTransactions_unprepared in Hins by exact Hp.
    injection Hins as <- <-. injection Hrun as <- <-. simpl.
    exists ErrPrepare. split; [reflexivity|]. split.
    { exists 0%nat. split; [lia | reflexivity]. }
    split; [reflexivity|]. split; [reflexivity|].
    split; [reflexivity|]. split; [reflexivity|].
    split; [auto | discriminate].
Qed.

Lemma field_count_rechecked_witness :
  let env := example_env no_objects in
  let out := insertTransactions env short_row_batch initial_world in
  let out' := persist env short_row_batch initial_world in
  out.1 = inl (ErrColumnCount 2 4 3) /\ out'.1 = inl (ErrColumnCount 2 4 3) /\
  table out'.2 = [] /\
  trace out.2 = [OpPrepare; OpExec 1 "2024-01-15" "+30.00" "ana@example.com"].
Proof.
  intros env out out'.
  destruct (field_count_rechecked env short_row_batch 1
              ["2"; "2024-01-20"; "-15.00"] initial_world out.1 out.2 out'.1 out'.2)
    as (err & Hr & _ & Hr' & Ht & _ & _ & _ & Hprep).
  - reflexivity.
  - vm_compute. discriminate.
  - vm_compute. reflexivity.
  - vm_compute. reflexivity.
  - destruct (Hprep eq_refl) as [_ Hcol].
    assert (err = ErrColumnCount 2 4 3) as ->.
    { apply (Hcol [tx 1 2024 January 15 "+30.00" "ana@example.com"]).
      vm_compute. tauto. }
    split; [exact Hr|]. split; [exact Hr'|]. split; [exact Ht|]. reflexivity.
Defined.

(** C10, counterexample to the claim as worded. The batch holds a row of
    three fields, yet the error [insertTransactions] returns names no row
    when the statement cannot be prepared; and with the statement prepared
    and a row before the short one that is refused, here for its id, the
    error names that row and is no column count error. *)
Theorem short_row_error_names_another_row_or_none :
  (exists row, short_row_batch !! 1%nat = Some row /\ len row <> 4) /\
  (insertTransactions unprepared_env short_row_batch initial_world).1
    = inl ErrPrepare /\
  error_row ErrPrepare = None /\
  (exists row, late_short_row_batch !! 1%nat = Some row /\ len row <> 4) /\
  (insertTransactions (example_env no_objects) late_short_row_batch initial_world).1
    = inl (ErrExternalID 1).
Proof.
  split; [eexists; split; [reflexivity | vm_compute; discriminate]|].
  split; [reflexivity|]. split; [reflexivity|].
  split; [eexists; split; [reflexivity | vm_compute; discriminate]|].
  vm_compute. reflexivity.
Qed.

(** ** Effects of the validator and of the summary loop *)

Lemma logged_nil w : logged [] w = w.
Proof. unfold logged. destruct w; simpl. rewrite app_nil_r. reflexivity. Qed.

Lemma logged_logged l1 l2 w : logged l2 (logged l1 w) = logged (l1 ++ l2) w.
Proof. unfold logged. simpl. rewrite app_assoc. reflexivity. Qed.

Lemma log_run e w : log e w = (inr tt, logged [e] w).
Proof. reflexivity. Qed.

Lemma read_rows_run stream : forall lineNum rows w,
  read_rows stream lineNum rows w
  = (inr (rows ++ valid_rows stream), logged (warnings (lineNum + 1) stream) w).
Proof.
  induction stream as [|[record err] rest IH]; intros lineNum rows w.
  - simpl. rewrite app_nil_r, logged_nil. reflexivity.
  - unfold valid_rows. rewrite bind_cons. fold (valid_rows rest).
    cbn [read_rows warnings]. unfold valid_result, warning_of. cbn [fst snd].
    destruct err as [err|].
    + unfold mbind at 1, M_bind. rewrite log_run, IH, logged_logged. reflexivity.
    + destruct (len record =? 4).
      * rewrite IH, <- app_assoc. reflexivity.
      * unfold mbind at 1, M_bind. rewrite log_run, IH, logged_logged. reflexivity.
Qed.

Lemma processCSVFile_run env bucket key header rest w :
  GetObject env bucket key = Some ((header, None) :: rest) ->
  len header = 4 ->
  processCSVFile env bucket key w
  = (inr (valid_rows rest),
     logged (LogProcessingFile bucket key :: warnings 2 rest
             ++ [LogProcessingComplete (len (valid_rows rest))]) w).
Proof.
  intros Hobj Hlen. unfold processCSVFile. rewrite Hobj, Hlen. simpl.
  unfold mbind, M_bind. rewrite log_run, read_rows_run, log_run.
  simpl. unfold mret, M_ret. rewrite !logged_logged. reflexivity.
Qed.

Lemma processCSVFile_bad_header env bucket key stream :
  GetObject env bucket key = Some stream ->
  bad_header stream ->
  exists err, SchemaError err /\
    forall w, processCSVFile env bucket key w
              = (inl err, logged [LogProcessingFile bucket key] w).
Proof.
  intros Hobj Hbad. unfold processCSVFile. rewrite Hobj.
  unfold mbind, M_bind.
  destruct stream as [|[header [err|]] rest].
  - exists ErrHeaderRead. split; [left; reflexivity | reflexivity].
  - exists ErrHeaderRead. split; [left; reflexivity | reflexivity].
  - simpl in Hbad. exists (ErrHeaderColumns (len header)).
    split; [right; eauto|]. intros w. rewrite log_run.
    destruct (len header =? 4) eqn:H4; [lia | reflexivity].
Qed.

Lemma omap_cons {A B} (f : A -> option B) x l :
  omap f (x :: l) = option_list (f x) ++ omap f l.
Proof. simpl. destruct (f x); reflexivity. Qed.

Lemma collect_summaries_run emails : forall summaries w,
  collect_summaries emails summaries w
  = (inr (summaries ++ omap (summary_of (table w)) emails),
     logged (omap (summary_failure (table w)) emails) w).
Proof.
  induction emails as [|e rest IH]; intros summaries w.
  - simpl. rewrite app_nil_r, logged_nil. reflexivity.
  - rewrite !omap_cons. cbn [collect_summaries].
    unfold summary_of at 1, summary_failure at 1.
    destruct (getTransactionSummaryByEmail (table w) e) as [err|summary].
    + unfold mbind at 1, M_bind. rewrite log_run, IH, logged_logged. reflexivity.
    + rewrite IH, <- app_assoc. reflexivity.
Qed.

(** ** The orchestrator, step by step *)

Lemma process_record_run env record summaries w :
  process_record env record summaries w =
  match processCSVFile env (Bucket record) (Key record) w with
  | (inl err, w1) => (inl err, logged [LogCSVError err] w1)
  | (inr rows, w1) =>
      if begin_ok env w1 then
        match persist env rows (set_pending [] (record_op OpBegin w1)) with
        | (inl err, w2) => (inl err, w2)
        | (inr emailSet, w2) =>
            collect_summaries (map_range env emailSet) summaries
              (logged [LogInserted (len rows) (Bucket record) (Key record)] w2)
        end
      else (inl ErrBegin, logged [LogBeginFailed ErrBegin] w1)
  end.
Proof.
  unfold process_record, mbind, M_bind, try, db_Begin.
  destruct (processCSVFile env (Bucket record) (Key record) w) as [[err|rows] w1];
    [reflexivity|].
  destruct (begin_ok env w1); [|reflexivity].
  destruct (persist env rows _) as [[err|emailSet] w2]; reflexivity.
Qed.

Lemma handler_run env s3Event w :
  handler env s3Event w =
  if connection_ok env then
    match process_records env s3Event [] (logged [LogStarted] w) with
    | (inl err, w1) => (inl err, w1)
    | (inr summaries, w1) =>
        match invokeNotificationLambda env summaries w1 with
        | (inl err, w2) => (inl err, logged [LogInvokeError err] w2)
        | (inr _, w2) => (inr tt, logged [LogFinished] w2)
        end
    end
  else (inl ErrConnection, logged [LogStarted; LogConnectionError ErrConnection] w).
Proof.
  unfold handler, mbind, M_bind, try. rewrite log_run.
  destruct (connection_ok env); [|rewrite log_run, logged_logged; reflexivity].
  destruct (process_records env s3Event [] _) as [[err|summaries] w1]; [reflexivity|].
  destruct (invokeNotificationLambda env summaries w1) as [[err|[]] w2]; reflexivity.
Qed.

Lemma invokeNotificationLambda_inv env summaries w r w' :
  invokeNotificationLambda env summaries w = (r, w') ->
  table w' = table w /\ pending w' = pending w /\ trace w' = trace w.
Proof.
  unfold invokeNotificationLambda, throw.
  destruct (forallb marshals summaries); [|intros [= <- <-]; auto].
  destruct (invoke_ok env w); intros [= <- <-]; auto.
Qed.

(** ** C6: a bad header stops the run before the database is touched *)

(** C6. The object of an S3 record whose header cannot be read (the first
    read fails, or the object is empty) or has another number of columns than
    4: [processCSVFile] returns the header error, and a run of [handler] on
    an event that starts with this record fails, with that error when the
    connection could be opened. The run leaves the table, the pending inserts
    and the list of database calls as they were: no transaction is begun, no
    row is inserted, and the notification Lambda is not invoked. *)
Theorem bad_header_fails_the_run env record rest stream w :
  GetObject env (Bucket record) (Key record) = Some stream ->
  bad_header stream ->
  exists err w1 w2,
    SchemaError err /\
    processCSVFile env (Bucket record) (Key record) w = (inl err, w1) /\
    handler env (record :: rest) w
    = (inl (if connection_ok env then err else ErrConnection), w2) /\
    table w2 = table w /\ pending w2 = pending w /\ trace w2 = trace w /\
    invoked w2 = invoked w.
Proof.
  intros Hobj Hbad.
  destruct (processCSVFile_bad_header env _ _ _ Hobj Hbad) as (err & Hs & Hrun).
  rewrite handler_run.
  destruct (connection_ok env).
  - exists err. eexists. eexists. split; [exact Hs|]. split; [apply Hrun|].
    cbn [process_records]. unfold mbind at 1, M_bind.
    rewrite process_record_run, Hrun. simpl.
    split; [reflexivity|]. repeat split.
  - exists err. eexists. eexists. split; [exact Hs|]. split; [apply Hrun|].
    simpl. split; [reflexivity|]. repeat split.
Qed.

Lemma bad_header_fails_the_run_witness :
  let env := example_env (one_object "uploads" "txns.csv" short_header_csv) in
  exists err w1 w2,
    SchemaError err /\
    processCSVFile env "uploads" "txns.csv" initial_world = (inl err, w1) /\
    handler env [example_record] initial_world = (inl err, w2) /\
    table w2 = [] /\ pending w2 = [] /\ trace w2 = [] /\ invoked w2 = [].
Proof.
  intros env.
  apply (bad_header_fails_the_run env example_record [] short_header_csv initial_world).
  - reflexivity.
  - vm_compute. discriminate.
Defined.

Lemma persist_success env rows w emailSet w' :
  persist env rows w = (inr emailSet, w') ->
  exists rs, converts env (table w ++ pending w) rows rs /\
    emailSet = list_to_set (email <$> rs) /\
    table w' = table w ++ pending w ++ rs /\ pending w' = [].
Proof.
  intros Hrun. rewrite persist_run in Hrun.
  destruct (insertTransactions env rows w) as [[err|s'] w1] eqn:Hins; [discriminate|].
  destruct (insertTransactions_inv _ _ _ _ _ Hins)
    as (Ht & _ & _ & [(_ & ? & _)|(_ & n & rs & _ & Hc & Hpe & _ & -> & ->)]);
    [discriminate|].
  rewrite take_ge in Hc by lia.
  destruct (commit_ok env w1); [|discriminate].
  injection Hrun as <- <-. simpl.
  exists rs. rewrite Ht, Hpe, app_assoc. auto.
Qed.

Lemma persist_failure env rows w err w' :
  persist env rows w = (inl err, w') -> table w' = table w /\ pending w' = [].
Proof.
  intros Hrun. rewrite persist_run in Hrun.
  destruct (insertTransactions env rows w) as [[err'|s'] w1] eqn:Hins;
    destruct (insertTransactions_inv _ _ _ _ _ Hins) as (Ht & _).
  - injection Hrun as <- <-. auto.
  - destruct (commit_ok env w1); [discriminate|]. injection Hrun as <- <-. auto.
Qed.

Lemma valid_rows_cons r stream :
  valid_rows (r :: stream)
  = (if valid_result r then [r.1] else []) ++ valid_rows stream.
Proof. reflexivity. Qed.

Lemma elem_of_valid_rows stream row :
  row ∈ valid_rows stream <-> (row, None) ∈ stream /\ len row = 4.
Proof.
  induction stream as [|[record err] rest IH].
  - split; [intros H; inversion H | intros [H _]; inversion H].
  - rewrite valid_rows_cons, elem_of_app, IH, elem_of_cons.
    unfold valid_result. cbn [fst snd].
    destruct err as [err|].
    + split.
      * intros [H|[H H4]]; [inversion H | auto].
      * intros [[H|H] H4]; [discriminate | auto].
    + destruct (len record =? 4) eqn:Hlen.
      * split.
        -- intros [H|[H H4]]; [|auto].
           apply list_elem_of_singleton in H as ->. split; [auto | lia].
        -- intros [[H|H] H4]; [|auto].
           injection H as ->. left. apply list_elem_of_singleton. reflexivity.
      * split.
        -- intros [H|[H H4]]; [inversion H | auto].
        -- intros [[H|H] H4]; [|auto]. injection H as ->. lia.
Qed.

Lemma valid_rows_sublist stream : valid_rows stream `sublist_of` stream.*1.
Proof.
  induction stream as [|r rest IH]; [constructor|].
  rewrite valid_rows_cons, fmap_cons.
  destruct (valid_result r); simpl; [apply sublist_skip | apply sublist_cons]; exact IH.
Qed.

(** ** C7: malformed data lines are skipped, the others are stored *)

(** C7. The object of an S3 record with a header of four columns:
    [processCSVFile] succeeds and returns the records of the data lines that
    were read without error and have four fields, in the order of the file;
    it logs one warning for each other line, with its line number, between
    its first and its last log line, and changes nothing else. A run of
    [handler] on this one record that succeeds leaves the table as the one
    before followed by one record per returned row, in order, each being its
    row with the id read as an integer and the date as a date: a line with
    another field count is not in the table. *)
Theorem malformed_rows_are_skipped env record header rest w :
  GetObject env (Bucket record) (Key record) = Some ((header, None) :: rest) ->
  len header = 4 ->
  processCSVFile env (Bucket record) (Key record) w
  = (inr (valid_rows rest),
     logged (LogProcessingFile (Bucket record) (Key record) :: warnings 2 rest
             ++ [LogProcessingComplete (len (valid_rows rest))]) w) /\
  valid_rows rest `sublist_of` rest.*1 /\
  (forall row, row ∈ valid_rows rest <-> (row, None) ∈ rest /\ len row = 4) /\
  (forall w', handler env [record] w = (inr tt, w') ->
     exists rs, table w' = table w ++ rs /\
       Forall2 (fun row r => to_record env row = Some r) (valid_rows rest) rs).
Proof.
  intros Hobj Hlen.
  split; [apply (processCSVFile_run _ _ _ header); assumption|].
  split; [apply valid_rows_sublist|].
  split; [intros row; apply elem_of_valid_rows|].
  intros w' Hrun. rewrite handler_run in Hrun.
  destruct (connection_ok env); [|discriminate].
  cbn [process_records] in Hrun. unfold mbind at 1, M_bind in Hrun.
  rewrite process_record_run in Hrun.
  rewrite (processCSVFile_run _ _ _ _ _ _ Hobj Hlen) in Hrun.
  destruct (begin_ok env _); [|discriminate].
  destruct (persist env _ _) as [[err|emailSet] w2] eqn:Hper; [discriminate|].
  apply persist_success in Hper as (rs & Hc & _ & Ht & _). simpl in Ht.
  rewrite collect_summaries_run in Hrun. unfold mret, M_ret in Hrun.
  destruct (invokeNotificationLambda env _ _) as [[err|[]] w3] eqn:Hinv;
    [discriminate|].
  apply invokeNotificationLambda_inv in Hinv as (Ht3 & _).
  injection Hrun as <-. simpl. exists rs.
  split; [rewrite Ht3; simpl; exact Ht|].
  eapply converts_Forall2, Hc.
Qed.

Lemma malformed_rows_are_skipped_witness :
  let env := example_env (one_object "uploads" "txns.csv" example_csv) in
  valid_rows (tail example_csv)
  = [["1"; "2024-01-15"; "+30.00"; "ana@example.com"];
     ["3"; "2024-02-03"; "-15.00"; "luis@example.com"]] /\
  logs (processCSVFile env "uploads" "txns.csv" initial_world).2
  = [LogProcessingFile "uploads" "txns.csv"; LogReadWarning 3; LogReadWarning 4;
     LogProcessingComplete 2] /\
  exists rs, table (handler env [example_record] initial_world).2 = rs /\
    Forall2 (fun row r => to_record env row = Some r) (valid_rows (tail example_csv)) rs.
Proof.
  intros env.
  destruct (malformed_rows_are_skipped env example_record
              ["id"; "date"; "transaction"; "email"] (tail example_csv) initial_world)
    as (Hrun & _ & _ & Hstore); [reflexivity | reflexivity |].
  split; [reflexivity|].
  split; [change "uploads" with (Bucket example_record);
          change "txns.csv" with (Key example_record); rewrite Hrun; reflexivity|].
  destruct (Hstore (handler env [example_record] initial_world).2) as (rs & Ht & Hrs).
  - vm_compute. reflexivity.
  - exists rs. split; [exact Ht | exact Hrs].
Defined.

(** ** C9: an account whose summary fails is skipped *)

Lemma elem_of_omap_summary (db : Table) (emails : list string) s :
  s ∈ omap (summary_of db) emails <->
  exists e, e ∈ emails /\ getTransactionSummaryByEmail db e = inr s.
Proof.
  rewrite list_elem_of_omap. unfold summary_of.
  split; intros (e & He & Hs); exists e; (split; [exact He|]).
  - destruct (getTransactionSummaryByEmail db e); congruence.
  - rewrite Hs. reflexivity.
Qed.

(** C9. The loop over the email set that [persist] returned, when it visits
    every email of the set once: it never fails and changes nothing but the
    log; it appends to the summaries, in the order of the visit, the summary
    of each account whose [getTransactionSummaryByEmail] call succeeds and
    nothing else, so that a summary is added exactly when it is the one of
    an account of the set; and for each account whose call fails the error is
    logged with the email. *)
Theorem failed_summaries_are_skipped env emailSet summaries w :
  map_range env emailSet ≡ₚ elements emailSet ->
  exists added w',
    collect_summaries (map_range env emailSet) summaries w
    = (inr (summaries ++ added), w') /\
    added = omap (summary_of (table w)) (map_range env emailSet) /\
    table w' = table w /\ pending w' = pending w /\ trace w' = trace w /\
    invoked w' = invoked w /\
    (forall s, s ∈ added <->
       exists e, e ∈ emailSet /\ getTransactionSummaryByEmail (table w) e = inr s) /\
    (forall e err, e ∈ emailSet ->
       getTransactionSummaryByEmail (table w) e = inl err ->
       LogSummaryError e err ∈ logs w').
Proof.
  intros Hperm. eexists. eexists.
  split; [apply collect_summaries_run|].
  split; [reflexivity|]. simpl. repeat split.
  - intros Hs. apply elem_of_omap_summary in Hs as (e & He & Hs).
    exists e. split; [|exact Hs]. rewrite Hperm in He. apply elem_of_elements, He.
  - intros (e & He & Hs). apply elem_of_omap_summary. exists e.
    split; [|exact Hs]. rewrite Hperm. apply elem_of_elements, He.
  - intros e err He Herr. apply elem_of_app. right.
    apply list_elem_of_omap. exists e. split.
    + rewrite Hperm. apply elem_of_elements, He.
    + unfold summary_failure. rewrite Herr. reflexivity.
Qed.

Lemma failed_summaries_are_skipped_witness :
  let env := example_env no_objects in
  let w := {| table := mixed_db; pending := []; trace := []; logs := [];
              invoked := [] |} in
  let emailSet : gset string := {[ "ana@example.com"; "luis@example.com" ]} in
  exists added w',
    collect_summaries (map_range env emailSet) [] w = (inr ([] ++ added), w') /\
    added = omap (summary_of mixed_db) (map_range env emailSet) /\
    table w' = mixed_db /\ pending w' = [] /\ trace w' = [] /\ invoked w' = [] /\
    (forall s, s ∈ added <->
       exists e, e ∈ emailSet /\ getTransactionSummaryByEmail mixed_db e = inr s) /\
    (forall e err, e ∈ emailSet ->
       getTransactionSummaryByEmail mixed_db e = inl err ->
       LogSummaryError e err ∈ logs w').
Proof.
  intros env w emailSet.
  apply (failed_summaries_are_skipped env emailSet [] w).
  reflexivity.
Defined.

Example mixed_accounts :
  collect_summaries ["ana@example.com"; "luis@example.com"] []
    {| table := mixed_db; pending := []; trace := []; logs := []; invoked := [] |}
  = (inr [ {| Email := "ana@example.com"; TotalBalance := float64_of_Q 30;
              MonthlySummaries :=
                [ {| Month := "January"; TransactionCount := 1;
                     AverageCredit := float64_of_Q 30;
                     AverageDebit := f64_zero |} ] |} ],
     {| table := mixed_db; pending := []; trace := [];
        logs := [LogSummaryError "luis@example.com" ErrQuery]; invoked := [] |}).
Proof. vm_compute. reflexivity. Qed.


(** * Further properties of the orchestrator *)

Lemma tx_run_app s ops1 ops2 :
  tx_run s (ops1 ++ ops2) = s' ← tx_run s ops1; tx_run s' ops2.
Proof.
  revert s. induction ops1 as [|op ops1 IH]; intros s; [reflexivity|].
  simpl. destruct (tx_step s op); [apply IH | reflexivity].
Qed.

Lemma tx_run_execs rows : tx_run Prepared (omap exec_op rows) = Some Prepared.
Proof.
  induction rows as [|row rows IH]; [reflexivity|].
  rewrite omap_cons, tx_run_app.
  assert (tx_run Prepared (option_list (exec_op row)) = Some Prepared) as ->; [|exact IH].
  unfold exec_op.
  destruct row as [|id [|d [|t [|e [|x row]]]]]; try reflexivity.
  destruct (Atoi id); reflexivity.
Qed.

(** The calls of [persist]: the statement is prepared, rows are executed, and
    the transaction is ended once. *)
Lemma persist_trace env rows w r w' :
  persist env rows w = (r, w') ->
  exists ops, trace w' = trace w ++ ops /\ tx_run Begun ops = Some Idle.
Proof.
  intros Hrun. rewrite persist_run in Hrun.
  destruct (insertTransactions env rows w) as [r1 w1] eqn:Hins.
  assert (exists ops1, trace w1 = trace w ++ ops1 /\ tx_run Begun ops1 = Some Prepared)
    as (ops1 & Htr & Hops1).
  { destruct (insertTransactions_inv _ _ _ _ _ Hins)
      as (_ & _ & _ & [(_ & _ & _ & Htr)|(_ & n & rs & _ & _ & _ & Htr & _)]).
    - exists [OpPrepare]. auto.
    - eexists. split; [exact Htr|]. simpl. apply tx_run_execs. }
  assert (exists final, trace w' = trace w1 ++ [final] /\
                        tx_step Prepared final = Some Idle) as (final & Hw' & Hfinal).
  { destruct r1 as [err|s']; [injection Hrun as <- <-; exists OpRollback; auto|].
    destruct (commit_ok env w1); injection Hrun as <- <-; exists OpCommit; auto. }
  exists (ops1 ++ [final]). split.
  - rewrite Hw', Htr, <- app_assoc. reflexivity.
  - rewrite tx_run_app, Hops1. cbn [mbind option_bind tx_run]. rewrite Hfinal. reflexivity.
Qed.

Lemma persist_inv env rows w r w' :
  persist env rows w = (r, w') ->
  pending w' = [] /\ invoked w' = invoked w /\
  exists rs, table w' = table w ++ rs /\ (rs <> [] -> exists s, r = inr s).
Proof.
  intros Hrun. rewrite persist_run in Hrun.
  destruct (insertTransactions env rows w) as [r1 w1] eqn:Hins.
  destruct (insertTransactions_inv _ _ _ _ _ Hins) as (Ht & _ & Hi & _).
  destruct r1 as [err|s'].
  - injection Hrun as <- <-. simpl. repeat split; [exact Hi|].
    exists []. rewrite app_nil_r. split; [exact Ht | congruence].
  - destruct (commit_ok env w1); injection Hrun as <- <-; simpl;
      (repeat split; [exact Hi|]).
    + exists (pending w1). rewrite Ht. eauto.
    + exists []. rewrite app_nil_r. split; [exact Ht | congruence].
Qed.

Lemma processCSVFile_inv env bucket key w r w' :
  processCSVFile env bucket key w = (r, w') ->
  table w' = table w /\ pending w' = pending w /\ trace w' = trace w /\
  invoked w' = invoked w.
Proof.
  unfold processCSVFile, mbind, M_bind. rewrite log_run.
  destruct (GetObject env bucket key) as [[|[header [err|]] rest]|];
    unfold throw; try (intros [= <- <-]; auto).
  destruct (len header =? 4); [|intros [= <- <-]; auto].
  rewrite read_rows_run, log_run. unfold mret, M_ret.
  intros [= <- <-]. auto.
Qed.

(** What one turn of the loop over the S3 records does to the world. *)
Lemma process_record_inv env record summaries w r w' :
  process_record env record summaries w = (r, w') ->
  invoked w' = invoked w /\
  (pending w' = pending w \/ pending w' = []) /\
  (exists ops, trace w' = trace w ++ ops /\ tx_run Idle ops = Some Idle) /\
  (exists rs, table w' = table w ++ rs /\ (rs <> [] -> exists out, r = inr out)).
Proof.
  rewrite process_record_run.
  destruct (processCSVFile env (Bucket record) (Key record) w) as [[err|rows] w1] eqn:Hcsv;
    apply processCSVFile_inv in Hcsv as (Ht & Hp & Htr & Hi).
  - intros [= <- <-]. simpl. split; [exact Hi|]. split; [left; exact Hp|]. split.
    + exists []. rewrite app_nil_r. auto.
    + exists []. rewrite app_nil_r. split; [exact Ht | congruence].
  - destruct (begin_ok env w1).
    + destruct (persist env rows _) as [[err|emailSet] w2] eqn:Hper;
        pose proof (persist_trace _ _ _ _ _ Hper) as (ops & Htr2 & Hops);
        apply persist_inv in Hper as (Hp2 & Hi2 & rs & Ht2 & Hrs);
        simpl in Htr2, Hi2, Ht2.
      * intros [= <- <-]. split; [congruence|]. split; [right; exact Hp2|]. split.
        -- exists (OpBegin :: ops). split; [|exact Hops].
           rewrite Htr2, Htr, <- app_assoc. reflexivity.
        -- exists rs. split; [congruence|].
           intros Hne. destruct (Hrs Hne). discriminate.
      * rewrite collect_summaries_run. intros [= <- <-]. simpl.
        split; [congruence|]. split; [right; exact Hp2|]. split.
        -- exists (OpBegin :: ops). split; [|exact Hops].
           rewrite Htr2, Htr, <- app_assoc. reflexivity.
        -- exists rs. split; [congruence | eauto].
    + intros [= <- <-]. simpl. split; [exact Hi|]. split; [left; exact Hp|]. split.
      * exists []. rewrite app_nil_r. auto.
      * exists []. rewrite app_nil_r. split; [exact Ht | congruence].
Qed.

Lemma process_records_inv env records : forall summaries w r w',
  process_records env records summaries w = (r, w') ->
  invoked w' = invoked w /\
  (pending w = [] -> pending w' = []) /\
  (exists ops, trace w' = trace w ++ ops /\ tx_run Idle ops = Some Idle) /\
  (exists rs, table w' = table w ++ rs).
Proof.
  induction records as [|record rest IH]; intros summaries w r w' Hrun.
  - injection Hrun as <- <-. split; [reflexivity|]. split; [auto|].
    split; exists []; rewrite app_nil_r; auto.
  - cbn [process_records] in Hrun. unfold mbind at 1, M_bind in Hrun.
    destruct (process_record env record summaries w) as [[err|out] w1] eqn:Hrec;
      apply process_record_inv in Hrec
        as (Hi & Hp & (ops & Htr & Hops) & (rs & Ht & _)).
    + injection Hrun as <- <-. split; [exact Hi|].
      split; [intros Hw; destruct Hp; congruence|]. eauto.
    + apply IH in Hrun as (Hi' & Hp' & (ops' & Htr' & Hops') & (rs' & Ht')).
      split; [congruence|].
      split; [intros Hw; apply Hp'; destruct Hp; congruence|]. split.
      * exists (ops ++ ops'). split; [rewrite Htr', Htr, app_assoc; reflexivity|].
        rewrite tx_run_app, Hops. exact Hops'.
      * exists (rs ++ rs'). rewrite Ht', Ht, app_assoc. reflexivity.
Qed.

Lemma process_records_app env records1 records2 summaries w :
  process_records env (records1 ++ records2) summaries w =
  match process_records env records1 summaries w with
  | (inl err, w1) => (inl err, w1)
  | (inr summaries1, w1) => process_records env records2 summaries1 w1
  end.
Proof.
  revert summaries w. induction records1 as [|record rest IH]; intros summaries w;
    [reflexivity|].
  cbn [app process_records]. unfold mbind, M_bind.
  destruct (process_record env record summaries w) as [[err|out] w1]; [reflexivity|].
  apply IH.
Qed.

Lemma processCSVFile_missing env bucket key w :
  GetObject env bucket key = None ->
  processCSVFile env bucket key w
  = (inl ErrS3Object, logged [LogProcessingFile bucket key] w).
Proof.
  intros Hobj. unfold processCSVFile, mbind, M_bind. rewrite log_run, Hobj.
  reflexivity.
Qed.

(** Every transaction the handler begins is ended before the next one begins
    and before the handler returns: the calls a run makes on the connection
    are a sequence of transactions, each of them [Begin], [Prepare], any
    number of [Exec], then one [Commit] or [Rollback]; and a run that starts
    with no insert pending ends with none. *)
Theorem handler_ends_every_transaction env s3Event w :
  (exists ops, trace (handler env s3Event w).2 = trace w ++ ops /\
               tx_run Idle ops = Some Idle) /\
  (pending w = [] -> pending (handler env s3Event w).2 = []).
Proof.
  rewrite handler_run.
  destruct (connection_ok env).
  - destruct (process_records env s3Event [] (logged [LogStarted] w))
      as [[err|summaries] w1] eqn:Hrecs;
      apply process_records_inv in Hrecs as (_ & Hp & Htr & _); simpl in Hp, Htr.
    + auto.
    + destruct (invokeNotificationLambda env summaries w1) as [[err|[]] w2] eqn:Hinv;
        apply invokeNotificationLambda_inv in Hinv as (_ & Hp2 & Htr2); simpl;
        rewrite Hp2, Htr2; auto.
  - simpl. split; [|auto]. exists []. rewrite app_nil_r. auto.
Qed.

(** The notification Lambda is invoked once by a run that succeeds, after all
    the files of the event, with a payload that [json.Marshal] accepts, and
    not at all by a run that fails; in both cases the rows the table held
    before the run are still there, in front of the rows the run added. *)
Theorem notification_sent_once_on_success env s3Event w :
  match (handler env s3Event w).1 with
  | inr _ =>
      exists summaries,
        invoked (handler env s3Event w).2 = invoked w ++ [summaries] /\
        forallb marshals summaries = true
  | inl _ => invoked (handler env s3Event w).2 = invoked w
  end /\
  table w `prefix_of` table (handler env s3Event w).2.
Proof.
  rewrite handler_run.
  destruct (connection_ok env); [|simpl; auto].
  destruct (process_records env s3Event [] (logged [LogStarted] w))
    as [[err|summaries] w1] eqn:Hrecs;
    apply process_records_inv in Hrecs as (Hi & _ & _ & (rs & Ht));
    simpl in Hi, Ht.
  - simpl. split; [exact Hi | exists rs; exact Ht].
  - unfold invokeNotificationLambda, throw.
    destruct (forallb marshals summaries) eqn:Hm; simpl.
    + destruct (invoke_ok env w1); simpl.
      * split; [|exists rs; exact Ht]. exists summaries. rewrite Hi. auto.
      * split; [exact Hi | exists rs; exact Ht].
    + split; [exact Hi | exists rs; exact Ht].
Qed.

(** The files of one event are not one unit of work: when the object of a
    record cannot be fetched, the run fails with the S3 error and sends no
    notification, while the rows of the records before it, which were
    committed file by file, stay in the table. *)
Theorem earlier_files_stay_committed env done record rest w wd :
  handler env done w = (inr tt, wd) ->
  GetObject env (Bucket record) (Key record) = None ->
  exists w',
    handler env (done ++ record :: rest) w = (inl ErrS3Object, w') /\
    table w' = table wd /\ pending w' = pending wd /\ trace w' = trace wd /\
    invoked w' = invoked w.
Proof.
  intros Hdone Hobj. rewrite handler_run in Hdone. rewrite handler_run.
  destruct (connection_ok env); [|discriminate].
  rewrite process_records_app.
  destruct (process_records env done [] (logged [LogStarted] w))
    as [[err|summaries] w1] eqn:Hrecs; [discriminate|].
  destruct (invokeNotificationLambda env summaries w1) as [[err|[]] w2] eqn:Hinv;
    [discriminate|].
  injection Hdone as <-.
  apply invokeNotificationLambda_inv in Hinv as (Ht & Hp & Htr).
  apply process_records_inv in Hrecs as (Hi & _).
  cbn [process_records]. unfold mbind at 1, M_bind.
  rewrite process_record_run, (processCSVFile_missing _ _ _ _ Hobj).
  eexists. split; [reflexivity|]. simpl. auto.
Qed.

Lemma earlier_files_stay_committed_witness :
  let env := example_env (one_object "uploads" "txns.csv" example_csv) in
  exists w',
    handler env ([example_record] ++ missing_record :: []) initial_world
    = (inl ErrS3Object, w') /\
    table w' = table (handler env [example_record] initial_world).2 /\
    pending w' = pending (handler env [example_record] initial_world).2 /\
    trace w' = trace (handler env [example_record] initial_world).2 /\
    invoked w' = invoked initial_world.
Proof.
  intros env.
  apply (earlier_files_stay_committed env [example_record] missing_record []
           initial_world (handler env [example_record] initial_world).2).
  - vm_compute. reflexivity.
  - reflexivity.
Defined.

(** A run on one file that succeeds hands the notification Lambda, for each
    email that a stored row of the file carries, the summary of that account
    over the whole table as it is after the commit, rows of earlier runs
    included, and no other summary; an account whose summary fails is
    left out. *)
Theorem one_file_payload env record header rest w w' :
  GetObject env (Bucket record) (Key record) = Some ((header, None) :: rest) ->
  len header = 4 ->
  handler env [record] w = (inr tt, w') ->
  exists rs,
    converts env (table w) (valid_rows rest) rs /\
    table w' = table w ++ rs /\
    invoked w' = invoked w ++
      [omap (summary_of (table w')) (map_range env (list_to_set (email <$> rs)))].
Proof.
  intros Hobj Hlen Hrun. rewrite handler_run in Hrun.
  destruct (connection_ok env); [|discriminate].
  cbn [process_records] in Hrun. unfold mbind at 1, M_bind in Hrun.
  rewrite process_record_run in Hrun.
  rewrite (processCSVFile_run _ _ _ _ _ _ Hobj Hlen) in Hrun.
  destruct (begin_ok env _); [|discriminate].
  destruct (persist env _ _) as [[err|emailSet] w2] eqn:Hper; [discriminate|].
  pose proof (persist_inv _ _ _ _ _ Hper) as (_ & Hi2 & _).
  apply persist_success in Hper as (rs & Hc & -> & Ht & _).
  simpl in Ht, Hc, Hi2. rewrite app_nil_r in Hc.
  rewrite collect_summaries_run in Hrun. unfold mret, M_ret in Hrun.
  unfold invokeNotificationLambda, throw in Hrun.
  destruct (forallb marshals _); [|discriminate].
  destruct (invoke_ok env _); [|discriminate].
  injection Hrun as <-. simpl. exists rs.
  split; [exact Hc|]. split; [exact Ht|]. rewrite Hi2. reflexivity.
Qed.

Lemma one_file_payload_witness :
  let env := example_env (one_object "uploads" "txns.csv" example_csv) in
  let w' := (handler env [example_record] initial_world).2 in
  exists rs,
    converts env (table initial_world) (valid_rows (tail example_csv)) rs /\
    table w' = table initial_world ++ rs /\
    invoked w' = invoked initial_world ++
      [omap (summary_of (table w')) (map_range env (list_to_set (email <$> rs)))].
Proof.
  intros env w'.
  apply (one_file_payload env example_record
           ["id"; "date"; "transaction"; "email"] (tail example_csv) initial_world w').
  - reflexivity.
  - reflexivity.
  - vm_compute. reflexivity.
Defined.

(** The names in the header are not looked at: two objects with the same data
    lines under any two headers of four columns are processed alike. *)
Theorem header_names_are_not_checked env env' bucket key header header' rest w :
  GetObject env bucket key = Some ((header, None) :: rest) ->
  GetObject env' bucket key = Some ((header', None) :: rest) ->
  len header = 4 -> len header' = 4 ->
  processCSVFile env bucket key w = processCSVFile env' bucket key w.
Proof.
  intros Hobj Hobj' Hlen Hlen'.
  rewrite (processCSVFile_run _ _ _ _ _ _ Hobj Hlen).
  rewrite (processCSVFile_run _ _ _ _ _ _ Hobj' Hlen'). reflexivity.
Qed.

Lemma header_names_are_not_checked_witness :
  processCSVFile (example_env (one_object "uploads" "txns.csv" example_csv))
    "uploads" "txns.csv" initial_world
  = processCSVFile
      (example_env (one_object "uploads" "txns.csv"
                      ((["a"; "b"; "c"; "d"], None) :: tail example_csv)))
      "uploads" "txns.csv" initial_world.
Proof.
  apply (header_names_are_not_checked _ _ "uploads" "txns.csv"
           ["id"; "date"; "transaction"; "email"] ["a"; "b"; "c"; "d"]
           (tail example_csv) initial_world); reflexivity.
Defined.

Lemma warnings_count stream : forall first,
  len (valid_rows stream) + len (warnings first stream) = len stream.
Proof.
  unfold len. induction stream as [|[record err] rest IH]; intros first; [reflexivity|].
  rewrite valid_rows_cons. cbn [warnings]. rewrite !length_app.
  specialize (IH (first + 1)).
  unfold valid_result, warning_of. cbn [fst snd].
  destruct err as [err|]; [simpl; lia|].
  destruct (len record =? 4); simpl; lia.
Qed.

Lemma warnings_lookup stream : forall first n r,
  stream !! n = Some r -> valid_result r = false ->
  exists entry, warning_of (first + Z.of_nat n) r = Some entry /\
                entry ∈ warnings first stream.
Proof.
  induction stream as [|r0 rest IH]; intros first n r Hl Hbad; [discriminate|].
  cbn [warnings]. destruct n as [|n]; simpl in Hl.
  - injection Hl as ->. replace (first + Z.of_nat 0) with first by lia.
    unfold valid_result, warning_of in *.
    destruct (r.2) as [err|].
    + eexists. split; [reflexivity|]. simpl. apply list_elem_of_here.
    + rewrite Hbad. eexists. split; [reflexivity|]. simpl. apply list_elem_of_here.
  - destruct (IH (first + 1) n r Hl Hbad) as (entry & Hw & Hin).
    exists entry. split; [rewrite <- Hw; f_equal; lia|].
    apply elem_of_app. right. exact Hin.
Qed.

(** No record the csv reader delivers is lost without a trace. Of the
    results of the calls of [reader.Read()] after a good header, each is
    either returned or reported by one warning, and the warning of the
    [n]-th of them (from 0) carries [n + 2], the value of [lineNum] at that
    call: the counter starts at 1 for the header and goes up by one per call.
    It counts calls, not lines of the file: the reader passes over empty
    lines and a quoted field may run over several lines, and those lines
    get no warning of their own. The count in the last log line is the
    number of rows returned. *)
Theorem every_read_is_returned_or_reported env bucket key header rest w :
  GetObject env bucket key = Some ((header, None) :: rest) ->
  len header = 4 ->
  exists rows reported w',
    processCSVFile env bucket key w = (inr rows, w') /\
    logs w' = logs w ++ LogProcessingFile bucket key :: reported
                ++ [LogProcessingComplete (len rows)] /\
    len rows + len reported = len rest /\
    forall n r, rest !! n = Some r -> valid_result r = false ->
      exists entry, warning_of (Z.of_nat n + 2) r = Some entry /\ entry ∈ reported.
Proof.
  intros Hobj Hlen. eexists. eexists. eexists.
  split; [apply (processCSVFile_run _ _ _ _ _ _ Hobj Hlen)|].
  split; [reflexivity|]. split; [apply warnings_count|].
  intros n r Hl Hbad.
  destruct (warnings_lookup rest 2 n r Hl Hbad) as (entry & Hw & Hin).
  exists entry. split; [rewrite <- Hw; f_equal; lia | exact Hin].
Qed.

Lemma every_read_is_returned_or_reported_witness :
  let env := example_env (one_object "uploads" "txns.csv" example_csv) in
  exists rows reported w',
    processCSVFile env "uploads" "txns.csv" initial_world = (inr rows, w') /\
    logs w' = logs initial_world ++ LogProcessingFile "uploads" "txns.csv" :: reported
                ++ [LogProcessingComplete (len rows)] /\
    len rows + len reported = len (tail example_csv) /\
    forall n r, tail example_csv !! n = Some r -> valid_result r = false ->
      exists entry, warning_of (Z.of_nat n + 2) r = Some entry /\ entry ∈ reported.
Proof.
  intros env.
  apply (every_read_is_returned_or_reported env "uploads" "txns.csv"
           ["id"; "date"; "transaction"; "email"] (tail example_csv) initial_world);
    reflexivity.
Defined.

(** * Further properties of the persister *)

(** When the statement cannot be prepared no row is looked at: whatever the
    batch, [insertTransactions] returns the prepare error without a single
    [Exec], and the transaction around it is rolled back, which leaves the
    table as it was. *)
Theorem prepare_failure_rolls_back env rows w :
  prepare_ok env w = false ->
  insertTransactions env rows w = (inl ErrPrepare, record_op OpPrepare w) /\
  exists w', persist env rows w = (inl ErrPrepare, w') /\
    table w' = table w /\ pending w' = [] /\
    trace w' = trace w ++ [OpPrepare; OpRollback] /\
    logs w' = logs w ++ [LogRollback ErrPrepare].
Proof.
  intros Hp. pose proof (insertTransactions_unprepared env rows w Hp) as Hins.
  split; [exact Hins|].
  rewrite persist_run, Hins. eexists. split; [reflexivity|]. simpl.
  rewrite <- app_assoc. auto.
Qed.

Lemma prepare_failure_rolls_back_witness :
  let env := {| GetObject := no_objects; date_in := iso_date_in;
                accepts := fun _ _ => true; connection_ok := true;
                begin_ok := fun _ => true; prepare_ok := fun _ => false;
                commit_ok := fun _ => true; invoke_ok := fun _ => true;
                map_range := elements |} in
  insertTransactions env good_batch initial_world
  = (inl ErrPrepare, record_op OpPrepare initial_world) /\
  exists w', persist env good_batch initial_world = (inl ErrPrepare, w') /\
    table w' = table initial_world /\ pending w' = [] /\
    trace w' = trace initial_world ++ [OpPrepare; OpRollback] /\
    logs w' = logs initial_world ++ [LogRollback ErrPrepare].
Proof.
  intros env. apply (prepare_failure_rolls_back env good_batch initial_world).
  reflexivity.
Defined.

Lemma permissive_converts env rows :
  (forall row d, row ∈ rows -> row !! 1%nat = Some d -> is_Some (date_in env d)) ->
  (forall visible r, accepts env visible r = true) ->
  forallb (fun row => four_fields row && id_parses row) rows = true ->
  forall visible, exists rs, converts env visible rows rs.
Proof.
  intros Hdates Hacc. induction rows as [|row rows IH]; intros Hok visible.
  - exists []. exact I.
  - simpl in Hok. apply andb_prop in Hok as [Hrow Hrest].
    apply andb_prop in Hrow as [H4 Hid].
    assert (exists r, to_record env row = Some r) as [r Hr].
    { unfold four_fields, len in H4. apply Z.eqb_eq in H4.
      unfold to_record, id_parses in *.
      destruct row as [|id [|d [|t [|e [|x row]]]]]; cbn [List.length] in H4; try lia.
      apply bool_decide_eq_true in Hid as [externalID ->].
      assert (is_Some (date_in env d)) as [d' ->]
        by (apply (Hdates [id; d; t; e] d); [apply list_elem_of_here | reflexivity]).
      eauto. }
    destruct (IH (fun row' d H => Hdates row' d (list_elem_of_further _ _ _ H)) Hrest
                 (visible ++ [r])) as [rs Hrs].
    exists (r :: rs). simpl. auto.
Qed.

Lemma converts_texts env rows : forall visible rs,
  converts env visible rows rs ->
  Forall2 (fun row r => row !! 2%nat = Some (transaction r) /\
                        row !! 3%nat = Some (email r)) rows rs.
Proof.
  intros visible rs Hc. apply converts_Forall2 in Hc.
  eapply Forall2_impl; [exact Hc|].
  intros row r. unfold to_record.
  destruct row as [|id [|d [|t [|e [|x row]]]]]; try discriminate.
  destruct (Atoi id); [|discriminate]. destruct (date_in env d); [|discriminate].
  intros [= <-]. auto.
Qed.

(** The persister checks the field count and the id of a row and nothing
    else. With a statement prepared, date texts that all convert and a table
    that accepts every record, [insertTransactions] succeeds exactly when
    every row of the batch has four fields and an integer id; the amount and
    the email are not examined, whatever text they are, and are handed to the
    table as they stand. *)
Theorem persister_checks_count_and_id_only env rows w :
  prepare_ok env w = true ->
  (forall row d, row ∈ rows -> row !! 1%nat = Some d -> is_Some (date_in env d)) ->
  (forall visible r, accepts env visible r = true) ->
  ((exists emailSet, (insertTransactions env rows w).1 = inr emailSet) <->
   forallb (fun row => four_fields row && id_parses row) rows = true) /\
  (forall emailSet, (insertTransactions env rows w).1 = inr emailSet ->
   exists rs,
     pending (insertTransactions env rows w).2 = pending w ++ rs /\
     emailSet = list_to_set (email <$> rs) /\
     Forall2 (fun row r => row !! 2%nat = Some (transaction r) /\
                           row !! 3%nat = Some (email r)) rows rs).
Proof.
  intros Hp Hdates Hacc.
  destruct (insertTransactions env rows w) as [r w1] eqn:Hins. simpl.
  assert (forall emailSet, r = inr emailSet ->
            exists rs, converts env (table w ++ pending w) rows rs /\
              pending w1 = pending w ++ rs /\ emailSet = list_to_set (email <$> rs))
    as Hsucc.
  { intros emailSet ->.
    destruct (insertTransactions_inv _ _ _ _ _ Hins)
      as (_ & _ & _ & [(_ & ? & _)|(_ & n & rs & _ & Hc & Hpe & _ & -> & ->)]);
      [discriminate|].
    rewrite take_ge in Hc by lia. eauto. }
  split; [split|].
  - intros [emailSet Hr]. destruct (Hsucc _ Hr) as (rs & Hc & _).
    clear -Hc. revert Hc. generalize (table w ++ pending w). revert rs.
    induction rows as [|row rows IH]; intros [|r0 rs] visible Hc; try contradiction;
      [reflexivity|].
    destruct Hc as (Hr0 & _ & Hc). simpl.
    rewrite (to_record_id _ _ _ Hr0). unfold four_fields.
    rewrite (to_record_four _ _ _ Hr0). simpl. eapply IH, Hc.
  - intros Hok.
    destruct (permissive_converts env rows Hdates Hacc Hok (table w ++ pending w))
      as [rs Hc].
    destruct (insertTransactions_converts _ _ _ _ _ _ Hc Hp Hins) as [-> _]. eauto.
  - intros emailSet Hr. destruct (Hsucc _ Hr) as (rs & Hc & Hpe & ->).
    exists rs. split; [exact Hpe|]. split; [reflexivity|].
    eapply converts_texts, Hc.
Qed.

Lemma persister_checks_count_and_id_only_witness :
  let env := example_env no_objects in
  let rows := [["7"; "2024-03-01"; "thirty"; ""]] in
  (exists emailSet, (insertTransactions env rows initial_world).1 = inr emailSet) /\
  pending (insertTransactions env rows initial_world).2
  = [tx 7 2024 March 1 "thirty" ""].
Proof.
  intros env rows.
  destruct (persister_checks_count_and_id_only env rows initial_world) as [Hiff _].
  - reflexivity.
  - intros row d Hrow Hd. apply list_elem_of_singleton in Hrow as ->.
    injection Hd as <-. vm_compute. eauto.
  - reflexivity.
  - split; [apply Hiff; reflexivity | vm_compute; reflexivity].
Defined.

(** * Further properties of the aggregator *)

Lemma Zsum_map_plus {A} (f g : A -> Z) l :
  Zsum (map (fun x => f x + g x) l) = Zsum (map f l) + Zsum (map g l).
Proof. induction l as [|x l IH]; simpl; [reflexivity|]. rewrite IH. lia. Qed.

Lemma Zsum_map_ext {A} (f g : A -> Z) l :
  (forall x, x ∈ l -> f x = g x) -> Zsum (map f l) = Zsum (map g l).
Proof.
  induction l as [|x l IH]; intros H; simpl; [reflexivity|].
  rewrite (H x) by apply list_elem_of_here.
  rewrite IH; [reflexivity|]. intros y Hy. apply H, list_elem_of_further, Hy.
Qed.

Lemma Zsum_indicator (k0 : MonthKey) ks :
  NoDup ks ->
  Zsum (map (fun k => if decide (k0 = k) then 1 else 0) ks)
  = if decide (k0 ∈ ks) then 1 else 0.
Proof.
  induction 1 as [|k ks Hk Hnd IH].
  - destruct (decide (k0 ∈ [])) as [Hin|_]; [inversion Hin | reflexivity].
  - cbn [map Zsum foldr]. fold (Zsum (map (fun k => if decide (k0 = k) then 1 else 0) ks)).
    rewrite IH.
    destruct (decide (k0 ∈ ks)) as [Hin|Hnin];
      destruct (decide (k0 ∈ k :: ks)) as [Hin'|Hnin'];
      destruct (decide (k0 = k)) as [Heq|Hne];
      try reflexivity; exfalso.
    + subst. contradiction.
    + apply Hnin', list_elem_of_further, Hin.
    + apply Hnin', list_elem_of_further, Hin.
    + apply elem_of_cons in Hin' as [?|?]; contradiction.
    + subst. apply Hnin', list_elem_of_here.
Qed.

Lemma count_by_month ks (rows : list TxRow) :
  NoDup ks ->
  (forall r, r ∈ rows -> DATE_TRUNC_month (date r) ∈ ks) ->
  Zsum (map (fun k => len (filter (in_month k) rows)) ks) = len rows.
Proof.
  intros Hnd. induction rows as [|r rows IH]; intros Hks.
  - clear. induction ks as [|k ks IH]; [reflexivity|].
    cbn [map Zsum foldr]. fold (Zsum (map (fun k => len (filter (in_month k) [])) ks)).
    rewrite IH. reflexivity.
  - rewrite (Zsum_map_ext _
      (fun k => (if decide (DATE_TRUNC_month (date r) = k) then 1 else 0)
                + len (filter (in_month k) rows))).
    + rewrite Zsum_map_plus, Zsum_indicator by assumption.
      rewrite decide_True by (apply Hks, list_elem_of_here).
      rewrite IH; [unfold len; simpl; lia|].
      intros r' Hr'. apply Hks, list_elem_of_further, Hr'.
    + intros k _. rewrite filter_cons. unfold in_month at 1, len.
      case_decide; simpl; lia.
Qed.

(** The monthly counts of a summary add up to the number of rows the account
    has in the table: every row is counted in one month, and in one only. *)
Theorem transaction_counts_add_up db e s :
  getTransactionSummaryByEmail db e = inr s ->
  Zsum (TransactionCount <$> MonthlySummaries s) = len (account_rows db e).
Proof.
  intros H. apply summarize_inr in H as (rows & Hrows & _ & _ & ->).
  rewrite <- (count_by_month (group_keys (account_rows db e)) (account_rows db e)).
  - unfold month_groups in Hrows. apply Forall2_fmap_l in Hrows.
    induction Hrows as [|k row ks rows Hrow _ IH]; [reflexivity|].
    rewrite !fmap_cons. cbn [Zsum foldr map]. f_equal; [|exact IH].
    apply eval_group_Some in Hrow as (? & ? & ? & _ & _ & _ & ->). reflexivity.
  - apply group_keys_NoDup.
  - intros r Hr. apply elem_of_group_keys. eauto.
Qed.

Lemma transaction_counts_add_up_witness :
  Zsum (TransactionCount <$>
          [ {| Month := "January"; TransactionCount := 1;
               AverageCredit := float64_of_Q (1 # 10); AverageDebit := f64_zero |};
            {| Month := "February"; TransactionCount := 1;
               AverageCredit := float64_of_Q (2 # 10); AverageDebit := f64_zero |};
            {| Month := "March"; TransactionCount := 1;
               AverageCredit := float64_of_Q (3 # 10); AverageDebit := f64_zero |} ])
  = len (account_rows drift_db "ana@example.com").
Proof.
  apply (transaction_counts_add_up drift_db "ana@example.com"
           {| Email := "ana@example.com";
              TotalBalance := f64_add (f64_add (float64_of_Q (1 # 10))
                                               (float64_of_Q (2 # 10)))
                                      (float64_of_Q (3 # 10));
              MonthlySummaries := _ |}).
  vm_compute. reflexivity.
Defined.

Lemma in_account_group db r :
  r ∈ db ->
  exists g, g ∈ month_groups (account_rows db (email r)) /\ r ∈ g.2.
Proof.
  intros Hr.
  assert (r ∈ account_rows db (email r)) as Hacc
    by (apply list_elem_of_filter; auto).
  exists (DATE_TRUNC_month (date r),
          filter (in_month (DATE_TRUNC_month (date r))) (account_rows db (email r))).
  split.
  - unfold month_groups. apply list_elem_of_fmap. eexists. split; [reflexivity|].
    apply elem_of_group_keys. eauto.
  - simpl. apply list_elem_of_filter. split; [reflexivity | exact Hacc].
Qed.

Lemma summary_query_None db e :
  summary_query db e = None <->
  exists r, r ∈ account_rows db e /\
    (signed_case "+" (transaction r) = None \/
     signed_case "-" (transaction r) = None \/
     signed_amount (transaction r) = None).
Proof.
  unfold summary_query. rewrite mapM_None, Exists_exists. split.
  - intros (g & Hg & Heval).
    assert (forall r, r ∈ g.2 -> r ∈ account_rows db e) as Hsub.
    { intros r Hr. unfold month_groups in Hg.
      apply list_elem_of_fmap in Hg as (k & -> & _). simpl in Hr.
      apply list_elem_of_filter in Hr as [_ Hr]. exact Hr. }
    unfold eval_group in Heval.
    destruct (mapM (fun r => signed_case "+" _) g.2) as [credits|] eqn:Hc.
    2:{ apply mapM_None_1, Exists_exists in Hc as (r & Hr & Hf). exists r. auto. }
    destruct (mapM (fun r => signed_case "-" _) g.2) as [debits|] eqn:Hd.
    2:{ apply mapM_None_1, Exists_exists in Hd as (r & Hr & Hf). exists r. auto. }
    destruct (mapM (fun r => signed_amount _) g.2) as [amounts|] eqn:Ha.
    2:{ apply mapM_None_1, Exists_exists in Ha as (r & Hr & Hf). exists r. auto. }
    discriminate.
  - intros (r & Hr & Hf).
    exists (DATE_TRUNC_month (date r),
            filter (in_month (DATE_TRUNC_month (date r))) (account_rows db e)).
    split.
    + unfold month_groups. apply list_elem_of_fmap. eexists. split; [reflexivity|].
      apply elem_of_group_keys. eauto.
    + unfold eval_group. cbn [snd].
      assert (r ∈ filter (in_month (DATE_TRUNC_month (date r))) (account_rows db e))
        as Hin by (apply list_elem_of_filter; split; [reflexivity | exact Hr]).
      destruct (mapM (fun r => signed_case "+" _) _) as [credits|] eqn:Hc; [|reflexivity].
      destruct (mapM (fun r => signed_case "-" _) _) as [debits|] eqn:Hd; [|reflexivity].
      destruct (mapM (fun r => signed_amount _) _) as [amounts|] eqn:Ha; [|reflexivity].
      exfalso. destruct Hf as [Hf|[Hf|Hf]].
      * apply mapM_Some_1 in Hc.
        destruct (Forall2_elem_of_l _ _ _ _ Hc Hin) as (v & _ & Hv). congruence.
      * apply mapM_Some_1 in Hd.
        destruct (Forall2_elem_of_l _ _ _ _ Hd Hin) as (v & _ & Hv). congruence.
      * apply mapM_Some_1 in Ha.
        destruct (Forall2_elem_of_l _ _ _ _ Ha Hin) as (v & _ & Hv). congruence.
Qed.

(** ** A decimal amount text never fails the sign cases *)

Lemma point_match {A} s (f : string -> A) (d : A) :
  LIKE_prefix s "." = false ->
  match s with String "." s' => f s' | _ => d end = d.
Proof.
  destruct s as [|x s]; [reflexivity|].
  destruct x as [[] [] [] [] [] [] [] []]; simpl; intros H;
    first [reflexivity | discriminate H].
Qed.

Lemma read_sign_none s :
  LIKE_prefix s "+" = false -> LIKE_prefix s "-" = false -> read_sign s = (false, s).
Proof.
  destruct s as [|x s]; [reflexivity|].
  destruct x as [[] [] [] [] [] [] [] []]; simpl; intros H1 H2;
    first [reflexivity | discriminate H1 | discriminate H2].
Qed.

Lemma read_sign_tail s neg s1 :
  read_sign s = (neg, s1) ->
  s1 = s \/ s = String "+" s1 \/ s = String "-" s1.
Proof.
  destruct s as [|x s]; [intros [= <- <-]; auto|].
  destruct x as [[] [] [] [] [] [] [] []]; simpl; intros [= <- <-]; auto.
Qed.

Lemma read_digits_head s acc n a n' rest :
  read_digits s acc n = (a, n', rest) -> n' <> n ->
  exists x s' v, s = String x s' /\ digit_of x = Some v.
Proof.
  destruct s as [|x s']; simpl; [intros [= <- <- <-]; congruence|].
  destruct (digit_of x) as [v|] eqn:Hx; [intros _ _; exists x, s', v; auto|].
  intros [= <- <- <-]. congruence.
Qed.

Lemma read_digits_count s : forall acc n a n' rest,
  read_digits s acc n = (a, n', rest) -> (n <= n')%nat.
Proof.
  induction s as [|x s IH]; simpl; intros acc n a n' rest.
  - intros [= <- <- <-]. lia.
  - destruct (digit_of x); [intros H; apply IH in H; lia|].
    intros [= <- <- <-]. lia.
Qed.

Lemma spaces_only s x s' :
  skip_while is_space s = EmptyString -> s = String x s' -> is_space x = true.
Proof.
  intros H ->. simpl in H. destruct (is_space x); [reflexivity | discriminate].
Qed.

Section Sign_removed.
Variable c : ascii.
Hypothesis c_sign : c = "+"%char \/ c = "-"%char.

Lemma sign_no_digit : digit_of c = None.
Proof. destruct c_sign as [->| ->]; reflexivity. Qed.

Lemma sign_no_space : is_space c = false.
Proof. destruct c_sign as [->| ->]; reflexivity. Qed.

Lemma REPLACE_head x s :
  Ascii.eqb x c = false -> REPLACE (String x s) c = String x (REPLACE s c).
Proof. intros H. simpl. rewrite H. reflexivity. Qed.

Lemma digit_not_sign x v : digit_of x = Some v -> Ascii.eqb x c = false.
Proof.
  intros Hx. apply Ascii.eqb_neq. intros ->. rewrite sign_no_digit in Hx.
  discriminate.
Qed.

Lemma space_not_sign x : is_space x = true -> Ascii.eqb x c = false.
Proof.
  intros Hx. apply Ascii.eqb_neq. intros ->. rewrite sign_no_space in Hx.
  discriminate.
Qed.

Lemma read_digits_REPLACE s : forall acc n a n' rest,
  read_digits s acc n = (a, n', rest) ->
  LIKE_prefix rest c = false ->
  read_digits (REPLACE s c) acc n = (a, n', REPLACE rest c).
Proof.
  induction s as [|x s IH]; intros acc n a n' rest.
  - simpl. intros [= <- <- <-] _. reflexivity.
  - cbn [read_digits]. destruct (digit_of x) as [v|] eqn:Hx.
    + intros Hr Hrest. rewrite (REPLACE_head _ _ (digit_not_sign _ _ Hx)).
      cbn [read_digits]. rewrite Hx. apply IH; assumption.
    + intros [= <- <- <-] Hrest. simpl in Hrest.
      rewrite (REPLACE_head _ _ Hrest). cbn [read_digits]. rewrite Hx.
      reflexivity.
Qed.

Lemma spaces_REPLACE s :
  skip_while is_space s = EmptyString -> REPLACE s c = s.
Proof.
  induction s as [|x s IH]; [reflexivity|].
  intros H. pose proof (spaces_only _ _ _ H eq_refl) as Hx.
  simpl in H. rewrite Hx in H.
  rewrite (REPLACE_head _ _ (space_not_sign _ Hx)), IH by exact H. reflexivity.
Qed.

Lemma spaces_no_sign s :
  skip_while is_space s = EmptyString -> LIKE_prefix s c = false.
Proof.
  destruct s as [|x s]; [reflexivity|].
  intros H. simpl. apply space_not_sign, (spaces_only _ _ _ H eq_refl).
Qed.

(** The digits of an exponent, with or without a sign in front. *)
Lemma exponent_digits_REPLACE s1 e k s4 :
  read_digits s1 0 0 = (e, S k, s4) ->
  skip_while is_space s4 = EmptyString ->
  read_sign (REPLACE s1 c) = (false, REPLACE s1 c) /\
  read_digits (REPLACE s1 c) 0 0 = (e, S k, s4).
Proof.
  intros Hd Hs.
  pose proof (read_digits_REPLACE _ _ _ _ _ _ Hd (spaces_no_sign _ Hs)) as Hd'.
  rewrite (spaces_REPLACE _ Hs) in Hd'. split; [|exact Hd'].
  destruct (read_digits_head _ _ _ _ _ _ Hd) as (x & s' & v & -> & Hx); [lia|].
  rewrite (REPLACE_head _ _ (digit_not_sign _ _ Hx)).
  apply (digit_head x v _ Hx).
Qed.

Lemma read_exponent_REPLACE s3 e s4 :
  read_exponent s3 = Some (e, s4) ->
  skip_while is_space s4 = EmptyString ->
  exists e', read_exponent (REPLACE s3 c) = Some (e', s4).
Proof.
  destruct s3 as [|x s']; [intros [= <- <-] _; exists 0; reflexivity|].
  cbn [read_exponent].
  destruct (Ascii.eqb x "e" || Ascii.eqb x "E") eqn:Hx.
  - assert (Ascii.eqb x c = false) as Hxc.
    { apply Ascii.eqb_neq. intros ->.
      destruct c_sign as [->| ->]; discriminate Hx. }
    rewrite (REPLACE_head _ _ Hxc). cbn [read_exponent]. rewrite Hx.
    destruct (read_sign s') as [neg s1] eqn:Hsign.
    destruct (read_digits s1 0 0) as [[e0 [|k]] rest] eqn:Hd; [discriminate|].
    intros [= <- <-] Hs.
    destruct (exponent_digits_REPLACE _ _ _ _ Hd Hs) as [Hsign' Hd'].
    destruct (read_sign_tail _ _ _ Hsign) as [->|[->| ->]].
    + rewrite Hsign', Hd'. eauto.
    + destruct (Ascii.eqb "+" c) eqn:Hc.
      * cbn [REPLACE]. rewrite Hc, Hsign', Hd'. eauto.
      * rewrite (REPLACE_head _ _ Hc). cbn [read_sign]. rewrite Hd'. eauto.
    + destruct (Ascii.eqb "-" c) eqn:Hc.
      * cbn [REPLACE]. rewrite Hc, Hsign', Hd'. eauto.
      * rewrite (REPLACE_head _ _ Hc). cbn [read_sign]. rewrite Hd'. eauto.
  - intros [= <- <-] Hs.
    pose proof (spaces_REPLACE _ Hs) as ->.
    cbn [read_exponent]. rewrite Hx. eauto.
Qed.

(** What stops the digits of a number that parses is not the sign. *)
Lemma after_digits_no_sign s3 e s4 :
  read_exponent s3 = Some (e, s4) ->
  skip_while is_space s4 = EmptyString ->
  LIKE_prefix s3 c = false.
Proof.
  destruct s3 as [|x s']; [reflexivity|].
  cbn [read_exponent LIKE_prefix].
  destruct (Ascii.eqb x "e" || Ascii.eqb x "E") eqn:Hx.
  - intros _ _. apply Ascii.eqb_neq. intros ->.
    destruct c_sign as [->| ->]; discriminate Hx.
  - intros [= <- <-] Hs. apply space_not_sign, (spaces_only _ _ _ Hs eq_refl).
Qed.

Lemma read_unsigned_REPLACE neg s q :
  read_unsigned neg s = Some q ->
  exists q', read_unsigned false (REPLACE s c) = Some q'.
Proof.
  unfold read_unsigned.
  destruct (read_digits s 0 0) as [[ip ni] s2] eqn:Hintp.
  destruct (LIKE_prefix s2 ".") eqn:Hpoint.
  - apply LIKE_prefix_true in Hpoint as [s' ->].
    destruct (read_digits s' ip 0) as [[m nf] s3] eqn:Hfrac.
    destruct (ni + nf)%nat as [|k] eqn:Hn; [discriminate|].
    destruct (read_exponent s3) as [[e s4]|] eqn:He; [|discriminate].
    destruct (skip_while is_space s4) eqn:Hs; [|discriminate].
    intros _.
    assert (Ascii.eqb "." c = false) as Hpc
      by (destruct c_sign as [->| ->]; reflexivity).
    rewrite (read_digits_REPLACE _ _ _ _ _ _ Hintp Hpc).
    rewrite (REPLACE_head _ _ Hpc).
    rewrite (read_digits_REPLACE _ _ _ _ _ _ Hfrac (after_digits_no_sign _ _ _ He Hs)).
    rewrite Hn.
    destruct (read_exponent_REPLACE _ _ _ He Hs) as [e' ->].
    rewrite Hs. eauto.
  - rewrite point_match by exact Hpoint.
    destruct (ni + 0)%nat as [|k] eqn:Hn; [discriminate|].
    destruct (read_exponent s2) as [[e s4]|] eqn:He; [|discriminate].
    destruct (skip_while is_space s4) eqn:Hs; [|discriminate].
    intros _.
    pose proof (after_digits_no_sign _ _ _ He Hs) as Hs2.
    rewrite (read_digits_REPLACE _ _ _ _ _ _ Hintp Hs2).
    assert (LIKE_prefix (REPLACE s2 c) "." = false) as Hpoint'.
    { destruct s2 as [|x s2']; [reflexivity|].
      simpl in Hs2. rewrite (REPLACE_head _ _ Hs2). exact Hpoint. }
    rewrite point_match by exact Hpoint'. rewrite Hn.
    destruct (read_exponent_REPLACE _ _ _ He Hs) as [e' ->].
    rewrite Hs. eauto.
Qed.

Lemma signed_case_of_number t q :
  signed_amount t = Some q ->
  signed_case c t = Some None \/
  exists q', signed_case c t = Some (Some q') /\
             read_unsigned false (REPLACE (TRIM t) c) = Some q'.
Proof.
  unfold signed_amount, signed_case. intros Hq.
  destruct (LIKE_prefix (TRIM t) c) eqn:Hlike; [|auto].
  apply LIKE_prefix_true in Hlike as [body Hb]. rewrite Hb in *.
  assert (exists neg, read_unsigned neg body = Some q) as [neg Hbody].
  { destruct c_sign as [->| ->]; [exists false | exists true]; exact Hq. }
  destruct (read_unsigned_REPLACE _ _ _ Hbody) as [q' Hq'].
  cbn [REPLACE]. rewrite Ascii.eqb_refl, (numeric_in_unsigned _ _ Hq'). eauto.
Qed.
End Sign_removed.

Lemma scan_row_inl row tb err : scan_row row tb = inl err -> err = ErrScan.
Proof.
  unfold scan_row.
  destruct (scan_null_float (q_avg_credit row)); [|congruence].
  destruct (scan_null_float (q_avg_debit row)); [|congruence].
  destruct (scan_null_float (q_balance row)); [discriminate | congruence].
Qed.

Lemma scan_rows_inl rows : forall tb acc err,
  scan_rows rows tb acc = inl err -> err = ErrScan.
Proof.
  induction rows as [|row rows IH]; intros tb acc err; simpl; [discriminate|].
  destruct (scan_row row tb) as [err'|[m tb']] eqn:Hrow; [|apply IH].
  intros [= <-]. eapply scan_row_inl, Hrow.
Qed.

(** ** The sign of the averages *)

Lemma read_digits_nonneg s : forall acc n a n' rest,
  0 <= acc -> read_digits s acc n = (a, n', rest) -> 0 <= a.
Proof.
  induction s as [|x s IH]; simpl; intros acc n a n' rest Hacc.
  - intros [= <- <- <-]. exact Hacc.
  - destruct (digit_of x) as [v|] eqn:Hx.
    + apply IH. unfold digit_of in Hx.
      destruct (_ && _) eqn:Hrange; [|discriminate]. injection Hx as <-. lia.
    + intros [= <- <- <-]. exact Hacc.
Qed.

Lemma pow10_nonneg e : (0 <= pow10 e)%Q.
Proof.
  unfold pow10. destruct (0 <=? e) eqn:He.
  - change 0%Q with (inject_Z 0). rewrite <- Zle_Qle. apply Z.pow_nonneg. lia.
  - unfold Qle. simpl. lia.
Qed.

Lemma read_unsigned_nonneg s q : read_unsigned false s = Some q -> (0 <= q)%Q.
Proof.
  unfold read_unsigned.
  destruct (read_digits s 0 0) as [[ip ni] s2] eqn:Hintp.
  pose proof (read_digits_nonneg _ _ _ _ _ _ (Z.le_refl 0) Hintp) as Hip.
  assert (forall m nf s3,
            match s2 with String "." s' => read_digits s' ip 0 | _ => (ip, O, s2) end
            = (m, nf, s3) -> 0 <= m) as Hm.
  { intros m nf s3. destruct (LIKE_prefix s2 ".") eqn:Hpoint.
    - apply LIKE_prefix_true in Hpoint as [s' ->]. apply read_digits_nonneg, Hip.
    - rewrite point_match by exact Hpoint. intros [= <- <- <-]. exact Hip. }
  destruct (match s2 with String "." s' => read_digits s' ip 0 | _ => (ip, O, s2) end)
    as [[m nf] s3].
  specialize (Hm m nf s3 eq_refl).
  destruct (ni + nf)%nat; [discriminate|].
  destruct (read_exponent s3) as [[e s4]|]; [|discriminate].
  destruct (skip_while is_space s4); [|discriminate].
  intros [= <-]. unfold decimal_value.
  apply Qmult_le_0_compat; [|apply pow10_nonneg].
  change 0%Q with (inject_Z 0). rewrite <- Zle_Qle. exact Hm.
Qed.

Lemma Qsum_nonneg l : Forall (fun q => (0 <= q)%Q) l -> (0 <= Qsum l)%Q.
Proof.
  induction 1 as [|q l Hq _ IH]; simpl; [apply Qle_refl|].
  change 0%Q with (0 + 0)%Q. apply Qplus_le_compat; assumption.
Qed.

Lemma non_null_Forall {A} (P : A -> Prop) l :
  Forall (fun v => forall a, v = Some a -> P a) l -> Forall P (non_null l).
Proof.
  induction 1 as [|[a|] l Hv _ IH]; simpl; [constructor | | exact IH].
  constructor; [apply Hv; reflexivity | exact IH].
Qed.

Lemma round_var_nonneg q rscale : (0 <= q)%Q -> (0 <= round_var q rscale)%Q.
Proof.
  intros Hq. rewrite <- (Qred_correct q) in Hq.
  unfold round_var. destruct (Qred q) as [n d]. cbn [Qnum Qden].
  assert (0 <= n) as Hn by (unfold Qle in Hq; simpl in Hq; lia).
  unfold Qle. cbn [Qnum Qden]. rewrite Z.mul_1_r, Z.mul_0_l.
  assert (0 <= 10 ^ rscale) as Hu by (apply Z.pow_nonneg; lia).
  apply Z.mul_nonneg_nonneg; [destruct n; simpl; lia|].
  apply Z.div_pos; lia.
Qed.

Lemma SQL_AVG_nonneg dscale l q :
  Forall (fun v => forall a, v = Some a -> (0 <= a)%Q) l ->
  SQL_AVG dscale l = Some q -> (0 <= q)%Q.
Proof.
  intros Hl. apply non_null_Forall in Hl. unfold SQL_AVG.
  destruct (non_null l) as [|x xs]; [discriminate|].
  intros [= <-]. unfold numeric_div. apply round_var_nonneg.
  apply Qmult_le_0_compat; [apply (Qsum_nonneg (x :: xs)), Hl|].
  apply Qinv_le_0_compat. change 0%Q with (inject_Z 0). rewrite <- Zle_Qle. lia.
Qed.

Lemma round_ratio_sign sign n d :
  is_positive (round_ratio sign n d) = true -> sign = false.
Proof.
  unfold round_ratio.
  destruct (SFdiv_core_binary _ _ _ _ _ _) as [[m e] l].
  unfold binary_round_aux.
  destruct (shr_fexp _ _ _ _ _) as [mrs' e'].
  destruct (shr_fexp _ _ _ _ _) as [mrs'' e''].
  destruct (shr_m mrs''); [| |discriminate].
  - destruct sign; [discriminate | reflexivity].
  - destruct (_ <=? _); destruct sign; first [discriminate | reflexivity].
Qed.

Lemma round_ratio_sign_neg sign n d :
  is_negative (round_ratio sign n d) = true -> sign = true.
Proof.
  unfold round_ratio.
  destruct (SFdiv_core_binary _ _ _ _ _ _) as [[m e] l].
  unfold binary_round_aux.
  destruct (shr_fexp _ _ _ _ _) as [mrs' e'].
  destruct (shr_fexp _ _ _ _ _) as [mrs'' e''].
  destruct (shr_m mrs''); [| |discriminate].
  - destruct sign; [reflexivity | discriminate].
  - destruct (_ <=? _); destruct sign; first [discriminate | reflexivity].
Qed.

Lemma float64_of_Q_nonneg q : (0 <= q)%Q -> is_negative (float64_of_Q q) = false.
Proof.
  intros Hq. unfold float64_of_Q.
  assert (0 <= Qnum (Qred q)) as Hn.
  { pose proof (Qred_correct q) as Heq. rewrite <- Heq in Hq.
    unfold Qle in Hq. simpl in Hq. lia. }
  destruct (Qnum (Qred q)) as [|n|n]; [reflexivity | | lia].
  destruct (is_negative (round_ratio false n (Qden (Qred q)))) eqn:H; [|reflexivity].
  apply round_ratio_sign_neg in H. discriminate.
Qed.

Lemma is_positive_neg f : is_positive (f64_neg f) = is_negative f.
Proof. destruct f as [[]|[]| |[] m e]; reflexivity. Qed.

Lemma option_nonneg_positive v :
  (forall q, v = Some q -> (0 <= q)%Q) ->
  is_negative (match v with Some q => float64_of_Q q | None => f64_zero end) = false /\
  is_positive (match v with Some q => f64_neg (float64_of_Q q) | None => f64_zero end)
  = false.
Proof.
  intros Hv. destruct v as [q|]; [|auto].
  rewrite is_positive_neg, float64_of_Q_nonneg by (apply Hv; reflexivity). auto.
Qed.

(** In every monthly summary the average credit is never below zero and the
    average debit is never above zero, whatever the amount texts of the
    month are: what the query averages after removing the sign character is
    a number without sign. *)
Theorem averages_keep_their_sign db e s :
  getTransactionSummaryByEmail db e = inr s ->
  Forall (fun m => is_negative (AverageCredit m) = false /\
                   is_positive (AverageDebit m) = false) (MonthlySummaries s).
Proof.
  intros H. apply summarize_inr in H as (rows & Hrows & _ & _ & ->).
  apply Forall_fmap, Forall_forall. intros row Hrow.
  apply Forall2_flip in Hrows.
  destruct (Forall2_elem_of_l _ _ _ _ Hrows Hrow) as (g & _ & Hg).
  apply eval_group_Some in Hg as (credits & debits & amounts & Hc & Hd & Ha & ->).
  assert (forall c (Hsign : c = "+"%char \/ c = "-"%char) vs,
            Forall2 (fun r v => signed_case c (transaction r) = Some v) g.2 vs ->
            Forall (fun v => forall a, v = Some a -> (0 <= a)%Q) vs) as Hnonneg.
  { intros c Hsign vs Hvs. apply Forall_forall. intros v Hv a ->.
    apply Forall2_flip in Hvs.
    destruct (Forall2_elem_of_l _ _ _ _ Hvs Hv) as (r & Hr & Hcase). simpl in Hcase.
    destruct (Forall2_elem_of_l _ _ _ _ Ha Hr) as (q & _ & Hq).
    destruct (signed_case_of_number c Hsign _ _ Hq) as [H|(q' & H & Hq')];
      [congruence|].
    assert (a = q') as -> by congruence.
    eapply read_unsigned_nonneg, Hq'. }
  unfold row_summary. cbn [q_avg_credit q_avg_debit AverageCredit AverageDebit compose].
  split.
  - apply option_nonneg_positive. intros q Hq.
    eapply SQL_AVG_nonneg; [|exact Hq]. apply (Hnonneg "+"%char); auto.
  - apply option_nonneg_positive. intros q Hq.
    eapply SQL_AVG_nonneg; [|exact Hq]. apply (Hnonneg "-"%char); auto.
Qed.

Lemma averages_keep_their_sign_witness :
  Forall (fun m => is_negative (AverageCredit m) = false /\
                   is_positive (AverageDebit m) = false)
    [ {| Month := "January"; TransactionCount := 2;
         AverageCredit := float64_of_Q 30;
         AverageDebit := f64_neg (float64_of_Q 15) |} ].
Proof.
  apply (averages_keep_their_sign
           [tx 1 2024 January 15 "+30.00" "ana@example.com";
            tx 2 2024 January 20 "-15.00" "ana@example.com"] "ana@example.com"
           {| Email := "ana@example.com"; TotalBalance := float64_of_Q 15;
              MonthlySummaries := _ |}).
  vm_compute. reflexivity.
Defined.

(** ** The summary and the order of the rows *)

Lemma month_before_asym a b : month_before a b -> month_before b a -> False.
Proof. rewrite <- !key_ord_lt. lia. Qed.

Lemma sorted_keys_unique l1 : forall l2,
  StronglySorted month_before l1 -> StronglySorted month_before l2 ->
  (forall k, k ∈ l1 <-> k ∈ l2) -> l1 = l2.
Proof.
  induction l1 as [|a l1 IH]; intros [|b l2] H1 H2 Heq.
  - reflexivity.
  - exfalso. apply (not_elem_of_nil b), Heq, list_elem_of_here.
  - exfalso. apply (not_elem_of_nil a), Heq, list_elem_of_here.
  - apply StronglySorted_inv in H1 as [H1 Ha], H2 as [H2 Hb].
    rewrite Forall_forall in Ha, Hb.
    assert (a = b) as ->.
    { pose proof (proj1 (Heq a) (list_elem_of_here _ _)) as Hab.
      pose proof (proj2 (Heq b) (list_elem_of_here _ _)) as Hba.
      apply elem_of_cons in Hab as [?|Hab]; [assumption|].
      apply elem_of_cons in Hba as [?|Hba]; [congruence|].
      exfalso. eapply month_before_asym; [apply Ha, Hba | apply Hb, Hab]. }
    f_equal. apply IH; [assumption..|].
    intros k. split; intros Hk.
    + pose proof (proj1 (Heq k) (list_elem_of_further _ _ _ Hk)) as Hk'.
      apply elem_of_cons in Hk' as [->|?]; [|assumption].
      exfalso. apply (month_before_irrefl b), Ha, Hk.
    + pose proof (proj2 (Heq k) (list_elem_of_further _ _ _ Hk)) as Hk'.
      apply elem_of_cons in Hk' as [->|?]; [|assumption].
      exfalso. apply (month_before_irrefl b), Hb, Hk.
Qed.

Lemma group_keys_Permutation rows rows' :
  rows ≡ₚ rows' -> group_keys rows = group_keys rows'.
Proof.
  intros Hp. apply sorted_keys_unique; [apply group_keys_sorted..|].
  intros k. rewrite !elem_of_group_keys.
  split; intros (r & Hr & Hk); exists r; (split; [|exact Hk]).
  - rewrite <- Hp. exact Hr.
  - rewrite Hp. exact Hr.
Qed.

Lemma mapM_Permutation {A B} (f : A -> option B) l l' :
  l ≡ₚ l' ->
  match mapM f l with
  | Some vs => exists vs', mapM f l' = Some vs' /\ vs ≡ₚ vs'
  | None => mapM f l' = None
  end.
Proof.
  intros Hp. destruct (mapM f l) as [vs|] eqn:Hm.
  - apply mapM_Some in Hm.
    destruct (Permutation_Forall2 Hp Hm) as (vs' & Hvs & Hm').
    exists vs'. split; [apply mapM_Some, Hm' | exact Hvs].
  - apply mapM_None. apply mapM_None in Hm.
    rewrite Exists_exists in *. destruct Hm as (x & Hx & Hf).
    exists x. split; [rewrite <- Hp; exact Hx | exact Hf].
Qed.

Lemma non_null_omap {A} (l : list (option A)) : non_null l = omap id l.
Proof.
  induction l as [|[a|] l IH]; simpl; [reflexivity | rewrite IH; reflexivity | exact IH].
Qed.

Lemma non_null_Permutation {A} (l l' : list (option A)) :
  l ≡ₚ l' -> non_null l ≡ₚ non_null l'.
Proof. intros Hp. rewrite !non_null_omap, Hp. reflexivity. Qed.

Lemma Qsum_Permutation l l' : l ≡ₚ l' -> (Qsum l == Qsum l')%Q.
Proof.
  induction 1 as [|x l l' _ IH|x y l|l1 l2 l3 _ IH1 _ IH2]; simpl.
  - reflexivity.
  - rewrite IH. reflexivity.
  - ring.
  - rewrite IH1. exact IH2.
Qed.

Lemma SQL_AVG_Permutation dscale l l' :
  l ≡ₚ l' -> SQL_AVG dscale l = SQL_AVG dscale l'.
Proof.
  intros Hp. apply non_null_Permutation in Hp. unfold SQL_AVG.
  pose proof (Qsum_Permutation _ _ Hp) as Hs.
  pose proof (Permutation_length Hp) as Hl.
  destruct (non_null l) as [|x xs], (non_null l') as [|y ys]; try discriminate Hl;
    [reflexivity|].
  rewrite Hl. f_equal. apply numeric_div_proper, Hs.
Qed.

Lemma foldr_max_Permutation l l' :
  l ≡ₚ l' -> foldr Z.max 0 l = foldr Z.max 0 l'.
Proof.
  induction 1 as [|x l l' _ IH|x y l|l1 l2 l3 _ IH1 _ IH2]; simpl; lia.
Qed.

Lemma case_dscale_Permutation c g g' :
  g ≡ₚ g' -> case_dscale c g = case_dscale c g'.
Proof.
  intros Hp. unfold case_dscale. apply foldr_max_Permutation, fmap_Permutation, Hp.
Qed.

Lemma SQL_SUM_Permutation l l' :
  l ≡ₚ l' -> option_Forall2 Qeq (SQL_SUM l) (SQL_SUM l').
Proof.
  intros Hp. apply non_null_Permutation in Hp. unfold SQL_SUM.
  pose proof (Qsum_Permutation _ _ Hp) as Hs.
  pose proof (Permutation_length Hp) as Hl.
  destruct (non_null l) as [|x xs], (non_null l') as [|y ys]; try discriminate Hl;
    constructor.
  exact Hs.
Qed.

Lemma scan_null_float_proper v v' :
  option_Forall2 Qeq v v' -> scan_null_float v = scan_null_float v'.
Proof.
  destruct 1 as [q q' Hq|]; [|reflexivity].
  unfold scan_null_float, ParseFloat.
  rewrite (float64_of_Q_proper _ _ Hq). reflexivity.
Qed.

(** Two groups of the same month with the same rows in another order give
    result rows that the scan loop cannot tell apart. *)
Lemma eval_group_Permutation k g g' :
  g ≡ₚ g' ->
  match eval_group (k, g) with
  | Some row =>
      exists row', eval_group (k, g') = Some row' /\
        forall tb, scan_row row tb = scan_row row' tb
  | None => eval_group (k, g') = None
  end.
Proof.
  intros Hp. unfold eval_group. cbn [fst snd].
  pose proof (mapM_Permutation (fun r => signed_case "+" (transaction r)) _ _ Hp) as Hc.
  pose proof (mapM_Permutation (fun r => signed_case "-" (transaction r)) _ _ Hp) as Hd.
  pose proof (mapM_Permutation (fun r => signed_amount (transaction r)) _ _ Hp) as Ha.
  destruct (mapM (fun r => signed_case "+" _) g) as [credits|];
    [destruct Hc as (credits' & -> & Hc) | rewrite Hc; reflexivity].
  destruct (mapM (fun r => signed_case "-" _) g) as [debits|];
    [destruct Hd as (debits' & -> & Hd) | rewrite Hd; reflexivity].
  destruct (mapM (fun r => signed_amount _) g) as [amounts|];
    [destruct Ha as (amounts' & -> & Ha) | rewrite Ha; reflexivity].
  simpl. eexists. split; [reflexivity|].
  intros tb. unfold scan_row. simpl.
  rewrite !(case_dscale_Permutation _ _ _ Hp).
  rewrite (SQL_AVG_Permutation _ _ _ Hc), (SQL_AVG_Permutation _ _ _ Hd).
  rewrite (scan_null_float_proper _ _
             (SQL_SUM_Permutation _ _ (fmap_Permutation Some _ _ Ha))).
  rewrite (Permutation_length Hp). reflexivity.
Qed.

Lemma scan_rows_ext rows : forall rows' tb acc,
  Forall2 (fun row row' => forall tb, scan_row row tb = scan_row row' tb) rows rows' ->
  scan_rows rows tb acc = scan_rows rows' tb acc.
Proof.
  induction rows as [|row rows IH]; intros rows' tb acc H; inversion H; subst;
    [reflexivity|].
  simpl. rewrite H2. destruct (scan_row y tb) as [err|[m tb']]; [reflexivity|].
  apply IH. assumption.
Qed.

Lemma eval_groups_Permutation rows rows' ks :
  rows ≡ₚ rows' ->
  match mapM eval_group (map (fun k => (k, filter (in_month k) rows)) ks) with
  | Some out =>
      exists out',
        mapM eval_group (map (fun k => (k, filter (in_month k) rows')) ks) = Some out' /\
        Forall2 (fun row row' => forall tb, scan_row row tb = scan_row row' tb) out out'
  | None => mapM eval_group (map (fun k => (k, filter (in_month k) rows')) ks) = None
  end.
Proof.
  intros Hp. induction ks as [|k ks IH]; [simpl; eauto|].
  cbn [map mapM].
  pose proof (eval_group_Permutation k _ _ (filter_Permutation (in_month k) _ _ Hp))
    as Hk.
  destruct (eval_group (k, filter (in_month k) rows)) as [row|];
    [destruct Hk as (row' & -> & Hrow) | rewrite Hk; reflexivity].
  simpl.
  destruct (mapM eval_group (map (fun k => (k, filter (in_month k) rows)) ks))
    as [out|]; [destruct IH as (out' & -> & Hout) | rewrite IH; reflexivity].
  simpl. eexists. split; [reflexivity|]. constructor; assumption.
Qed.

(** The summary of an account depends on the rows of that account alone, and
    not on the order in which the table holds them: two tables whose rows for
    the account are the same up to their order, whatever rows they hold for
    other accounts, give the same summary, or the same error. *)
Theorem summary_ignores_row_order db db' e :
  account_rows db e ≡ₚ account_rows db' e ->
  getTransactionSummaryByEmail db e = getTransactionSummaryByEmail db' e.
Proof.
  intros Hp. unfold getTransactionSummaryByEmail, summary_query, month_groups.
  rewrite <- (group_keys_Permutation _ _ Hp).
  pose proof (eval_groups_Permutation _ _ (group_keys (account_rows db e)) Hp) as H.
  destruct (mapM eval_group _) as [out|]; [|rewrite H; reflexivity].
  destruct H as (out' & -> & Hout).
  rewrite (scan_rows_ext _ _ _ _ Hout). reflexivity.
Qed.

Lemma summary_ignores_row_order_witness :
  getTransactionSummaryByEmail
    [tx 1 2024 January 15 "+30.00" "ana@example.com";
     tx 2 2024 January 20 "abc" "luis@example.com";
     tx 3 2023 December 2 "-15.00" "ana@example.com"] "ana@example.com"
  = getTransactionSummaryByEmail
      [tx 3 2023 December 2 "-15.00" "ana@example.com";
       tx 1 2024 January 15 "+30.00" "ana@example.com"] "ana@example.com".
Proof.
  apply summary_ignores_row_order. vm_compute. apply perm_swap.
Defined.


(** * The connection singleton *)

(** Whatever the first call of [getDBConnection] returns, an error and no
    pool included, the call after it, in whatever environment, returns the
    same pool with no error and leaves the package variables as they are:
    the error of [sql.Open] or [db.Ping] is reported to one caller only. *)
Theorem connection_error_is_reported_once d d' g :
  let first := getDBConnection d g in
  let second := getDBConnection d' first.2 in
  second.1 = (first.1.1, None) /\ second.2 = first.2 /\ dbOnce first.2 = true.
Proof.
  unfold getDBConnection. destruct (dbOnce g) eqn:Hg; simpl.
  - rewrite Hg. auto.
  - destruct (sql_Open d (connStr d)); simpl; auto.
Qed.

(** * The notification Lambda *)

Lemma send_all_run ses summaries : forall st,
  Emailer.calls (Emailer.send_all ses summaries st)
  = Emailer.calls st ++ (Emailer.input_of <$> summaries) /\
  (exists sent,
     Emailer.delivered (Emailer.send_all ses summaries st)
     = Emailer.delivered st ++ sent /\
     sent `sublist_of` (Emailer.input_of <$> summaries)) /\
  (exists lines,
     Emailer.log (Emailer.send_all ses summaries st) = Emailer.log st ++ lines /\
     Forall2 (fun summary line =>
                line = Emailer.LogSent (Email summary) \/
                line = Emailer.LogSendFailed (Email summary)) summaries lines).
Proof.
  induction summaries as [|summary rest IH]; intros st.
  - simpl. rewrite !app_nil_r. split; [reflexivity|].
    split; [exists []|exists []]; rewrite app_nil_r; split;
      first [reflexivity | constructor].
  - cbn [Emailer.send_all]. rewrite fmap_cons.
    destruct (ses (Emailer.calls st) (Emailer.input_of summary));
      match goal with |- context [Emailer.send_all ses rest ?st'] =>
        destruct (IH st') as (Hc & (sent & Hd & Hsub) & (lines & Hl & Hlines))
      end; simpl in Hc, Hd, Hl.
    + split; [rewrite Hc, <- app_assoc; reflexivity|]. split.
      * exists (Emailer.input_of summary :: sent).
        split; [rewrite Hd, <- app_assoc; reflexivity|].
        apply sublist_skip, Hsub.
      * exists (Emailer.LogSent (Email summary) :: lines).
        split; [rewrite Hl, <- app_assoc; reflexivity|].
        constructor; auto.
    + split; [rewrite Hc, <- app_assoc; reflexivity|]. split.
      * exists sent. split; [exact Hd|]. apply sublist_cons, Hsub.
      * exists (Emailer.LogSendFailed (Email summary) :: lines).
        split; [rewrite Hl, <- app_assoc; reflexivity|].
        constructor; auto.
Qed.

(** The emailer never returns an error. With no summary it calls SES not at
    all; otherwise it calls SES once per summary, in order, each request
    addressed to the email of its summary with the body built from it, and a
    request that SES refuses is logged and does not stop the loop: there is
    one log line per summary, and what SES took is a subsequence of the
    requests. *)
Theorem emailer_mails_every_summary ses event st :
  let out := Emailer.handler ses event st in
  out.1.2 = None /\
  out.1.1 = (if decide (event = []) then "No summaries to send" else "Emails sent") /\
  Emailer.calls out.2 = Emailer.calls st ++ (Emailer.input_of <$> event) /\
  (exists sent,
     Emailer.delivered out.2 = Emailer.delivered st ++ sent /\
     sent `sublist_of` (Emailer.input_of <$> event)) /\
  (exists lines,
     Emailer.log out.2 = Emailer.log st ++ lines /\
     if decide (event = []) then lines = [Emailer.LogNoSummaries]
     else Forall2 (fun summary line =>
                     line = Emailer.LogSent (Email summary) \/
                     line = Emailer.LogSendFailed (Email summary)) event lines).
Proof.
  unfold Emailer.handler. destruct event as [|summary rest].
  - simpl. rewrite !app_nil_r. split; [reflexivity|]. split; [reflexivity|].
    split; [reflexivity|]. split; [exists []; rewrite app_nil_r; auto|].
    exists [Emailer.LogNoSummaries]. auto.
  - assert ((len (summary :: rest) =? 0) = false) as -> by (unfold len; simpl; lia).
    cbn [fst snd]. rewrite decide_False by discriminate.
    destruct (send_all_run ses (summary :: rest) st) as (Hc & Hd & Hl). auto.
Qed.

Lemma summary_of_Email db e summary :
  summary_of db e = Some summary -> Email summary = e.
Proof.
  unfold summary_of.
  destruct (getTransactionSummaryByEmail db e) as [err|s] eqn:Hs; [discriminate|].
  intros [= <-]. apply summarize_inr in Hs as (_ & _ & He & _). exact He.
Qed.

Lemma omap_summary_emails (db : Table) (emails : list string) :
  Email <$> omap (summary_of db) emails
  = filter (fun e => is_Some (summary_of db e)) emails.
Proof.
  induction emails as [|e emails IH]; [reflexivity|].
  rewrite omap_cons, fmap_app, IH, filter_cons.
  destruct (summary_of db e) as [summary|] eqn:Hs.
  - rewrite decide_True by eauto. simpl. f_equal. eapply summary_of_Email, Hs.
  - rewrite decide_False by (intros [? ?]; discriminate). reflexivity.
Qed.

(** The two Lambdas together, on one file: of the accounts that have a row in
    the file, those whose summary can be computed after the commit are each
    sent one mail request, in the order of the visit of the email set, and
    the accounts whose summary fails are sent nothing. *)
Theorem run_mails_each_summarized_account env record header rest w w' ses st :
  GetObject env (Bucket record) (Key record) = Some ((header, None) :: rest) ->
  len header = 4 ->
  handler env [record] w = (inr tt, w') ->
  exists rs payload,
    table w' = table w ++ rs /\
    invoked w' = invoked w ++ [payload] /\
    Emailer.ToAddresses <$> Emailer.calls (Emailer.handler ses payload st).2
    = (Emailer.ToAddresses <$> Emailer.calls st) ++
      ((fun e => [e]) <$>
         filter (fun e => is_Some (summary_of (table w') e))
           (map_range env (list_to_set (email <$> rs)))).
Proof.
  intros Hobj Hlen Hrun. rewrite handler_run in Hrun.
  destruct (connection_ok env); [|discriminate].
  cbn [process_records] in Hrun. unfold mbind at 1, M_bind in Hrun.
  rewrite process_record_run in Hrun.
  rewrite (processCSVFile_run _ _ _ _ _ _ Hobj Hlen) in Hrun.
  destruct (begin_ok env _); [|discriminate].
  destruct (persist env _ _) as [[err|emailSet] w2] eqn:Hper; [discriminate|].
  pose proof (persist_inv _ _ _ _ _ Hper) as (_ & Hi2 & _).
  apply persist_success in Hper as (rs & Hc & -> & Ht & _).
  simpl in Ht, Hi2.
  rewrite collect_summaries_run in Hrun. unfold mret, M_ret in Hrun.
  unfold invokeNotificationLambda, throw in Hrun.
  destruct (forallb marshals _); [|discriminate].
  destruct (invoke_ok env _); [|discriminate].
  injection Hrun as <-. simpl. exists rs. eexists.
  split; [exact Ht|]. split; [rewrite Hi2; reflexivity|].
  destruct (send_all_run ses
              (omap (summary_of (table w2)) (map_range env (list_to_set (email <$> rs))))
              st) as (Hcalls & _).
  unfold Emailer.handler.
  destruct (len _ =? 0) eqn:Hempty.
  - simpl. apply Z.eqb_eq in Hempty. unfold len in Hempty.
    destruct (omap _ _) as [|? ?] eqn:Hpayload; [|simpl in Hempty; lia].
    rewrite <- omap_summary_emails, Hpayload. simpl. rewrite app_nil_r. reflexivity.
  - cbn [snd]. rewrite Hcalls, fmap_app. f_equal.
    rewrite <- omap_summary_emails, <- !list_fmap_compose. reflexivity.
Qed.

Lemma run_mails_each_summarized_account_witness :
  let env := example_env (one_object "uploads" "txns.csv" example_csv) in
  let w' := (handler env [example_record] initial_world).2 in
  exists rs payload,
    table w' = table initial_world ++ rs /\
    invoked w' = invoked initial_world ++ [payload] /\
    Emailer.ToAddresses <$>
      Emailer.calls (Emailer.handler (fun _ _ => true) payload Emailer.idle).2
    = (Emailer.ToAddresses <$> Emailer.calls Emailer.idle) ++
      ((fun e => [e]) <$>
         filter (fun e => is_Some (summary_of (table w') e))
           (map_range env (list_to_set (email <$> rs)))).
Proof.
  intros env w'.
  apply (run_mails_each_summarized_account env example_record
           ["id"; "date"; "transaction"; "email"] (tail example_csv)
           initial_world w' (fun _ _ => true) Emailer.idle).
  - reflexivity.
  - reflexivity.
  - vm_compute. reflexivity.
Defined.

(** * The upload Lambda *)

Lemma string_app_length s1 s2 :
  String.length (s1 +:+ s2) = (String.length s1 + String.length s2)%nat.
Proof. induction s1 as [|c s1 IH]; simpl; [reflexivity | rewrite IH; reflexivity]. Qed.

Lemma string_app_inj_l s : forall s1 s2, s1 +:+ s = s2 +:+ s -> s1 = s2.
Proof.
  induction s1 as [|c s1 IH]; intros [|c' s2] H.
  - reflexivity.
  - apply (f_equal String.length) in H.
    rewrite !string_app_length in H. simpl in H. lia.
  - apply (f_equal String.length) in H.
    rewrite !string_app_length in H. simpl in H. lia.
  - simpl in H. injection H as -> H. f_equal. apply IH, H.
Qed.

Lemma generateFilename_inj now now' :
  Uploader.generateFilename now = Uploader.generateFilename now' -> now = now'.
Proof.
  unfold Uploader.generateFilename. intros H.
  apply String.app_inj in H. apply string_app_inj_l in H.
  apply pretty_Z_inj in H. exact H.
Qed.

Lemma uploader_handler_200 env now req st :
  Uploader.StatusCode (Uploader.handler env now req st).1.1 = 200 <->
  Uploader.Method req = "POST" /\
  exists body, Uploader.decodeRequestBody env req = Some body /\
    Uploader.PutObject env (Uploader.objects st) (Uploader.generateFilename now) body
    = None.
Proof.
  unfold Uploader.handler, Uploader.uploadToS3.
  destruct (String.eqb (Uploader.Method req) "POST") eqn:Hm; simpl.
  - apply String.eqb_eq in Hm.
    destruct (Uploader.decodeRequestBody env req) as [body|]; simpl.
    + destruct (Uploader.PutObject env _ _ body) as [err|] eqn:Hput; simpl.
      * split; [discriminate|]. intros (_ & body' & [= <-] & Hput'). congruence.
      * split; [eauto|reflexivity].
    + split; [discriminate|]. intros (_ & body & ? & _). discriminate.
  - apply String.eqb_neq in Hm. split; [discriminate|]. intros [? _]. contradiction.
Qed.

Lemma uploader_handler_store env now req st :
  Uploader.objects (Uploader.handler env now req st).2
  = if decide (Uploader.StatusCode (Uploader.handler env now req st).1.1 = 200)
    then match Uploader.decodeRequestBody env req with
         | Some body => <[Uploader.generateFilename now := body]> (Uploader.objects st)
         | None => Uploader.objects st
         end
    else Uploader.objects st.
Proof.
  unfold Uploader.handler, Uploader.uploadToS3.
  destruct (String.eqb (Uploader.Method req) "POST"); simpl; [|reflexivity].
  destruct (Uploader.decodeRequestBody env req) as [body|]; simpl; [|reflexivity].
  destruct (Uploader.PutObject env _ _ body); reflexivity.
Qed.

(** The upload handler never returns an error to the Lambda runtime: every
    outcome is an HTTP response. It answers 200 exactly for a POST whose body
    decodes and whose object S3 takes, and then the bucket holds that body
    under the generated key; with any other answer the bucket is as it
    was. *)
Theorem upload_answers_and_bucket env now req st :
  let out := Uploader.handler env now req st in
  out.1.2 = None /\
  (Uploader.StatusCode out.1.1 = 200 <->
   Uploader.Method req = "POST" /\
   exists body, Uploader.decodeRequestBody env req = Some body /\
     Uploader.PutObject env (Uploader.objects st) (Uploader.generateFilename now) body
     = None) /\
  Uploader.objects out.2
  = (if decide (Uploader.StatusCode out.1.1 = 200)
     then match Uploader.decodeRequestBody env req with
          | Some body => <[Uploader.generateFilename now := body]> (Uploader.objects st)
          | None => Uploader.objects st
          end
     else Uploader.objects st).
Proof.
  split; [|split; [apply uploader_handler_200 | apply uploader_handler_store]].
  unfold Uploader.handler, Uploader.uploadToS3.
  destruct (negb _); [reflexivity|].
  destruct (Uploader.decodeRequestBody env req) as [body|]; [|reflexivity].
  destruct (Uploader.PutObject env _ _ body); reflexivity.
Qed.

(** The key of an upload is the second it arrives in. Of two uploads that
    both get 200, the second replaces the first when they fall in the same
    second, so that the first file is lost, and both are kept, each under
    its own key, when they do not. *)
Theorem same_second_uploads_collide env now now' req req' body body' st :
  let first := Uploader.handler env now req st in
  let second := Uploader.handler env now' req' first.2 in
  Uploader.decodeRequestBody env req = Some body ->
  Uploader.decodeRequestBody env req' = Some body' ->
  Uploader.StatusCode first.1.1 = 200 ->
  Uploader.StatusCode second.1.1 = 200 ->
  first.1.1 = Uploader.successResponse
                ("File successfully uploaded as " +:+ Uploader.generateFilename now) /\
  (now = now' ->
   Uploader.objects second.2
   = <[Uploader.generateFilename now := body']> (Uploader.objects st)) /\
  (now <> now' ->
   Uploader.objects second.2 !! Uploader.generateFilename now = Some body /\
   Uploader.objects second.2 !! Uploader.generateFilename now' = Some body').
Proof.
  intros first second Hb Hb' H1 H2.
  pose proof (uploader_handler_store env now req st) as Hs1.
  pose proof (uploader_handler_store env now' req' first.2) as Hs2.
  fold first in Hs1. fold second in Hs2.
  rewrite decide_True, Hb in Hs1 by exact H1.
  rewrite decide_True, Hb' in Hs2 by exact H2.
  split; [|split].
  - clear -H1 Hb. subst first.
    unfold Uploader.handler, Uploader.uploadToS3 in *.
    destruct (negb _); [discriminate|]. rewrite Hb in *.
    destruct (Uploader.PutObject env _ _ body); [discriminate | reflexivity].
  - intros <-. rewrite Hs2, Hs1. apply insert_insert_eq.
  - intros Hne. rewrite Hs2, Hs1. split.
    + rewrite lookup_insert_ne by (intros H; apply Hne; symmetry;
                                   apply generateFilename_inj, H).
      apply lookup_insert_eq.
    + apply lookup_insert_eq.
Qed.

Lemma same_second_uploads_collide_witness :
  let first := Uploader.handler Uploader.open_bucket 1730000000
                 (Uploader.post "first file") Uploader.empty_store in
  let second := Uploader.handler Uploader.open_bucket 1730000000
                  (Uploader.post "second file") first.2 in
  Uploader.objects second.2 = {[ "upload-1730000000.csv" := "second file" ]}.
Proof.
  intros first second.
  pose proof (same_second_uploads_collide Uploader.open_bucket 1730000000 1730000000
                (Uploader.post "first file") (Uploader.post "second file")
                "first file" "second file" Uploader.empty_store
                eq_refl eq_refl eq_refl eq_refl) as (_ & Hsame & _).
  exact (eq_trans (Hsame eq_refl) (insert_empty _ _)).
Defined.

(** * Edge cases of the run and of the summary *)

(** A file with a good header and no usable data line is not an error. When
    every call goes through, the run begins and commits an empty
    transaction, leaves the table as it was, and still invokes the
    notification Lambda, with the empty list of summaries. *)
Theorem file_without_rows_still_notifies env record header rest w :
  GetObject env (Bucket record) (Key record) = Some ((header, None) :: rest) ->
  len header = 4 ->
  valid_rows rest = [] ->
  connection_ok env = true ->
  (forall w0, begin_ok env w0 = true) ->
  (forall w0, prepare_ok env w0 = true) ->
  (forall w0, commit_ok env w0 = true) ->
  (forall w0, invoke_ok env w0 = true) ->
  map_range env ∅ = [] ->
  exists w',
    handler env [record] w = (inr tt, w') /\
    table w' = table w /\
    trace w' = trace w ++ [OpBegin; OpPrepare; OpCommit] /\
    invoked w' = invoked w ++ [[]].
Proof.
  intros Hobj Hlen Hrows Hconn Hbegin Hprep Hcommit Hinv Hrange.
  rewrite handler_run, Hconn.
  cbn [process_records]. unfold mbind at 1, M_bind.
  rewrite process_record_run, (processCSVFile_run _ _ _ _ _ _ Hobj Hlen), Hrows.
  rewrite Hbegin, persist_run, insertTransactions_prepared by apply Hprep.
  cbn [insert_rows]. unfold mret at 1, M_ret. rewrite Hcommit.
  rewrite Hrange. cbn [collect_summaries]. unfold mret, M_ret.
  unfold invokeNotificationLambda. cbn [forallb]. rewrite Hinv, log_run.
  eexists. split; [reflexivity|]. simpl. rewrite app_nil_r, <- !app_assoc. auto.
Qed.

Lemma file_without_rows_still_notifies_witness :
  let env := example_env (one_object "uploads" "txns.csv" header_only_csv) in
  exists w',
    handler env [example_record] initial_world = (inr tt, w') /\
    table w' = table initial_world /\
    trace w' = trace initial_world ++ [OpBegin; OpPrepare; OpCommit] /\
    invoked w' = invoked initial_world ++ [[]].
Proof.
  intros env.
  apply (file_without_rows_still_notifies env example_record
           ["id"; "date"; "transaction"; "email"] [] initial_world);
    reflexivity.
Defined.

Lemma scan_null_float_finite v n :
  scan_null_float v = Some n -> is_finite (Float64 n) = true.
Proof.
  destruct v as [q|]; simpl.
  - unfold ParseFloat. destruct (is_finite (float64_of_Q q)) eqn:Hf; [|discriminate].
    intros [= <-]. exact Hf.
  - intros [= <-]. reflexivity.
Qed.

Lemma is_finite_neg f : is_finite (f64_neg f) = is_finite f.
Proof. destruct f; reflexivity. Qed.

Lemma scan_row_finite row tb m tb' :
  scan_row row tb = inr (m, tb') ->
  is_finite (AverageCredit m) = true /\ is_finite (AverageDebit m) = true.
Proof.
  unfold scan_row.
  destruct (scan_null_float (q_avg_credit row)) as [c|] eqn:Hc; [|discriminate].
  destruct (scan_null_float (q_avg_debit row)) as [d|] eqn:Hd; [|discriminate].
  destruct (scan_null_float (q_balance row)) as [b|] eqn:Hb; [|discriminate].
  apply scan_null_float_finite in Hc, Hd.
  intros [= <- <-]. simpl.
  destruct (Valid c), (Valid d); rewrite ?is_finite_neg; auto.
Qed.

Lemma scan_rows_finite rows : forall tb acc tb' out,
  Forall (fun m => is_finite (AverageCredit m) = true /\
                   is_finite (AverageDebit m) = true) acc ->
  scan_rows rows tb acc = inr (tb', out) ->
  Forall (fun m => is_finite (AverageCredit m) = true /\
                   is_finite (AverageDebit m) = true) out.
Proof.
  induction rows as [|row rows IH]; simpl; intros tb acc tb' out Hacc.
  - intros [= <- <-]. exact Hacc.
  - destruct (scan_row row tb) as [err|[m tb1]] eqn:Hrow; [discriminate|].
    apply IH. apply Forall_app. split; [exact Hacc|].
    constructor; [|constructor]. eapply scan_row_finite, Hrow.
Qed.

(** An account whose amount texts are all decimal literals: the averages of
    a summary that is returned for it are finite numbers, so the payload can
    fail to serialize only through a total balance that the additions have
    carried to an infinity, and [json.Marshal] accepts the summary exactly
    when its total balance is finite. The texts that PostgreSQL reads as the
    special values (NaN, and Infinity in recent versions) are left out by the
    hypothesis: their sums and averages come back as floats that are not
    finite. *)
Theorem decimal_amounts_serialize_unless_balance_overflows db e s :
  decimal_amounts (account_rows db e) ->
  getTransactionSummaryByEmail db e = inr s ->
  Forall (fun m => is_finite (AverageCredit m) = true /\
                   is_finite (AverageDebit m) = true) (MonthlySummaries s) /\
  marshals s = is_finite (TotalBalance s).
Proof.
  intros _ H.
  assert (Forall (fun m => is_finite (AverageCredit m) = true /\
                           is_finite (AverageDebit m) = true) (MonthlySummaries s))
    as Hfin.
  { unfold getTransactionSummaryByEmail in H.
    destruct (summary_query db e) as [rows|]; [|discriminate].
    destruct (scan_rows rows f64_zero []) as [err|[tb out]] eqn:Hscan; [discriminate|].
    injection H as <-. simpl. eapply scan_rows_finite; [|exact Hscan]. constructor. }
  split; [exact Hfin|].
  unfold marshals.
  assert (forallb (fun m => is_finite (AverageCredit m) && is_finite (AverageDebit m))
            (MonthlySummaries s) = true) as ->; [|apply andb_true_r].
  induction Hfin as [|m ms [Hc Hd] _ IH]; [reflexivity|].
  simpl. rewrite Hc, Hd, IH. reflexivity.
Qed.

Lemma decimal_amounts_serialize_unless_balance_overflows_witness :
  marshals {| Email := "ana@example.com"; TotalBalance := float64_of_Q 15;
              MonthlySummaries :=
                [ {| Month := "January"; TransactionCount := 2;
                     AverageCredit := float64_of_Q 30;
                     AverageDebit := f64_neg (float64_of_Q 15) |} ] |}
  = is_finite (float64_of_Q 15).
Proof.
  apply (decimal_amounts_serialize_unless_balance_overflows
           [tx 1 2024 January 15 "+30.00" "ana@example.com";
            tx 2 2024 January 20 "-15.00" "ana@example.com"] "ana@example.com").
  - vm_compute. repeat constructor; eauto.
  - vm_compute. reflexivity.
Defined.

(** A month is reported only if it holds a row: every monthly summary counts
    at least one transaction, and an account gets an empty list of months
    exactly when it has no row in the table. *)
Theorem no_empty_month_is_reported db e s :
  getTransactionSummaryByEmail db e = inr s ->
  Forall (fun m => 1 <= TransactionCount m) (MonthlySummaries s) /\
  (MonthlySummaries s = [] <-> account_rows db e = []).
Proof.
  intros H. apply summarize_inr in H as (rows & Hrows & _ & _ & ->).
  split.
  - apply Forall_fmap, Forall_forall. intros row Hrow.
    apply Forall2_flip in Hrows.
    destruct (Forall2_elem_of_l _ _ _ _ Hrows Hrow) as (g & Hg & Heval).
    simpl in Heval.
    apply eval_group_Some in Heval as (? & ? & ? & _ & _ & _ & ->).
    unfold compose, row_summary. simpl.
    pose proof (month_group_nonempty _ _ Hg) as Hne.
    unfold len. destruct (g.2); [contradiction|]. simpl. lia.
  - split.
    + intros Hnil. apply fmap_nil_inv in Hnil as ->.
      apply Forall2_nil_inv_r in Hrows.
      unfold month_groups in Hrows. apply fmap_nil_inv in Hrows.
      destruct (account_rows db e) as [|r rs] eqn:Hacc; [reflexivity|].
      exfalso. apply (not_elem_of_nil (DATE_TRUNC_month (date r))).
      rewrite <- Hrows. apply elem_of_group_keys. exists r.
      split; [apply list_elem_of_here | reflexivity].
    + intros Hacc. rewrite Hacc in Hrows. apply Forall2_nil_inv_l in Hrows as ->.
      reflexivity.
Qed.

Lemma no_empty_month_is_reported_witness :
  Forall (fun m => 1 <= TransactionCount m)
    [ {| Month := "January"; TransactionCount := 2;
         AverageCredit := float64_of_Q 30;
         AverageDebit := f64_neg (float64_of_Q 15) |} ].
Proof.
  apply (no_empty_month_is_reported
           [tx 1 2024 January 15 "+30.00" "ana@example.com";
            tx 2 2024 January 20 "-15.00" "ana@example.com"] "ana@example.com"
           {| Email := "ana@example.com"; TotalBalance := float64_of_Q 15;
              MonthlySummaries := _ |}).
  vm_compute. reflexivity.
Defined.

(** * The sign in the mail *)

Lemma pretty_nonneg_head n s' : 0 <= n -> pretty n <> "-" +:+ s'.
Proof.
  intros Hn. destruct n as [|p|p]; [discriminate | | lia].
  unfold pretty, pretty_Z, pretty, pretty_positive, pretty, pretty_N.
  rewrite decide_False by discriminate.
  apply pretty_N_go_ne_dash. discriminate.
Qed.

Lemma formatFloat_minus f :
  LIKE_prefix (Emailer.formatFloat f) "-" = sign_bit f.
Proof.
  destruct f as [[]|[]| |[] m e]; try reflexivity.
  unfold Emailer.formatFloat, sign_bit.
  set (n := Emailer.hundredths m e).
  assert (0 <= n / 100) as Hn.
  { apply Z.div_pos; [|lia]. subst n. unfold Emailer.hundredths.
    destruct (0 <=? e) eqn:He; [apply Z.leb_le in He; nia|].
    unfold Emailer.round_half_even.
    assert (0 < 2 ^ (- e)) by (apply Z.pow_pos_nonneg; lia).
    assert (0 <= Z.pos m * 100 / 2 ^ (- e)) by (apply Z.div_pos; lia).
    repeat destruct (_ <? _); try destruct (Z.even _); lia. }
  pose proof (pretty_nonneg_head (n / 100)) as Hhead.
  destruct (pretty (n / 100)) as [|c s'] eqn:Hp; [reflexivity|].
  simpl. destruct (Ascii.eqb c "-") eqn:Hc; [|reflexivity].
  apply Ascii.eqb_eq in Hc as ->. exfalso. apply (Hhead s' Hn). reflexivity.
Qed.

Lemma sign_bit_of_nonneg q : (0 <= q)%Q -> sign_bit (float64_of_Q q) = false.
Proof.
  intros Hq. unfold float64_of_Q.
  assert (0 <= Qnum (Qred q)) as Hn.
  { pose proof (Qred_correct q) as Heq. rewrite <- Heq in Hq.
    unfold Qle in Hq. simpl in Hq. lia. }
  destruct (Qnum (Qred q)) as [|n|n]; [reflexivity | | lia].
  unfold round_ratio.
  destruct (SFdiv_core_binary _ _ _ _ _ _) as [[m e] l].
  unfold binary_round_aux.
  destruct (shr_fexp _ _ _ _ _) as [mrs' e'].
  destruct (shr_fexp _ _ _ _ _) as [mrs'' e''].
  destruct (shr_m mrs''); [reflexivity | | reflexivity].
  destruct (_ <=? _); reflexivity.
Qed.

Lemma sign_bit_neg f : is_finite f = true -> sign_bit (f64_neg f) = negb (sign_bit f).
Proof. destruct f; first [reflexivity | discriminate]. Qed.

Lemma debits_non_null g vs :
  Forall2 (fun r v => signed_case "-" (transaction r) = Some v) g vs ->
  (non_null vs = [] <-> List.filter is_debit g = []).
Proof.
  induction 1 as [|r v g vs Hr _ IH]; [tauto|].
  simpl. unfold is_debit at 1.
  unfold signed_case in Hr.
  destruct (LIKE_prefix (TRIM (transaction r)) "-").
  - destruct (numeric_in _) as [q|]; [|discriminate]. injection Hr as <-.
    simpl. split; discriminate.
  - injection Hr as <-. simpl. exact IH.
Qed.

Lemma summaries_finite db e s :
  getTransactionSummaryByEmail db e = inr s ->
  Forall (fun m => is_finite (AverageCredit m) = true /\
                   is_finite (AverageDebit m) = true) (MonthlySummaries s).
Proof.
  unfold getTransactionSummaryByEmail.
  destruct (summary_query db e) as [rows|]; [|discriminate].
  destruct (scan_rows rows f64_zero []) as [err|[tb out]] eqn:Hscan; [discriminate|].
  intros [= <-]. simpl. eapply scan_rows_finite; [|exact Hscan]. constructor.
Qed.

Lemma group_averages g row :
  eval_group g = Some row ->
  (forall q, q_avg_credit row = Some q -> (0 <= q)%Q) /\
  (forall q, q_avg_debit row = Some q -> (0 <= q)%Q) /\
  (q_avg_debit row = None <-> List.filter is_debit g.2 = []).
Proof.
  intros Hg.
  apply eval_group_Some in Hg as (credits & debits & amounts & Hc & Hd & Ha & ->).
  assert (forall c (Hsign : c = "+"%char \/ c = "-"%char) vs,
            Forall2 (fun r v => signed_case c (transaction r) = Some v) g.2 vs ->
            Forall (fun v => forall a, v = Some a -> (0 <= a)%Q) vs) as Hnonneg.
  { intros c Hsign vs Hvs. apply Forall_forall. intros v Hv a ->.
    apply Forall2_flip in Hvs.
    destruct (Forall2_elem_of_l _ _ _ _ Hvs Hv) as (r & Hr & Hcase). simpl in Hcase.
    destruct (Forall2_elem_of_l _ _ _ _ Ha Hr) as (q & _ & Hq).
    destruct (signed_case_of_number c Hsign _ _ Hq) as [H|(q' & H & Hq')];
      [congruence|].
    assert (a = q') as -> by congruence.
    eapply read_unsigned_nonneg, Hq'. }
  cbn [q_avg_credit q_avg_debit]. split; [|split].
  - intros q Hq. eapply SQL_AVG_nonneg; [|exact Hq]. apply (Hnonneg "+"%char); auto.
  - intros q Hq. eapply SQL_AVG_nonneg; [|exact Hq]. apply (Hnonneg "-"%char); auto.
  - rewrite <- (debits_non_null _ _ Hd). unfold SQL_AVG.
    destruct (non_null debits); split; first [reflexivity | discriminate].
Qed.

(** What the account reads in its mail: the average credit of a month is
    never printed with a minus sign, and the average debit is printed with
    one exactly when the month holds a debit row, "-0.00" when all its
    debits are zero. *)
Theorem mail_shows_a_minus_exactly_for_debits db e s :
  getTransactionSummaryByEmail db e = inr s ->
  Forall2 (fun g m =>
             LIKE_prefix (Emailer.formatFloat (AverageCredit m)) "-" = false /\
             (LIKE_prefix (Emailer.formatFloat (AverageDebit m)) "-" = true <->
              List.filter is_debit g.2 <> []))
    (month_groups (account_rows db e)) (MonthlySummaries s).
Proof.
  intros H. pose proof (summaries_finite _ _ _ H) as Hfin.
  apply summarize_inr in H as (rows & Hrows & _ & _ & Hms).
  rewrite Hms in *. clear Hms.
  induction Hrows as [|g row groups rows Hg _ IH]; [constructor|].
  rewrite fmap_cons in Hfin. apply Forall_cons in Hfin as [[_ Hfd] Hfin].
  simpl. constructor; [|apply IH, Hfin].
  destruct (group_averages _ _ Hg) as (Hcredit & Hdebit & Hnone).
  rewrite !formatFloat_minus. unfold row_summary in *.
  cbn [AverageCredit AverageDebit] in *. split.
  - destruct (q_avg_credit row) as [q|]; [|reflexivity].
    apply sign_bit_of_nonneg, Hcredit. reflexivity.
  - destruct (q_avg_debit row) as [q|].
    + rewrite is_finite_neg in Hfd.
      rewrite (sign_bit_neg _ Hfd), sign_bit_of_nonneg by (apply Hdebit; reflexivity).
      split; [|reflexivity]. intros _ Hnil. apply Hnone in Hnil. discriminate.
    + split; [discriminate|]. intros Hne. exfalso. apply Hne, Hnone. reflexivity.
Qed.

Lemma mail_shows_a_minus_exactly_for_debits_witness :
  Forall2 (fun g m =>
             LIKE_prefix (Emailer.formatFloat (AverageCredit m)) "-" = false /\
             (LIKE_prefix (Emailer.formatFloat (AverageDebit m)) "-" = true <->
              List.filter is_debit g.2 <> []))
    (month_groups
       (account_rows [tx 1 2024 January 15 "+30.00" "ana@example.com";
                      tx 2 2024 January 20 "-0.00" "ana@example.com"]
          "ana@example.com"))
    [ {| Month := "January"; TransactionCount := 2;
         AverageCredit := float64_of_Q 30;
         AverageDebit := f64_neg f64_zero |} ].
Proof.
  apply (mail_shows_a_minus_exactly_for_debits
           [tx 1 2024 January 15 "+30.00" "ana@example.com";
            tx 2 2024 January 20 "-0.00" "ana@example.com"] "ana@example.com"
           {| Email := "ana@example.com"; TotalBalance := float64_of_Q 30;
              MonthlySummaries := _ |}).
  vm_compute. reflexivity.
Defined.

(** * Several files in one event *)

Lemma processCSVFile_result env bucket key w w0 :
  (processCSVFile env bucket key w).1 = (processCSVFile env bucket key w0).1.
Proof.
  unfold processCSVFile, mbind, M_bind. rewrite !log_run.
  destruct (GetObject env bucket key) as [[|[header [err|]] rest]|]; try reflexivity.
  destruct (len header =? 4); [|reflexivity].
  rewrite !read_rows_run, !log_run. reflexivity.
Qed.

(** A turn of the loop that succeeds: the rows of the file are stored, then
    the accounts of these rows are summarized over the table as it is
    now. *)
Lemma process_record_success env record summaries w out w' :
  process_record env record summaries w = (inr out, w') ->
  exists rows rs,
    (processCSVFile env (Bucket record) (Key record) w).1 = inr rows /\
    converts env (table w) rows rs /\
    table w' = table w ++ rs /\
    out = summaries ++
          omap (summary_of (table w')) (map_range env (list_to_set (email <$> rs))).
Proof.
  rewrite process_record_run.
  destruct (processCSVFile env (Bucket record) (Key record) w) as [[err|rows] w1] eqn:Hcsv;
    [discriminate|].
  apply processCSVFile_inv in Hcsv as (Ht & _).
  destruct (begin_ok env w1); [|discriminate].
  destruct (persist env rows _) as [[err|emailSet] w2] eqn:Hper; [discriminate|].
  apply persist_success in Hper as (rs & Hc & -> & Ht2 & _).
  simpl in Hc, Ht2. rewrite app_nil_r, Ht in Hc. rewrite Ht in Ht2.
  rewrite collect_summaries_run. intros [= <- <-]. simpl.
  exists rows, rs. rewrite Ht2. auto.
Qed.

(** Summaries pile up file by file. On an event of two files that succeeds,
    the payload is the summaries of the accounts of the first file, over the
    table as the first commit left it, followed by the summaries of the
    accounts of the second file, over the final table: an account with rows
    in both files is in the payload twice, the first time without the rows of
    the second file. *)
Theorem summaries_pile_up_file_by_file env record1 record2 w w' :
  handler env [record1; record2] w = (inr tt, w') ->
  exists rows1 rows2 rs1 rs2,
    (processCSVFile env (Bucket record1) (Key record1) w).1 = inr rows1 /\
    (processCSVFile env (Bucket record2) (Key record2) w).1 = inr rows2 /\
    converts env (table w) rows1 rs1 /\
    converts env (table w ++ rs1) rows2 rs2 /\
    table w' = table w ++ rs1 ++ rs2 /\
    invoked w' = invoked w ++
      [omap (summary_of (table w ++ rs1))
            (map_range env (list_to_set (email <$> rs1)))
       ++ omap (summary_of (table w'))
               (map_range env (list_to_set (email <$> rs2)))].
Proof.
  intros Hrun. rewrite handler_run in Hrun.
  destruct (connection_ok env); [|discriminate].
  cbn [process_records] in Hrun. unfold mbind, M_bind in Hrun.
  destruct (process_record env record1 [] _) as [[err|out1] w1] eqn:H1; [discriminate|].
  destruct (process_record env record2 out1 w1) as [[err|out2] w2] eqn:H2;
    [discriminate|].
  pose proof (process_record_inv _ _ _ _ _ _ H1) as (Hi1 & _).
  pose proof (process_record_inv _ _ _ _ _ _ H2) as (Hi2 & _).
  apply process_record_success in H1 as (rows1 & rs1 & Hr1 & Hc1 & Ht1 & ->).
  apply process_record_success in H2 as (rows2 & rs2 & Hr2 & Hc2 & Ht2 & ->).
  simpl in Hc1, Ht1, Hi1.
  unfold mret, M_ret in Hrun.
  unfold invokeNotificationLambda, throw in Hrun.
  destruct (forallb marshals _); [|discriminate].
  destruct (invoke_ok env w2); [|discriminate].
  injection Hrun as <-. simpl.
  exists rows1, rows2, rs1, rs2.
  rewrite (processCSVFile_result _ _ _ w (logged [LogStarted] w)).
  rewrite (processCSVFile_result _ _ _ w w1).
  rewrite Ht1 in Hc2, Ht2. rewrite <- app_assoc in Ht2.
  split; [exact Hr1|]. split; [exact Hr2|]. split; [exact Hc1|].
  split; [exact Hc2|]. split; [exact Ht2|].
  rewrite Hi2, Hi1, Ht1. reflexivity.
Qed.

Lemma summaries_pile_up_file_by_file_witness :
  let env := example_env two_objects in
  let w := initial_world in
  let w' := (handler env [example_record; second_record] w).2 in
  (exists rows1 rows2 rs1 rs2,
     (processCSVFile env (Bucket example_record) (Key example_record) w).1 = inr rows1 /\
     (processCSVFile env (Bucket second_record) (Key second_record) w).1 = inr rows2 /\
     converts env (table w) rows1 rs1 /\
     converts env (table w ++ rs1) rows2 rs2 /\
     table w' = table w ++ rs1 ++ rs2 /\
     invoked w' = invoked w ++
       [omap (summary_of (table w ++ rs1))
             (map_range env (list_to_set (email <$> rs1)))
        ++ omap (summary_of (table w'))
                (map_range env (list_to_set (email <$> rs2)))]) /\
  Email <$> default [] (last (invoked w'))
  = ["ana@example.com"; "luis@example.com"; "ana@example.com"].
Proof.
  intros env w w'. split.
  - apply (summaries_pile_up_file_by_file env example_record second_record w w').
    vm_compute. reflexivity.
  - vm_compute. reflexivity.
Defined.
